(** * Validation engine of the resource-allocation configurator

    A shallow embedding of [src/utils/validationUtils.ts] and the
    properties its specification states about it.

    Modelling conventions.
    - JavaScript values are the inductive type [jsval].  Numbers are the
      integers together with NaN ([num]); they are the numbers of
      JavaScript, in value and in print, wherever every number involved is
      an integer of magnitude at most 2^53 ([numbers_safe]).  A numeric
      text is read when its value is such an integer, whether it is
      written with digits only, with a fraction, with an exponent or in
      another radix; a text that JavaScript would read as another number
      or as an infinity is outside this fragment, as is a number of a JSON
      text that is no such integer: the functions that meet one answer
      [Unsupported], never a guess.
    - Strings are sequences of code units below 256.
    - Exceptions are explicit: a computation that may throw returns [res],
      and [try_catch] is the try/catch of the source.
    - The objects the engine uses as dictionaries are finite maps of their
      own keys: [gmap] for the error maps, insertion-ordered association
      lists with the own-key order of JavaScript where the source
      enumerates them ([Object.keys], [Object.entries], [Map.forEach]).
      A plain object also answers to the names of the members of
      [Object.prototype] ([Dict.inherited]).  In the rule graph a task
      with such a name gets no list of its own and the call of [includes]
      on the inherited member throws; in the table of phases a phase with
      such a name leaves the fragment.  In the error maps a row reported
      under such a name is outside the embedding: there the source writes
      the field error on the inherited object, which every map shares and
      which outlives the run.  A run is modelled from the state in which
      no earlier run has written on these objects.
    - The three accumulators [errors], [summary] and [suggestions] that the
      nested functions of [validateAllData] share are one record,
      [ValidationResult], passed explicitly from pass to pass.
    - Recursion that is not structural in the source (the descent of the
      parser, the traversal of the rule graph) runs on a fuel; lemmas show
      that the fuel given is enough. *)

From Stdlib Require Import ZArith String Ascii List DecimalString Lia.
From stdpp Require Import base tactics option list strings gmap.

Set Warnings "-register-all,-clear-no-such-hyp".

Local Open Scope string_scope.
Local Open Scope Z_scope.

(** ** JavaScript values *)

Module JS.

Inductive num : Type :=
| NaN
| Int (z : Z).

Inductive jsval : Type :=
| JUndefined
| JNull
| JBool (b : bool)
| JNum (n : num)
| JStr (s : string)
| JArr (l : list jsval)
| JObj (l : list (string * jsval)).

Inductive exn : Type :=
| TypeError
| SyntaxError.

(** The outcome of a computation of the source: a value, an exception, or
    an input that leaves the modelled fragment. *)
Inductive res (A : Type) : Type :=
| Ok (a : A)
| Throw (e : exn)
| Unsupported.

Arguments Ok {A} a.
Arguments Throw {A} e.
Arguments Unsupported {A}.

#[global] Instance res_ret : MRet res := fun A a => Ok a.
#[global] Instance res_bind : MBind res := fun A B f m =>
  match m with
  | Ok a => f a
  | Throw e => Throw e
  | Unsupported => Unsupported
  end.

(** [try { body } catch { handler }]: only an exception is caught. *)
Definition try_catch {A} (body : res A) (handler : res A) : res A :=
  match body with
  | Throw _ => handler
  | r => r
  end.

#[global] Instance num_eq_dec : EqDecision num.
Proof. solve_decision. Defined.

#[global] Instance exn_eq_dec : EqDecision exn.
Proof. solve_decision. Defined.

Definition of_nat (n : nat) : jsval := JNum (Int (Z.of_nat n)).

(** *** Strings *)

Definition dquote : ascii := "034"%char.

(** WhiteSpace and LineTerminator code units below 256, as [trim] strips
    them: TAB, LF, VT, FF, CR, SP and NBSP. *)
Definition is_js_space (c : ascii) : bool :=
  let n := nat_of_ascii c in
  ((9 <=? n)%nat && (n <=? 13)%nat) || (n =? 32)%nat || (n =? 160)%nat.

(** The four whitespace characters of the JSON grammar. *)
Definition is_json_space (c : ascii) : bool :=
  let n := nat_of_ascii c in
  (n =? 32)%nat || (n =? 9)%nat || (n =? 10)%nat || (n =? 13)%nat.

Fixpoint trim_start (s : string) : string :=
  match s with
  | String c r => if is_js_space c then trim_start r else s
  | EmptyString => EmptyString
  end.

Fixpoint trim_end (s : string) : string :=
  match s with
  | EmptyString => EmptyString
  | String c r =>
      match trim_end r with
      | EmptyString => if is_js_space c then EmptyString else String c EmptyString
      | r' => String c r'
      end
  end.

(** [s.trim()] *)
Definition trim (s : string) : string := trim_end (trim_start s).

(** [s.startsWith('[')] *)
Definition starts_with_bracket (s : string) : bool :=
  match s with
  | String c _ => Ascii.eqb c "["
  | EmptyString => false
  end.

(** [s.split(sep)] for a one-character separator. *)
Fixpoint split_on (sep : ascii) (s : string) : list string :=
  match s with
  | EmptyString => [EmptyString]
  | String c r =>
      if Ascii.eqb c sep then EmptyString :: split_on sep r
      else match split_on sep r with
           | x :: xs => String c x :: xs
           | [] => [String c EmptyString]
           end
  end.

(** [l.join(sep)] on strings. *)
Fixpoint join (sep : string) (l : list string) : string :=
  match l with
  | [] => EmptyString
  | [x] => x
  | x :: r => x ++ sep ++ join sep r
  end.

Definition is_digit (c : ascii) : bool :=
  let n := nat_of_ascii c in (48 <=? n)%nat && (n <=? 57)%nat.

Fixpoint all_digits (s : string) : bool :=
  match s with
  | EmptyString => true
  | String c r => is_digit c && all_digits r
  end.

(** The regular expression [/^\d+$/]. *)
Definition digits_only (s : string) : bool :=
  match s with
  | EmptyString => false
  | _ => all_digits s
  end.

Definition string_of_Z (z : Z) : string :=
  NilZero.string_of_int (Z.to_int z).

Definition string_of_nat (n : nat) : string :=
  string_of_Z (Z.of_nat n).

(** *** Coercions *)

Definition truthy (v : jsval) : bool :=
  match v with
  | JUndefined | JNull => false
  | JBool b => b
  | JNum NaN => false
  | JNum (Int z) => negb (z =? 0)
  | JStr s => negb (String.eqb s EmptyString)
  | JArr _ | JObj _ => true
  end.

(** [a || b] *)
Definition js_or (a b : jsval) : jsval := if truthy a then a else b.

(** ToString.  An array joins its elements with a comma, null and undefined
    elements giving the empty string.  This is the string of a value that
    has one ([printable]) and whose numbers are exact ([numbers_safe]); the
    engine applies it as it is to cells, which are such values when their
    numbers are, and through [to_string_res] to the items of parsed
    lists. *)
Fixpoint to_string (v : jsval) : string :=
  match v with
  | JUndefined => "undefined"
  | JNull => "null"
  | JBool true => "true"
  | JBool false => "false"
  | JNum NaN => "NaN"
  | JNum (Int z) => string_of_Z z
  | JStr s => s
  | JArr l =>
      join "," (map (fun x => match x with
                              | JUndefined | JNull => EmptyString
                              | _ => to_string x
                              end) l)
  | JObj _ => "[object Object]"
  end.

(** [l.join(sep)] on an array of values. *)
Definition array_join (sep : string) (l : list jsval) : string :=
  join sep (map (fun x => match x with
                          | JUndefined | JNull => EmptyString
                          | _ => to_string x
                          end) l).

(** The values ToString has a string for.  A parsed object with an own
    member [toString] has none: the member is not a function, and
    [Object.prototype.valueOf] gives the object back, so the conversion
    throws a [TypeError]; an array has none when one of its elements has
    none. *)
Fixpoint printable (v : jsval) : bool :=
  match v with
  | JArr l => forallb printable l
  | JObj l => negb (existsb (fun kv => String.eqb (fst kv) "toString") l)
  | _ => true
  end.

(** The integers every one of which is a number of JavaScript: those of
    magnitude at most 2^53. *)
Definition safe_int (z : Z) : bool := Z.abs z <=? 2 ^ 53.

(** The values whose numbers [to_string] prints as JavaScript does. *)
Fixpoint numbers_safe (v : jsval) : bool :=
  match v with
  | JNum (Int z) => safe_int z
  | JArr l => forallb numbers_safe l
  | _ => true
  end.

(** ToString as a computation: it throws where the value has no string,
    and a number beyond 2^53 leaves the fragment. *)
Definition to_string_res (v : jsval) : res string :=
  if negb (printable v) then Throw TypeError
  else if negb (numbers_safe v) then Unsupported
  else Ok (to_string v).

Definition is_string (v : jsval) : bool :=
  match v with JStr _ => true | _ => false end.

(** Value of a digit in a radix up to 16. *)
Definition digit_value (radix : Z) (c : ascii) : option Z :=
  let n := Z.of_nat (nat_of_ascii c) in
  let d := if (48 <=? n) && (n <=? 57) then Some (n - 48)
           else if (97 <=? n) && (n <=? 102) then Some (n - 87)
           else if (65 <=? n) && (n <=? 70) then Some (n - 55)
           else None in
  match d with
  | Some k => if k <? radix then Some k else None
  | None => None
  end.

(** The longest prefix of digits, read in the radix; [None] when empty. *)
Fixpoint digits_prefix (radix : Z) (acc : option Z) (s : string) : option Z :=
  match s with
  | EmptyString => acc
  | String c r =>
      match digit_value radix c with
      | Some d => digits_prefix radix (Some (radix * default 0 acc + d)) r
      | None => acc
      end
  end.

(** [parseInt(s)] with no radix argument: the integer the digits write.
    It is the number JavaScript returns when it is at most 2^53; the
    engine uses the values it reads as keys of phases, through
    [phase_key], which leaves a larger one out of the fragment. *)
Definition parseInt (s : string) : num :=
  let s := trim_start s in
  let '(neg, s) := match s with
                   | String "-" r => (true, r)
                   | String "+" r => (false, r)
                   | _ => (false, s)
                   end in
  let '(radix, s) := match s with
                     | String "0" (String "x" r) => (16, r)
                     | String "0" (String "X" r) => (16, r)
                     | _ => (10, s)
                     end in
  match digits_prefix radix None s with
  | Some z => Int (if neg then - z else z)
  | None => NaN
  end.

(** Characters that can occur in a decimal StringNumericLiteral: digits,
    sign, point, exponent and the letters of Infinity. *)
Definition numeric_char (c : ascii) : bool :=
  is_digit c || existsb (Ascii.eqb c) (list_ascii_of_string "+-.eEInfity").

(** The prefixes 0x, 0o and 0b of the literals in another radix. *)
Definition radix_prefixed (s : string) : bool :=
  match s with
  | String "0" (String c _) =>
      existsb (Ascii.eqb c) (list_ascii_of_string "xXoObB")
  | _ => false
  end.

Fixpoint all_numeric_chars (s : string) : bool :=
  match s with
  | EmptyString => true
  | String c r => numeric_char c && all_numeric_chars r
  end.

(** Splits off the leading run of decimal digits. *)
Fixpoint span_digits (s : string) : string * string :=
  match s with
  | String c r =>
      if is_digit c
      then let '(d, rest) := span_digits r in (String c d, rest)
      else (EmptyString, s)
  | EmptyString => (EmptyString, EmptyString)
  end.

(** The exponent part of a decimal literal, which ends the literal: the
    letter e, an optional sign and digits.  No exponent part is the
    exponent 0. *)
Definition exponent_part (s : string) : option Z :=
  match s with
  | EmptyString => Some 0
  | String c r =>
      if Ascii.eqb c "e" || Ascii.eqb c "E" then
        match r with
        | String "-" d =>
            if digits_only d then Some (- default 0 (digits_prefix 10 None d))
            else None
        | String "+" d =>
            if digits_only d then Some (default 0 (digits_prefix 10 None d))
            else None
        | _ =>
            if digits_only r then Some (default 0 (digits_prefix 10 None r))
            else None
        end
      else None
  end.

(** The mantissa [m] scaled by ten to the [scale], when that is an integer
    of magnitude at most 2^53. *)
Definition scaled (m scale : Z) : option Z :=
  if m =? 0 then Some 0
  else if 0 <=? scale then
    if 16 <? scale then None
    else let z := m * 10 ^ scale in if safe_int z then Some z else None
  else if 400 <? - scale then None
  else
    let d := 10 ^ (- scale) in
    if m mod d =? 0 then
      let z := m / d in if safe_int z then Some z else None
    else None.

(** The value of an unsigned decimal literal, digits with a point or an
    exponent part or both, when the value is such an integer:
    [digits . digits? exponent?], [. digits exponent?] or
    [digits exponent?]. *)
Definition decimal_literal (s : string) : option Z :=
  let '(ip, r1) := span_digits s in
  let '(fp, r2) := match r1 with
                   | String "." r => span_digits r
                   | _ => (EmptyString, r1)
                   end in
  if String.eqb ip EmptyString && String.eqb fp EmptyString then None
  else
    match exponent_part r2 with
    | Some ex =>
        scaled (default 0 (digits_prefix 10 None (ip ++ fp)))
               (ex - Z.of_nat (String.length fp))
    | None => None
    end.

Fixpoint all_in_radix (radix : Z) (s : string) : bool :=
  match s with
  | EmptyString => true
  | String c r =>
      match digit_value radix c with
      | Some _ => all_in_radix radix r
      | None => false
      end
  end.

(** The value of a literal in the radix 16, 8 or 2, which has no sign, when
    it is at most 2^53. *)
Definition radix_literal (s : string) : option Z :=
  match s with
  | String "0" (String c r) =>
      let radix := if Ascii.eqb c "x" || Ascii.eqb c "X" then 16
                   else if Ascii.eqb c "o" || Ascii.eqb c "O" then 8
                   else if Ascii.eqb c "b" || Ascii.eqb c "B" then 2
                   else 0 in
      if (radix =? 0) || String.eqb r EmptyString
         || negb (all_in_radix radix r)
      then None
      else let z := default 0 (digits_prefix radix None r) in
           if safe_int z then Some z else None
  | _ => None
  end.

(** An integer read from digits, when it is exact. *)
Definition exact (z : Z) : res num :=
  if safe_int z then Ok (Int z) else Unsupported.

(** StringToNumber: blank text is 0; a signed run of decimal digits, a
    decimal literal with a fraction or an exponent, and a literal in
    another radix are their values when these are integers up to 2^53;
    text with a character no numeric literal contains is NaN.  What
    remains (a value that is no such integer, Infinity, text of numeric
    characters that may be no literal) is not evaluated. *)
Definition string_to_number (s : string) : res num :=
  let t := trim s in
  match t with
  | EmptyString => Ok (Int 0)
  | String c r =>
      if digits_only t then exact (default 0 (digits_prefix 10 None t))
      else if (Ascii.eqb c "-") && digits_only r
      then exact (- default 0 (digits_prefix 10 None r))
      else if (Ascii.eqb c "+") && digits_only r
      then exact (default 0 (digits_prefix 10 None r))
      else
        let literal :=
          if Ascii.eqb c "-" then option_map Z.opp (decimal_literal r)
          else if Ascii.eqb c "+" then decimal_literal r
          else match decimal_literal t with
               | Some z => Some z
               | None => radix_literal t
               end in
        match literal with
        | Some z => Ok (Int z)
        | None =>
            if radix_prefixed t || all_numeric_chars t then Unsupported
            else Ok NaN
        end
  end.

(** ToPrimitive of the values of the model: arrays and plain objects turn
    into their string.  The engine applies it, and the operators built on
    it, to cells and to sums of cells, which are primitive. *)
Definition to_primitive (v : jsval) : jsval :=
  match v with
  | JArr _ | JObj _ => JStr (to_string v)
  | _ => v
  end.

(** ToNumber, also [Number(v)]. *)
Definition to_number (v : jsval) : res num :=
  match to_primitive v with
  | JUndefined => Ok NaN
  | JNull => Ok (Int 0)
  | JBool b => Ok (Int (if b then 1 else 0))
  | JNum n => Ok n
  | JStr s => string_to_number s
  | _ => Ok NaN
  end.

Definition num_add (a b : num) : num :=
  match a, b with
  | Int x, Int y => Int (x + y)
  | _, _ => NaN
  end.

Definition num_ltb (a b : num) : bool :=
  match a, b with
  | Int x, Int y => x <? y
  | _, _ => false
  end.

Definition is_nan (n : num) : bool :=
  match n with NaN => true | Int _ => false end.

(** ToNumber of a primitive that is no string. *)
Definition prim_number (v : jsval) : num :=
  match v with
  | JNull => Int 0
  | JBool b => Int (if b then 1 else 0)
  | JNum n => n
  | _ => NaN
  end.

(** [a + b]: concatenation as soon as one side is a string. *)
Definition js_add (a b : jsval) : jsval :=
  let a := to_primitive a in
  let b := to_primitive b in
  if is_string a || is_string b
  then JStr (to_string a ++ to_string b)
  else JNum (num_add (prim_number a) (prim_number b)).

Definition string_ltb (x y : string) : bool :=
  match String.compare x y with
  | Lt => true
  | _ => false
  end.

(** [a < b]: two strings compare by code units, anything else as numbers. *)
Definition js_lt (a b : jsval) : res bool :=
  match to_primitive a, to_primitive b with
  | JStr x, JStr y => Ok (string_ltb x y)
  | a', b' =>
      na ← to_number a';
      nb ← to_number b';
      Ok (num_ltb na nb)
  end.

(** [a > b] *)
Definition js_gt (a b : jsval) : res bool := js_lt b a.

(** SameValueZero, the equality of [Array.prototype.includes], [Set] and
    [Map]; two arrays or objects built separately are never the same. *)
Definition same_value_zero (a b : jsval) : bool :=
  match a, b with
  | JUndefined, JUndefined => true
  | JNull, JNull => true
  | JBool x, JBool y => Bool.eqb x y
  | JNum x, JNum y => bool_decide (x = y)
  | JStr x, JStr y => String.eqb x y
  | _, _ => false
  end.

(** [l.includes(v)] and [set.has(v)] *)
Definition includes (l : list jsval) (v : jsval) : bool :=
  existsb (same_value_zero v) l.

(** [v.trim()]: a method of strings only. *)
Definition js_trim (v : jsval) : res string :=
  match v with
  | JStr s => Ok (trim s)
  | _ => Throw TypeError
  end.

(** [v.split(',')]: a method of strings only. *)
Definition js_split (v : jsval) : res (list string) :=
  match v with
  | JStr s => Ok (split_on "," s)
  | _ => Throw TypeError
  end.

(** The elements of an array; array methods on anything else fail. *)
Definition as_array (v : jsval) : res (list jsval) :=
  match v with
  | JArr l => Ok l
  | _ => Throw TypeError
  end.

End JS.

(** ** [JSON.parse] *)

Module JSON.
Import JS.

Fixpoint skip_ws (s : string) : string :=
  match s with
  | String c r => if is_json_space c then skip_ws r else s
  | EmptyString => EmptyString
  end.

(** Splits off the leading run of decimal digits. *)
Fixpoint take_digits (s : string) : string * string :=
  match s with
  | String c r =>
      if is_digit c
      then let '(d, rest) := take_digits r in (String c d, rest)
      else (EmptyString, s)
  | EmptyString => (EmptyString, EmptyString)
  end.

(** Whether the text starts with the character, and the text after its
    first character. *)
Definition starts_with (c : ascii) (s : string) : bool :=
  match s with
  | String c' _ => Ascii.eqb c' c
  | EmptyString => false
  end.

Definition tail (s : string) : string :=
  match s with
  | String _ r => r
  | EmptyString => EmptyString
  end.

(** A number token: an optional minus sign, digits with no leading zero,
    and then no fraction and no exponent.  Only integer literals are
    evaluated. *)
Definition parse_number (s : string) : res (jsval * string) :=
  let neg := starts_with "-" s in
  let '(ds, rest) := take_digits (if neg then tail s else s) in
  if String.eqb ds EmptyString then Throw SyntaxError
  else if starts_with "0" ds && negb (String.eqb (tail ds) EmptyString)
  then Throw SyntaxError
  else if starts_with "." rest || starts_with "e" rest || starts_with "E" rest
  then Unsupported
  else
    let z := default 0 (digits_prefix 10 None ds) in
    if safe_int z then Ok (JNum (Int (if neg then - z else z)), rest)
    else Unsupported.

(** The character a one-letter escape stands for. *)
Definition escape_char (e : ascii) : option ascii :=
  if Ascii.eqb e dquote then Some dquote
  else if Ascii.eqb e "\" then Some "\"%char
  else if Ascii.eqb e "/" then Some "/"%char
  else if Ascii.eqb e "b" then Some "008"%char
  else if Ascii.eqb e "f" then Some "012"%char
  else if Ascii.eqb e "n" then Some "010"%char
  else if Ascii.eqb e "r" then Some "013"%char
  else if Ascii.eqb e "t" then Some "009"%char
  else None.

(** The code unit of a [\uXXXX] escape. *)
Definition hex4 (a b c d : ascii) : option Z :=
  x ← digit_value 16 a;
  y ← digit_value 16 b;
  z ← digit_value 16 c;
  w ← digit_value 16 d;
  Some (((x * 16 + y) * 16 + z) * 16 + w).

(** The rest of a string token, after its opening quote. *)
Fixpoint parse_string_body (s : string) : res (string * string) :=
  match s with
  | EmptyString => Throw SyntaxError
  | String c r =>
      if Ascii.eqb c dquote then Ok (EmptyString, r)
      else if Ascii.eqb c "\" then
        match r with
        | String e r1 =>
            if Ascii.eqb e "u" then
              match r1 with
              | String h1 (String h2 (String h3 (String h4 r'))) =>
                  match hex4 h1 h2 h3 h4 with
                  | None => Throw SyntaxError
                  | Some code =>
                      if code <? 256 then
                        '(str, rest) ← parse_string_body r';
                        Ok (String (ascii_of_nat (Z.to_nat code)) str, rest)
                      else Unsupported
                  end
              | _ => Throw SyntaxError
              end
            else
              match escape_char e with
              | Some ch =>
                  '(str, rest) ← parse_string_body r1;
                  Ok (String ch str, rest)
              | None => Throw SyntaxError
              end
        | EmptyString => Throw SyntaxError
        end
      else if (nat_of_ascii c <? 32)%nat then Throw SyntaxError
      else
        '(str, rest) ← parse_string_body r;
        Ok (String c str, rest)
  end.

(** The text after the word [w], when the text starts with it. *)
Fixpoint strip_prefix (w s : string) : option string :=
  match w with
  | EmptyString => Some s
  | String a w' =>
      match s with
      | String b s' => if Ascii.eqb a b then strip_prefix w' s' else None
      | EmptyString => None
      end
  end.

Definition expect_word (w : string) (v : jsval) (s : string)
  : res (jsval * string) :=
  match strip_prefix w s with
  | Some rest => Ok (v, rest)
  | None => Throw SyntaxError
  end.

(** One value, with the whitespace before it.  Every call consumes a
    character, so a fuel above twice the length of the text is never used
    up (lemma [parse_value_fuel]). *)
Fixpoint parse_value (fuel : nat) (s : string) : res (jsval * string) :=
  match fuel with
  | O => Unsupported
  | S f =>
      match skip_ws s with
      | EmptyString => Throw SyntaxError
      | String c r as t =>
          if Ascii.eqb c "[" then
            if starts_with "]" (skip_ws r) then Ok (JArr [], tail (skip_ws r))
            else '(l, rest) ← parse_elements f r; Ok (JArr l, rest)
          else if Ascii.eqb c "{" then
            if starts_with "}" (skip_ws r) then Ok (JObj [], tail (skip_ws r))
            else '(l, rest) ← parse_members f r; Ok (JObj l, rest)
          else if Ascii.eqb c dquote then
            '(str, rest) ← parse_string_body r; Ok (JStr str, rest)
          else if Ascii.eqb c "t" then expect_word "true" (JBool true) t
          else if Ascii.eqb c "f" then expect_word "false" (JBool false) t
          else if Ascii.eqb c "n" then expect_word "null" JNull t
          else parse_number t
      end
  end
with parse_elements (fuel : nat) (s : string) : res (list jsval * string) :=
  match fuel with
  | O => Unsupported
  | S f =>
      '(v, r) ← parse_value f s;
      if starts_with "," (skip_ws r) then
        '(l, rest) ← parse_elements f (tail (skip_ws r)); Ok (v :: l, rest)
      else if starts_with "]" (skip_ws r) then Ok ([v], tail (skip_ws r))
      else Throw SyntaxError
  end
with parse_members (fuel : nat) (s : string)
  : res (list (string * jsval) * string) :=
  match fuel with
  | O => Unsupported
  | S f =>
      if starts_with dquote (skip_ws s) then
        '(k, r1) ← parse_string_body (tail (skip_ws s));
        if starts_with ":" (skip_ws r1) then
          '(v, r3) ← parse_value f (tail (skip_ws r1));
          if starts_with "," (skip_ws r3) then
            '(l, rest) ← parse_members f (tail (skip_ws r3));
            Ok ((k, v) :: l, rest)
          else if starts_with "}" (skip_ws r3)
          then Ok ([(k, v)], tail (skip_ws r3))
          else Throw SyntaxError
        else Throw SyntaxError
      else Throw SyntaxError
  end.

(** [JSON.parse(s)] for a string [s]. *)
Definition parse (s : string) : res jsval :=
  '(v, rest) ← parse_value (2 * String.length s + 2) s;
  match skip_ws rest with
  | EmptyString => Ok v
  | _ => Throw SyntaxError
  end.

(** [JSON.parse(v)]: the argument is first turned into a string. *)
Definition parse_val (v : jsval) : res jsval := parse (to_string v).

End JSON.

(** ** Objects used as dictionaries *)

Module Dict.
Import JS.

Section dict.
Context {V : Type}.

(** [o[k]] *)
Fixpoint get (k : string) (o : list (string * V)) : option V :=
  match o with
  | [] => None
  | (k', v) :: r => if String.eqb k' k then Some v else get k r
  end.

(** [o[k] = v]: an existing key keeps its place, a new one goes last. *)
Fixpoint set (k : string) (v : V) (o : list (string * V))
  : list (string * V) :=
  match o with
  | [] => [(k, v)]
  | (k', v') :: r =>
      if String.eqb k' k then (k', v) :: r else (k', v') :: set k v r
  end.

Fixpoint insert_sorted (z : Z) (e : string * V)
    (l : list (Z * (string * V))) : list (Z * (string * V)) :=
  match l with
  | [] => [(z, e)]
  | (z', e') :: r =>
      if z <? z' then (z, e) :: l else (z', e') :: insert_sorted z e r
  end.
End dict.

(** An array index: the canonical decimal text of an integer from 0 to
    2^32 - 2. *)
Definition array_index (k : string) : option Z :=
  match k with
  | String c r =>
      if digits_only k && (negb (Ascii.eqb c "0") || String.eqb r EmptyString)
      then let z := default 0 (digits_prefix 10 None k) in
           if z <? 2 ^ 32 - 1 then Some z else None
      else None
  | EmptyString => None
  end.

(** [Object.entries(o)]: the array indices in ascending order, then the
    other keys in insertion order. *)
Definition entries {V} (o : list (string * V)) : list (string * V) :=
  let indexed :=
    fold_left (fun acc e => match array_index (fst e) with
                            | Some z => insert_sorted z e acc
                            | None => acc
                            end) o [] in
  (map snd indexed
   ++ filter (fun e => bool_decide (array_index (fst e) = None)) o)%list.

(** [Object.keys(o)] *)
Definition keys {V} (o : list (string * V)) : list string :=
  map fst (entries o).

(** The names an object literal [{}] answers to before any key is set:
    the members it inherits from [Object.prototype].  Each reads as a
    truthy value (a function, or the prototype itself), and none is an own
    key. *)
Definition object_prototype_members : list string :=
  ["constructor"; "__defineGetter__"; "__defineSetter__"; "hasOwnProperty";
   "__lookupGetter__"; "__lookupSetter__"; "isPrototypeOf";
   "propertyIsEnumerable"; "toString"; "valueOf"; "__proto__";
   "toLocaleString"].

Definition inherited (k : string) : bool :=
  existsb (String.eqb k) object_prototype_members.

End Dict.

(** ** The validation engine *)

Module Validation.
Import JS.

Inductive Entity : Type :=
| EClients
| EWorkers
| ETasks.

(** The string an [Entity] is in the source. *)
Definition entity_name (e : Entity) : string :=
  match e with
  | EClients => "clients"
  | EWorkers => "workers"
  | ETasks => "tasks"
  end.

(** A cell of a row, as the file parsers supply it. *)
Inductive cell : Type :=
| CNull
| CNum (n : num)
| CStr (s : string).

Definition cell_val (c : cell) : jsval :=
  match c with
  | CNull => JNull
  | CNum n => JNum n
  | CStr s => JStr s
  end.

(** A row maps column names to cells; a missing column reads as
    [undefined]. *)
Abbreviation row := (gmap string cell).

(** [row[f]] *)
Definition field (r : row) (f : string) : jsval :=
  match r !! f with
  | Some c => cell_val c
  | None => JUndefined
  end.

(** A rule: its [type] tag and, when it has one, its [tasks] list. *)
Record rule : Type := mkRule {
  rule_type : string;
  rule_tasks : option (list string)
}.

Record ValidateAllDataArgs : Type := mkArgs {
  clients : list row;
  workers : list row;
  tasks : list row;
  rules : option (list rule)
}.

Abbreviation fieldErrors := (gmap string string).
Abbreviation rowErrors := (gmap string (gmap string string)).

Record errorMap : Type := mkErrors {
  err_clients : rowErrors;
  err_workers : rowErrors;
  err_tasks : rowErrors
}.

Record ValidationResult : Type := mkResult {
  errors : errorMap;
  summary : list string;
  suggestions : list string
}.

Definition requiredColumns (e : Entity) : list string :=
  match e with
  | EClients => ["ClientID"; "ClientName"; "PriorityLevel";
                 "RequestedTaskIDs"; "GroupTag"; "AttributesJSON"]
  | EWorkers => ["WorkerID"; "WorkerName"; "Skills"; "AvailableSlots";
                 "MaxLoadPerPhase"; "WorkerGroup"; "QualificationLevel"]
  | ETasks => ["TaskID"; "TaskName"; "Category"; "Duration";
               "RequiredSkills"; "PreferredPhases"; "MaxConcurrent"]
  end.

(** *** The shared accumulators *)

Definition empty_errors : errorMap := mkErrors ∅ ∅ ∅.

(** The state [validateAllData] starts from. *)
Definition init : ValidationResult := mkResult empty_errors [] [].

(** [errors[e]] *)
Definition rows_of (e : Entity) (m : errorMap) : rowErrors :=
  match e with
  | EClients => err_clients m
  | EWorkers => err_workers m
  | ETasks => err_tasks m
  end.

Definition with_rows (e : Entity) (r : rowErrors) (m : errorMap) : errorMap :=
  match e with
  | EClients => mkErrors r (err_workers m) (err_tasks m)
  | EWorkers => mkErrors (err_clients m) r (err_tasks m)
  | ETasks => mkErrors (err_clients m) (err_workers m) r
  end.

(** [errors[e][key][f]] *)
Definition get_error (e : Entity) (key f : string) (st : ValidationResult)
  : option string :=
  rows_of e (errors st) !! key ≫= fun fs => fs !! f.

(** [errors[e][key] = errors[e][key] || {}; errors[e][key][f] = msg] *)
Definition set_error (e : Entity) (key f msg : string) (st : ValidationResult)
  : ValidationResult :=
  let rs := rows_of e (errors st) in
  let fs := default ∅ (rs !! key) in
  mkResult (with_rows e (<[key := <[f := msg]> fs]> rs) (errors st))
           (summary st) (suggestions st).

(** [summary.push(msg)] *)
Definition push_summary (msg : string) (st : ValidationResult)
  : ValidationResult :=
  mkResult (errors st) (summary st ++ [msg])%list (suggestions st).

(** [suggestions.push(msg)] *)
Definition push_suggestion (msg : string) (st : ValidationResult)
  : ValidationResult :=
  mkResult (errors st) (summary st) (suggestions st ++ [msg])%list.

(** The key a row is reported under, [row.id || idx]. *)
Definition row_key (r : row) (idx : nat) : string :=
  to_string (js_or (field r "id") (of_nat idx)).

(** The row number of the messages, [idx + 1]. *)
Definition row_number (idx : nat) : string := string_of_nat (idx + 1).

(** [l.forEach((a, idx) => ...)] for a body working on a state [St]. *)
Fixpoint forEach_from {A St : Type} (f : A → nat → St → res St)
    (l : list A) (idx : nat) (st : St) : res St :=
  match l with
  | [] => Ok st
  | a :: r => st' ← f a idx st; forEach_from f r (S idx) st'
  end.

Definition forEach {A St : Type} (f : A → nat → St → res St)
    (l : list A) (st : St) : res St :=
  forEach_from f l 0 st.

(** The list a field encodes, as every check reads it:
    [typeof v === 'string' && v.trim().startsWith('[') ? JSON.parse(v)
     : v.split(',').map(post)].
    A text that starts with a bracket parses to an array or not at all
    (lemma [parse_bracket_array]), so the case of another value is never
    met. *)
Definition list_of_field (post : string → jsval) (v : jsval)
  : res (list jsval) :=
  match v with
  | JStr s =>
      if starts_with_bracket (trim s)
      then parsed ← JSON.parse s;
           match parsed with
           | JArr l => Ok l
           | _ => Unsupported
           end
      else Ok (map post (split_on "," s))
  | _ => Throw TypeError
  end.

(** [.map((s) => s.trim())] *)
Definition trimmed (s : string) : jsval := JStr (trim s).

(** [.map((s) => parseInt(s.trim()))] *)
Definition parsed_int (s : string) : jsval := JNum (parseInt (trim s)).

(** *** Schema checker *)

Definition checkMissingColumns (entity : Entity) (rows : list row)
    (st : ValidationResult) : res ValidationResult :=
  match rows with
  | [] => Ok st
  | row0 :: _ =>
      let required := requiredColumns entity in
      let missing :=
        filter (fun col => bool_decide (row0 !! col = None)) required in
      match missing with
      | [] => Ok st
      | _ =>
          let st1 :=
            push_summary (entity_name entity ++ ": Missing required columns: "
                          ++ join ", " missing) st in
          forEach (fun r idx st =>
                     Ok (fold_left
                           (fun st col =>
                              set_error entity (row_key r idx) col
                                        "Required column missing" st)
                           missing st))
                  rows st1
      end
  end.

(** *** Identity checker *)

(** [if (!ids.has(id)) ids.set(id, []); ids.get(id).push(idx)] on a [Map],
    which keeps its keys in insertion order. *)
Fixpoint ids_push (id : jsval) (idx : nat) (ids : list (jsval * list nat))
  : list (jsval * list nat) :=
  match ids with
  | [] => [(id, [idx])]
  | (k, l) :: r =>
      if same_value_zero k id then (k, (l ++ [idx])%list) :: r
      else (k, l) :: ids_push id idx r
  end.

Fixpoint collect_ids (idField : string) (rows : list row) (idx : nat)
    (ids : list (jsval * list nat)) : list (jsval * list nat) :=
  match rows with
  | [] => ids
  | r :: rest =>
      let id := field r idField in
      collect_ids idField rest (S idx)
                  (if truthy id then ids_push id idx ids else ids)
  end.

Definition checkDuplicateIds (entity : Entity) (rows : list row)
    (idField : string) (st : ValidationResult) : res ValidationResult :=
  let ids := collect_ids idField rows 0 [] in
  forEach (fun (e : jsval * list nat) (_ : nat) st =>
             let '(id, indices) := e in
             if (1 <? length indices)%nat then
               let st1 :=
                 push_summary
                   (entity_name entity ++ ": Duplicate " ++ idField ++ " '"
                    ++ to_string id ++ "' found in rows "
                    ++ join ", " (map row_number indices)) st in
               forEach (fun (idx : nat) (_ : nat) st =>
                          match rows !! idx with
                          | Some r =>
                              Ok (set_error entity (row_key r idx) idField
                                    ("Duplicate " ++ idField ++ ": "
                                     ++ to_string id) st)
                          | None => Throw TypeError
                          end)
                       indices st1
             else Ok st)
          ids st.

(** *** List/format checker *)

(** The body of [rows.forEach].  The test [/^\d+$/.test(item)] of a numeric
    list is applied outside the [try], to the string of the item: an item
    that has no string makes the check throw.  The items are cells' text
    or parsed values, whose numbers are exact. *)
Definition checkMalformedLists_row (entity : Entity) (f : string)
    (numeric : bool) (r : row) (idx : nat) (st : ValidationResult)
  : res ValidationResult :=
  let value := field r f in
  if negb (truthy value) then Ok st
  else
    match list_of_field trimmed value with
    | Throw _ =>
        Ok (push_summary
              (entity_name entity ++ ": Row " ++ row_number idx
               ++ " has malformed list in " ++ f)
              (set_error entity (row_key r idx) f "Invalid list format" st))
    | Unsupported => Unsupported
    | Ok list =>
        if numeric then
          if negb (forallb printable list) then Throw TypeError
          else
          let invalidItems :=
            filter (fun item => negb (digits_only (to_string item))) list in
          match invalidItems with
          | [] => Ok st
          | _ =>
              Ok (push_summary
                    (entity_name entity ++ ": Row " ++ row_number idx
                     ++ " has non-numeric values in " ++ f ++ ": "
                     ++ array_join ", " invalidItems)
                    (set_error entity (row_key r idx) f
                       ("Non-numeric values: " ++ array_join ", " invalidItems)
                       st))
          end
        else Ok st
    end.

Definition checkMalformedLists (entity : Entity) (rows : list row)
    (f : string) (numeric : bool) (st : ValidationResult)
  : res ValidationResult :=
  forEach (checkMalformedLists_row entity f numeric) rows st.

(** *** Range checker *)

(** [value === undefined || value === null || value === ''] *)
Definition is_blank (v : jsval) : bool :=
  match v with
  | JUndefined | JNull => true
  | JStr s => String.eqb s EmptyString
  | _ => false
  end.

(** [isNaN(n) || n < min || n > max] *)
Definition out_of_range (n : num) (min max : Z) : bool :=
  is_nan n || num_ltb n (Int min) || num_ltb (Int max) n.

Definition checkOutOfRange_row (entity : Entity) (f : string) (min max : Z)
    (r : row) (idx : nat) (st : ValidationResult) : res ValidationResult :=
  let value := field r f in
  if is_blank value then Ok st
  else
    numValue ← to_number value;
    if out_of_range numValue min max then
      Ok (push_summary
            (entity_name entity ++ ": Row " ++ row_number idx ++ " " ++ f
             ++ " value " ++ to_string value ++ " is out of range ["
             ++ string_of_Z min ++ ", " ++ string_of_Z max ++ "]")
            (set_error entity (row_key r idx) f
               ("Value must be between " ++ string_of_Z min ++ " and "
                ++ string_of_Z max) st))
    else Ok st.

Definition checkOutOfRange (entity : Entity) (rows : list row) (f : string)
    (min max : Z) (st : ValidationResult) : res ValidationResult :=
  forEach (checkOutOfRange_row entity f min max) rows st.

(** *** JSON field checker *)

Definition checkJSONFormat_row (entity : Entity) (f : string)
    (r : row) (idx : nat) (st : ValidationResult) : res ValidationResult :=
  let value := field r f in
  if negb (truthy value) then Ok st
  else
    match JSON.parse_val value with
    | Throw _ =>
        Ok (push_summary
              (entity_name entity ++ ": Row " ++ row_number idx
               ++ " has invalid JSON in " ++ f)
              (set_error entity (row_key r idx) f "Invalid JSON format" st))
    | Unsupported => Unsupported
    | Ok _ => Ok st
    end.

Definition checkJSONFormat (entity : Entity) (rows : list row) (f : string)
    (st : ValidationResult) : res ValidationResult :=
  forEach (checkJSONFormat_row entity f) rows st.

(** *** Rule graph checker *)

Abbreviation graph := (list (string * list string)).

(** [if (task !== otherTask && !graph[task].includes(otherTask))
      graph[task].push(otherTask)].
    The model of [graph] holds its own keys.  A task without an own list
    is one named like a member of [Object.prototype] (see [add_task]):
    [graph[task]] is then the inherited member, which has no [includes],
    and the call throws. *)
Definition add_edge (task otherTask : string) (g : graph) : res graph :=
  if String.eqb task otherTask then Ok g
  else
    match Dict.get task g with
    | Some neighbours =>
        if existsb (String.eqb otherTask) neighbours then Ok g
        else Ok (Dict.set task (neighbours ++ [otherTask])%list g)
    | None => Throw TypeError
    end.

(** The body of the outer [rule.tasks.forEach].  [if (!graph[task])
    graph[task] = []] gives the task an own list unless [graph[task]] is
    truthy already: an own list is, and so is every inherited member. *)
Definition add_task (ruleTasks : list string) (task : string) (g : graph)
  : res graph :=
  let g1 := match Dict.get task g with
            | Some _ => g
            | None => if Dict.inherited task then g else Dict.set task [] g
            end in
  forEach (fun otherTask (_ : nat) g => add_edge task otherTask g)
          ruleTasks g1.

(** The body of [coRunRules.forEach]; a rule without [tasks] makes
    [rule.tasks.forEach] fail. *)
Definition add_rule (r : rule) (g : graph) : res graph :=
  match rule_tasks r with
  | Some ts => forEach (fun task (_ : nat) g => add_task ts task g) ts g
  | None => Throw TypeError
  end.

Definition build_graph (coRunRules : list rule) : res graph :=
  forEach (fun r (_ : nat) g => add_rule r g) coRunRules [].

(** The two sets the traversal shares. *)
Record dfs : Type := mkDfs {
  visited : gset string;
  recStack : gset string
}.

(** The loop [for (const neighbor of graph[task] || [])] of [hasCycle]
    and what follows it, given the recursive call. *)
Fixpoint visit_neighbours (call : string → dfs → option (bool * dfs))
    (task : string) (ns : list string) (d : dfs) : option (bool * dfs) :=
  match ns with
  | [] => Some (false, mkDfs (visited d) (recStack d ∖ {[task]}))
  | neighbor :: ns' =>
      match call neighbor d with
      | Some (true, d') => Some (true, d')
      | Some (false, d') => visit_neighbours call task ns' d'
      | None => None
      end
  end.

(** [hasCycle(task)].  The recursion is on a fuel that bounds its depth;
    [None] is an exhausted fuel, which the fuel [checkCircularCoRuns] gives
    never is (lemma [find_cycle_fuel]). *)
Fixpoint hasCycle (fuel : nat) (g : graph) (task : string) (d : dfs)
  : option (bool * dfs) :=
  match fuel with
  | O => None
  | S fuel' =>
      if bool_decide (task ∈ recStack d) then Some (true, d)
      else if bool_decide (task ∈ visited d) then Some (false, d)
      else
        visit_neighbours (hasCycle fuel' g) task
          (default [] (Dict.get task g))
          (mkDfs ({[task]} ∪ visited d) ({[task]} ∪ recStack d))
  end.

(** The loop over [Object.keys(graph)], left at the first cycle: the task
    the cycle was found from, if any. *)
Fixpoint find_cycle (fuel : nat) (g : graph) (ks : list string) (d : dfs)
  : option (option string) :=
  match ks with
  | [] => Some None
  | task :: ks' =>
      if bool_decide (task ∈ visited d) then find_cycle fuel g ks' d
      else match hasCycle fuel g task d with
           | Some (true, _) => Some (Some task)
           | Some (false, d') => find_cycle fuel g ks' d'
           | None => None
           end
  end.

Definition checkCircularCoRuns (rules : list rule) (st : ValidationResult)
  : res ValidationResult :=
  let coRunRules :=
    filter (fun r => String.eqb (rule_type r) "coRun") rules in
  g ← build_graph coRunRules;
  match find_cycle (S (length g)) g (Dict.keys g) (mkDfs ∅ ∅) with
  | Some (Some task) =>
      Ok (push_suggestion
            "Review co-run rules to eliminate circular dependencies"
            (push_summary
               ("Circular co-run dependency detected involving task " ++ task)
               st))
  | Some None => Ok st
  | None => Unsupported
  end.

(** *** Phase saturation checker *)

Record slots : Type := mkSlots {
  total : jsval;
  used : jsval
}.

Abbreviation phaseSlots := (list (string * slots)).

(** The key [phaseSlots[phase]] is read and written under: the string of
    the phase.  A phase that has no string makes the access throw, outside
    the [try] of the loops.  The model of [phaseSlots] holds its own keys:
    a key that names a member of [Object.prototype] reads as that member
    and is written on it, which is left out of the fragment, as is a
    number beyond 2^53. *)
Definition phase_key (phase : jsval) : res string :=
  k ← to_string_res phase;
  if Dict.inherited k then Unsupported else Ok k.

(** [if (!phaseSlots[phase]) phaseSlots[phase] = { total: 0, used: 0 };
     phaseSlots[phase].total += load] *)
Definition add_total (load : jsval) (ps : phaseSlots) (phase : jsval)
  : res phaseSlots :=
  k ← phase_key phase;
  let s := default (mkSlots (of_nat 0) (of_nat 0)) (Dict.get k ps) in
  Ok (Dict.set k (mkSlots (js_add (total s) load) (used s)) ps).

(** [if (phaseSlots[phase]) phaseSlots[phase].used += duration] *)
Definition add_used (duration : jsval) (ps : phaseSlots) (phase : jsval)
  : res phaseSlots :=
  k ← phase_key phase;
  match Dict.get k ps with
  | Some s =>
      Ok (Dict.set k (mkSlots (total s) (js_add (used s) duration)) ps)
  | None => Ok ps
  end.

(** The body of [workers.forEach]: a worker whose slots do not parse is
    left out; the loop over the parsed slots is outside the [try]. *)
Definition add_worker (worker : row) (ps : phaseSlots) : res phaseSlots :=
  match list_of_field parsed_int (field worker "AvailableSlots") with
  | Throw _ => Ok ps
  | Unsupported => Unsupported
  | Ok slotList =>
      forEach
        (fun phase (_ : nat) ps =>
           add_total (js_or (field worker "MaxLoadPerPhase") (of_nat 1))
                     ps phase)
        slotList ps
  end.

(** The body of [tasks.forEach]. *)
Definition add_task_demand (task : row) (ps : phaseSlots) : res phaseSlots :=
  match list_of_field parsed_int (field task "PreferredPhases") with
  | Throw _ => Ok ps
  | Unsupported => Unsupported
  | Ok phases =>
      forEach
        (fun phase (_ : nat) ps =>
           add_used (js_or (field task "Duration") (of_nat 1)) ps phase)
        phases ps
  end.

(** The table of counters after both loops. *)
Definition phase_table (ws ts : list row) : res phaseSlots :=
  ps ← forEach (fun w (_ : nat) ps => add_worker w ps) ws [];
  forEach (fun t (_ : nat) ps => add_task_demand t ps) ts ps.

Definition saturation_summary (phase : string) (s : slots) : string :=
  "Phase " ++ phase ++ " is oversaturated: " ++ to_string (used s)
  ++ " slots needed, " ++ to_string (total s) ++ " available".

Definition saturation_suggestion (phase : string) : string :=
  "Consider reducing task durations or adding more workers for phase "
  ++ phase.

(** The body of [Object.entries(phaseSlots).forEach]. *)
Definition report_phase (e : string * slots) (st : ValidationResult)
  : res ValidationResult :=
  over ← js_gt (used (snd e)) (total (snd e));
  if (over : bool) then
    Ok (push_suggestion (saturation_suggestion (fst e))
          (push_summary (saturation_summary (fst e) (snd e)) st))
  else Ok st.

Definition checkPhaseSlotSaturation (ws ts : list row)
    (st : ValidationResult) : res ValidationResult :=
  ps ← phase_table ws ts;
  forEach (fun e (_ : nat) st => report_phase e st) (Dict.entries ps) st.

(** *** Capacity feasibility checker *)

Definition checkOverloadedWorkers_row (worker : row) (idx : nat)
    (st : ValidationResult) : res ValidationResult :=
  match list_of_field parsed_int (field worker "AvailableSlots") with
  | Throw _ => Ok st
  | Unsupported => Unsupported
  | Ok availableSlots =>
      let maxLoad := field worker "MaxLoadPerPhase" in
      over ← js_lt (of_nat (length availableSlots))
                   (js_or maxLoad (of_nat 1));
      if (over : bool) then
        Ok (push_summary
              ("workers: Row " ++ row_number idx ++ " worker is overloaded")
              (set_error EWorkers (row_key worker idx) "MaxLoadPerPhase"
                 ("Max load (" ++ to_string maxLoad
                  ++ ") exceeds available slots ("
                  ++ string_of_nat (length availableSlots) ++ ")") st))
      else Ok st
  end.

Definition checkOverloadedWorkers (ws : list row) (st : ValidationResult)
  : res ValidationResult :=
  forEach checkOverloadedWorkers_row ws st.

(** The callback of [workers.filter]: whether a worker has one of the
    skills. *)
Definition is_qualified (skills : list jsval) (worker : row) : res bool :=
  match list_of_field trimmed (field worker "Skills") with
  | Throw _ => Ok false
  | Unsupported => Unsupported
  | Ok workerSkills => Ok (existsb (includes workerSkills) skills)
  end.

(** [workers.filter(...)] for a callback that is a computation. *)
Fixpoint filter_res {A : Type} (f : A → res bool) (l : list A)
  : res (list A) :=
  match l with
  | [] => Ok []
  | a :: r =>
      keep ← f a;
      rest ← filter_res f r;
      Ok (if (keep : bool) then a :: rest else rest)
  end.

Definition checkMaxConcurrencyFeasibility_row (ws : list row) (task : row)
    (idx : nat) (st : ValidationResult) : res ValidationResult :=
  let requiredSkills := field task "RequiredSkills" in
  if negb (truthy requiredSkills) then Ok st
  else
    match list_of_field trimmed requiredSkills with
    | Throw _ => Ok st
    | Unsupported => Unsupported
    | Ok skills =>
        qualifiedWorkers ← filter_res (is_qualified skills) ws;
        let maxConcurrent := field task "MaxConcurrent" in
        short ← js_lt (of_nat (length qualifiedWorkers))
                      (js_or maxConcurrent (of_nat 1));
        if (short : bool) then
          Ok (push_summary
                ("tasks: Row " ++ row_number idx
                 ++ " max concurrency not feasible")
                (set_error ETasks (row_key task idx) "MaxConcurrent"
                   ("Max concurrent (" ++ to_string maxConcurrent
                    ++ ") exceeds qualified workers ("
                    ++ string_of_nat (length qualifiedWorkers) ++ ")") st))
        else Ok st
    end.

Definition checkMaxConcurrencyFeasibility (ws ts : list row)
    (st : ValidationResult) : res ValidationResult :=
  forEach (checkMaxConcurrencyFeasibility_row ws) ts st.

(** *** Cross-reference checker *)

(** The body of [taskList.forEach] in the task-reference pass. *)
Definition check_requested_task (taskIds : list jsval) (client : row)
    (idx : nat) (taskId : jsval) (st : ValidationResult)
  : res ValidationResult :=
  if truthy taskId then
    t ← js_trim taskId;
    if negb (includes taskIds (JStr t)) then
      Ok (push_summary
            ("clients: Row " ++ row_number idx ++ " requests unknown task '"
             ++ to_string taskId ++ "'")
            (set_error EClients (row_key client idx) "RequestedTaskIDs"
               ("Unknown task ID: " ++ to_string taskId) st))
    else Ok st
  else Ok st.

(** The body of [clients.forEach] in the task-reference pass; a list that
    does not parse is left empty. *)
Definition check_task_references_row (taskIds : list jsval) (client : row)
    (idx : nat) (st : ValidationResult) : res ValidationResult :=
  let requestedTasks := field client "RequestedTaskIDs" in
  if truthy requestedTasks then
    taskList ← try_catch (list_of_field JStr requestedTasks) (Ok []);
    forEach (fun taskId (_ : nat) st =>
               check_requested_task taskIds client idx taskId st)
            taskList st
  else Ok st.

Definition check_task_references (cs ts : list row) (st : ValidationResult)
  : res ValidationResult :=
  let taskIds := map (fun t => field t "TaskID") ts in
  forEach (check_task_references_row taskIds) cs st.

(** The callback of [workers.flatMap]. *)
Definition worker_skill_list (w : row) : res (list jsval) :=
  let s := field w "Skills" in
  if negb (truthy s) then Ok []
  else try_catch (list_of_field JStr s) (Ok []).

Fixpoint map_res {A B : Type} (f : A → res B) (l : list A) : res (list B) :=
  match l with
  | [] => Ok []
  | a :: r => b ← f a; rest ← map_res f r; Ok (b :: rest)
  end.

(** [new Set(workers.flatMap(...).map((skill) => skill.trim()))] *)
Definition all_worker_skills (ws : list row) : res (list jsval) :=
  lists ← map_res worker_skill_list ws;
  trimmedSkills ← map_res js_trim (concat lists);
  Ok (map JStr trimmedSkills).

(** The body of [skills.forEach] in the skill-coverage pass.  The message
    is appended to [errors.tasks[key]['RequiredSkills'] || '']: the field
    error grows by one clause for each skill no worker has. *)
Definition check_required_skill (allWorkerSkills : list jsval) (task : row)
    (idx : nat) (skill : jsval) (st : ValidationResult)
  : res ValidationResult :=
  if truthy skill then
    t ← js_trim skill;
    if negb (includes allWorkerSkills (JStr t)) then
      let key := row_key task idx in
      let previous :=
        default EmptyString (get_error ETasks key "RequiredSkills" st) in
      Ok (push_summary
            ("tasks: Row " ++ row_number idx ++ " requires skill '"
             ++ to_string skill ++ "' not found in any worker")
            (set_error ETasks key "RequiredSkills"
               (previous ++ " No worker with skill: " ++ to_string skill)
               st))
    else Ok st
  else Ok st.

Definition check_skill_coverage_row (allWorkerSkills : list jsval)
    (task : row) (idx : nat) (st : ValidationResult)
  : res ValidationResult :=
  let reqSkills := field task "RequiredSkills" in
  if truthy reqSkills then
    skills ← try_catch (list_of_field JStr reqSkills) (Ok []);
    forEach (fun skill (_ : nat) st =>
               check_required_skill allWorkerSkills task idx skill st)
            skills st
  else Ok st.

Definition check_skill_coverage (ws ts : list row) (st : ValidationResult)
  : res ValidationResult :=
  allWorkerSkills ← all_worker_skills ws;
  forEach (check_skill_coverage_row allWorkerSkills) ts st.

(** *** The engine *)

Definition validateAllData (args : ValidateAllDataArgs)
  : res ValidationResult :=
  let cs := clients args in
  let ws := workers args in
  let ts := tasks args in
  let rs := default [] (rules args) in
  st ← checkMissingColumns EClients cs init;
  st ← checkDuplicateIds EClients cs "ClientID" st;
  st ← checkOutOfRange EClients cs "PriorityLevel" 1 5 st;
  st ← checkMalformedLists EClients cs "RequestedTaskIDs" false st;
  st ← checkJSONFormat EClients cs "AttributesJSON" st;
  st ← checkMissingColumns EWorkers ws st;
  st ← checkDuplicateIds EWorkers ws "WorkerID" st;
  st ← checkMalformedLists EWorkers ws "Skills" false st;
  st ← checkMalformedLists EWorkers ws "AvailableSlots" true st;
  st ← checkOutOfRange EWorkers ws "MaxLoadPerPhase" 1 10 st;
  st ← checkOverloadedWorkers ws st;
  st ← checkMissingColumns ETasks ts st;
  st ← checkDuplicateIds ETasks ts "TaskID" st;
  st ← checkMalformedLists ETasks ts "RequiredSkills" false st;
  st ← checkMalformedLists ETasks ts "PreferredPhases" true st;
  st ← checkOutOfRange ETasks ts "Duration" 1 100 st;
  st ← checkOutOfRange ETasks ts "MaxConcurrent" 1 10 st;
  st ← checkMaxConcurrencyFeasibility ws ts st;
  st ← check_task_references cs ts st;
  st ← check_skill_coverage ws ts st;
  st ← checkCircularCoRuns rs st;
  checkPhaseSlotSaturation ws ts st.

End Validation.

(** ** What the specification speaks of *)

Module Spec.
Import JS Validation.

Definition mkrow (l : list (string * cell)) : row := list_to_map l.

Definition coRun (ts : list string) : rule := mkRule "coRun" (Some ts).

(** A rule the graph takes: it has a list of tasks, and a task of the list
    named like a member of [Object.prototype] is the only task of the
    list. *)
Definition rule_taken (r : rule) : Prop :=
  ∃ ts, rule_tasks r = Some ts
        ∧ ∀ t o, t ∈ ts → o ∈ ts → Dict.inherited t = true → o = t.

(** The lines the rule graph checker leaves for a cycle found from [task]. *)
Definition cycle_reported (task : string) (st : ValidationResult)
  : ValidationResult :=
  push_suggestion "Review co-run rules to eliminate circular dependencies"
    (push_summary
       ("Circular co-run dependency detected involving task " ++ task) st).

(** *** Phase saturation, phase by phase *)

(** What one worker offers: its load, [MaxLoadPerPhase || 1], once for each
    phase its [AvailableSlots] list. *)
Definition worker_loads (w : row) : res (list (string * jsval)) :=
  match list_of_field parsed_int (field w "AvailableSlots") with
  | Throw _ => Ok []
  | Unsupported => Unsupported
  | Ok l =>
      map_res (fun p => k ← phase_key p;
                        Ok (k, js_or (field w "MaxLoadPerPhase") (of_nat 1)))
              l
  end.

(** What one task asks for: its [Duration || 1], once for each phase its
    [PreferredPhases] list. *)
Definition task_demands (t : row) : res (list (string * jsval)) :=
  match list_of_field parsed_int (field t "PreferredPhases") with
  | Throw _ => Ok []
  | Unsupported => Unsupported
  | Ok l =>
      map_res (fun p => k ← phase_key p;
                        Ok (k, js_or (field t "Duration") (of_nat 1)))
              l
  end.

Fixpoint gather (f : row → res (list (string * jsval))) (rows : list row)
  : res (list (string * jsval)) :=
  match rows with
  | [] => Ok []
  | r :: rest =>
      l ← f r;
      ls ← gather f rest;
      Ok (l ++ ls)%list
  end.

(** The amounts recorded for the phase [k], in order. *)
Definition amounts (k : string) (l : list (string * jsval)) : list jsval :=
  map snd (filter (fun e => String.eqb (fst e) k) l).

(** Their sum, with the [+] of the source, from 0. *)
Definition sum_for (k : string) (l : list (string * jsval)) : jsval :=
  fold_left js_add (amounts k l) (of_nat 0).

(** The integer a value is, for the values that are integers. *)
Definition int_of (v : jsval) : Z :=
  match v with
  | JNum (Int z) => z
  | _ => 0
  end.

Definition is_int (v : jsval) : Prop := ∃ z, v = JNum (Int z).

(** The amounts recorded for the phase [k], added as integers. *)
Definition amount (k : string) (l : list (string * jsval)) : Z :=
  foldr Z.add 0 (map int_of (amounts k l)).

(** The magnitudes of all the amounts recorded, added: while it is at most
    2^53, every sum of recorded amounts is an exact number. *)
Definition volume (l : list (string * jsval)) : Z :=
  foldr Z.add 0 (map (fun e => Z.abs (int_of (snd e))) l).

(** The summary line of a phase with integer counters. *)
Definition saturation_line (k : string) (needed available : Z) : string :=
  "Phase " ++ k ++ " is oversaturated: " ++ string_of_Z needed
  ++ " slots needed, " ++ string_of_Z available ++ " available".

(** The suggestion that goes with it. *)
Definition saturation_advice (k : string) : string :=
  "Consider reducing task durations or adding more workers for phase " ++ k.

(** The sentence of the specification: every phase whose demand exceeds
    its capacity is reported, whether or not a worker lists it. *)
Definition every_saturated_phase_reported (ws ts : list row) : Prop :=
  ∀ st st' loads demands k,
    checkPhaseSlotSaturation ws ts st = Ok st' →
    gather worker_loads ws = Ok loads →
    gather task_demands ts = Ok demands →
    k ∈ map fst loads ∨ k ∈ map fst demands →
    js_gt (sum_for k demands) (sum_for k loads) = Ok true →
    saturation_summary k (mkSlots (sum_for k loads) (sum_for k demands))
      ∈ summary st'
    ∧ saturation_suggestion k ∈ suggestions st'.

(** One step of each loop of the phase saturation checker, on the key of
    the phase. *)
Definition put_total (ps : phaseSlots) (e : string * jsval) : phaseSlots :=
  let s := default (mkSlots (of_nat 0) (of_nat 0)) (Dict.get (fst e) ps) in
  Dict.set (fst e) (mkSlots (js_add (total s) (snd e)) (used s)) ps.

Definition put_used (ps : phaseSlots) (e : string * jsval) : phaseSlots :=
  match Dict.get (fst e) ps with
  | Some s =>
      Dict.set (fst e) (mkSlots (total s) (js_add (used s) (snd e))) ps
  | None => ps
  end.

(** [slots.used > slots.total] holds. *)
Definition is_over (e : string * slots) : bool :=
  match js_gt (used (snd e)) (total (snd e)) with
  | Ok true => true
  | _ => false
  end.

(** *** The two encodings of a list *)

Definition abc_delimited : string := "a, b, c".

Definition abc_json : string :=
  let q := String dquote EmptyString in
  "[" ++ q ++ "a" ++ q ++ "," ++ q ++ "b" ++ q ++ "," ++ q ++ "c" ++ q ++ "]".

(** *** The flagged states of the capacity checkers *)



(** *** Rows of the examples *)

(** A complete client row whose requested tasks are a JSON array of
    numbers, and the task it names. *)
Definition client_with_numeric_ids : row :=
  mkrow [("id", CStr "C1"); ("ClientID", CStr "C1");
         ("ClientName", CStr "Acme"); ("PriorityLevel", CNum (Int 3));
         ("RequestedTaskIDs", CStr "[1]"); ("GroupTag", CStr "G1");
         ("AttributesJSON", CStr "{}")].

Definition task_one : row :=
  mkrow [("id", CNum (Int 1)); ("TaskID", CNum (Int 1));
         ("TaskName", CStr "Build"); ("Category", CStr "Dev");
         ("Duration", CNum (Int 1)); ("RequiredSkills", CStr "");
         ("PreferredPhases", CStr "1"); ("MaxConcurrent", CNum (Int 1))].

Definition client_priority_zero : row :=
  mkrow [("id", CStr "C1"); ("PriorityLevel", CNum (Int 0))].


Definition worker_phase_one : row :=
  mkrow [("AvailableSlots", CStr "1"); ("MaxLoadPerPhase", CNum (Int 5))].

Definition task_phase_one : row :=
  mkrow [("PreferredPhases", CStr "1"); ("Duration", CNum (Int 7))].



(** The JSON texts of a list whose item has no string, an object with a
    member [toString], and of a list whose item is named like a member of
    [Object.prototype]. *)
Definition unprintable_list : string :=
  let q := String dquote EmptyString in
  "[{" ++ q ++ "toString" ++ q ++ ":1}]".

Definition inherited_list : string :=
  let q := String dquote EmptyString in
  "[" ++ q ++ "constructor" ++ q ++ "]".


End Spec.

(** ** Invariants of the passes *)

Module Invariants.
Import JS Validation.

(** What every pass does to the accumulators: nothing, or it leaves at
    least one line in [summary]. *)
Definition reported (st st' : ValidationResult) : Prop :=
  st' = st ∨ summary st' ≠ [].

(** Writing field errors changes no line of [summary]. *)
Definition same_summary (st st' : ValidationResult) : Prop :=
  summary st' = summary st.

(** The tasks with an adjacency list. *)
Definition key_set (g : graph) : gset string := list_to_set (map fst g).

(** Every neighbour has an adjacency list of its own, or is one of the
    tasks [pending] of the rule being added. *)
Definition closed_upto (pending : list string) (g : graph) : Prop :=
  ∀ k ns n, Dict.get k g = Some ns → n ∈ ns →
            is_Some (Dict.get n g) ∨ n ∈ pending.

(** No adjacency list is lost from [g] to [g']. *)
Definition keys_kept (g g' : graph) : Prop :=
  ∀ n, is_Some (Dict.get n g) → is_Some (Dict.get n g').

(** What a call of the traversal is given, and what it returns, [K] being
    the tasks of the graph. *)
Definition fuelled (K : gset string) (fuel : nat) (d : dfs) : Prop :=
  visited d ⊆ K ∧ (size (K ∖ visited d) < fuel)%nat.

Definition returns (K : gset string) (d : dfs) (r : option (bool * dfs))
  : Prop :=
  ∃ b d', r = Some (b, d') ∧ visited d ⊆ visited d' ∧ visited d' ⊆ K.

(** With a fuel above the bound a call neither depends on the fuel nor
    returns a text as long as the one it was given. *)
Definition value_fuel (f : nat) : Prop :=
  ∀ s f', (2 * String.length s < f)%nat → (2 * String.length s < f')%nat →
    JSON.parse_value f s = JSON.parse_value f' s
    ∧ ∀ v rest, JSON.parse_value f s = Ok (v, rest) →
                (String.length rest < String.length s)%nat.

Definition elements_fuel (f : nat) : Prop :=
  ∀ s f', (2 * String.length s + 1 < f)%nat → (2 * String.length s + 1 < f')%nat →
    JSON.parse_elements f s = JSON.parse_elements f' s
    ∧ ∀ l rest, JSON.parse_elements f s = Ok (l, rest) →
                (String.length rest < String.length s)%nat.

Definition members_fuel (f : nat) : Prop :=
  ∀ s f', (2 * String.length s + 1 < f)%nat → (2 * String.length s + 1 < f')%nat →
    JSON.parse_members f s = JSON.parse_members f' s
    ∧ ∀ l rest, JSON.parse_members f s = Ok (l, rest) →
                (String.length rest < String.length s)%nat.

End Invariants.

(** ** Properties of the accumulators and of the loops *)

Module Facts.
Import JS Validation Invariants.

(** *** The built-in functions on small inputs *)

Example parseInt_samples :
  parseInt " 12px" = Int 12 ∧ parseInt "0x1F" = Int 31
  ∧ parseInt "x" = NaN ∧ parseInt "-7" = Int (-7) ∧ parseInt "" = NaN.
Proof. repeat split. Qed.

Example string_to_number_samples :
  string_to_number " 12 " = Ok (Int 12)
  ∧ string_to_number "" = Ok (Int 0)
  ∧ string_to_number "-3" = Ok (Int (-3))
  ∧ string_to_number "six" = Ok NaN
  ∧ string_to_number "1.5" = Unsupported.
Proof. repeat split. Qed.

Example split_trim_samples :
  split_on "," "a, b,,c" = ["a"; " b"; ""; "c"]
  ∧ split_on "," "" = [""]
  ∧ trim "  a b  " = "a b".
Proof. repeat split. Qed.

Example to_string_samples :
  to_string (JArr [JNum (Int (-5)); JNull; JArr [JStr "x"; JNum (Int 0)]])
  = "-5,,x,0"
  ∧ to_string (JObj []) = "[object Object]"
  ∧ to_string JUndefined = "undefined".
Proof. repeat split. Qed.

Example js_add_samples :
  js_add (of_nat 0) (JStr "3") = JStr "03"
  ∧ js_add (of_nat 2) (of_nat 3) = of_nat 5
  ∧ js_add (of_nat 2) JUndefined = JNum NaN.
Proof. repeat split. Qed.

Example json_parse_samples :
  JSON.parse "[1, -2,null,[true,{}]]"
  = Ok (JArr [JNum (Int 1); JNum (Int (-2)); JNull;
              JArr [JBool true; JObj []]])
  ∧ JSON.parse "[1,2" = Throw SyntaxError
  ∧ JSON.parse "[1,]" = Throw SyntaxError
  ∧ JSON.parse "[01]" = Throw SyntaxError
  ∧ JSON.parse " [ ] " = Ok (JArr [])
  ∧ JSON.parse "[1.5]" = Unsupported.
Proof. repeat split; vm_compute; reflexivity. Qed.

Example json_string_samples :
  JSON.parse (String dquote ("a\u0041\n" ++ String dquote EmptyString))
  = Ok (JStr (String "a" (String "A" (String "010" EmptyString))))
  ∧ JSON.parse (String dquote "abc") = Throw SyntaxError
  ∧ JSON.parse (String dquote ("\x" ++ String dquote EmptyString))
    = Throw SyntaxError.
Proof. repeat split; vm_compute; reflexivity. Qed.

Example entries_order :
  Dict.keys [("b", 1); ("10", 2); ("a", 3); ("2", 4); ("01", 5)]
  = ["2"; "10"; "b"; "a"; "01"].
Proof. vm_compute. reflexivity. Qed.

Lemma bind_Ok {A B : Type} (m : res A) (k : A → res B) (b : B) :
  m ≫= k = Ok b → ∃ a, m = Ok a ∧ k a = Ok b.
Proof. destruct m as [a| |]; simpl; [eauto | discriminate | discriminate]. Qed.

(** Inverts the leading binds of a hypothesis [_ = Ok _]. *)
Ltac inv_bind H :=
  let a := fresh "a" in
  let Ha := fresh "Ha" in
  apply bind_Ok in H; destruct H as (a & Ha & H).

Lemma summary_push_summary msg st :
  summary (push_summary msg st) = (summary st ++ [msg])%list.
Proof. reflexivity. Qed.

Lemma summary_set_error e key f msg st :
  summary (set_error e key f msg st) = summary st.
Proof. reflexivity. Qed.

Lemma summary_push_suggestion msg st :
  summary (push_suggestion msg st) = summary st.
Proof. reflexivity. Qed.

Lemma rows_of_with_rows e r m : rows_of e (with_rows e r m) = r.
Proof. by destruct e. Qed.

Lemma rows_of_with_rows_ne e e' r m :
  e ≠ e' → rows_of e' (with_rows e r m) = rows_of e' m.
Proof. by destruct e, e'. Qed.

Lemma get_error_set_error e key f msg st :
  get_error e key f (set_error e key f msg st) = Some msg.
Proof.
  unfold get_error, set_error; simpl.
  rewrite rows_of_with_rows, lookup_insert_eq; simpl.
  apply lookup_insert_eq.
Qed.

Lemma get_error_push_summary e key f msg st :
  get_error e key f (push_summary msg st) = get_error e key f st.
Proof. reflexivity. Qed.

Lemma get_error_push_suggestion e key f msg st :
  get_error e key f (push_suggestion msg st) = get_error e key f st.
Proof. reflexivity. Qed.

Lemma get_error_init e key f : get_error e key f init = None.
Proof. by destruct e. Qed.

(** A loop keeps every relation between states that is a preorder and that
    its body keeps. *)
Section loops.
Context {A St : Type} (R : St → St → Prop).
Hypothesis R_refl : ∀ s, R s s.
Hypothesis R_trans : ∀ s1 s2 s3, R s1 s2 → R s2 s3 → R s1 s3.

Lemma forEach_from_rel (f : A → nat → St → res St) l i s s' :
  (∀ a j t t', f a j t = Ok t' → R t t') →
  forEach_from f l i s = Ok s' → R s s'.
Proof.
  intros Hf. revert i s.
  induction l as [|a l IH]; intros i s H; simpl in H.
  - injection H as <-. apply R_refl.
  - inv_bind H. eapply R_trans; [eapply Hf | eapply IH]; eauto.
Qed.

Lemma forEach_rel (f : A → nat → St → res St) l s s' :
  (∀ a j t t', f a j t = Ok t' → R t t') →
  forEach f l s = Ok s' → R s s'.
Proof. apply forEach_from_rel. Qed.
End loops.

Lemma reported_refl st : reported st st.
Proof. by left. Qed.

Lemma reported_trans s1 s2 s3 : reported s1 s2 → reported s2 s3 → reported s1 s3.
Proof. intros [->|H1] [->|H2]; unfold reported; auto. Qed.

Lemma same_summary_fold_set_error e key (cols : list string) msg st :
  same_summary st
    (fold_left (fun st col => set_error e key col msg st) cols st).
Proof.
  unfold same_summary. revert st.
  induction cols as [|c cols IH]; intros st; simpl; [done|].
  by rewrite IH.
Qed.

Lemma same_summary_trans s1 s2 s3 :
  same_summary s1 s2 → same_summary s2 s3 → same_summary s1 s3.
Proof. unfold same_summary. congruence. Qed.

(** Case analysis on the condition of the conditional in [H]. *)
Ltac case_if H :=
  match type of H with
  | context [if ?b then _ else _] => destruct b
  end.

(** Closes a goal [reported st st'] about a state built with the three
    writers. *)
Ltac reported_tac :=
  solve [ apply reported_refl
        | right; simpl; match goal with
                        | |- (?l ++ [_])%list ≠ [] => by destruct l
                        end ].

Lemma checkMissingColumns_reported e rows st st' :
  checkMissingColumns e rows st = Ok st' → reported st st'.
Proof.
  unfold checkMissingColumns. destruct rows as [|row0 rows]; intros H.
  - injection H as <-. reported_tac.
  - destruct (filter _ _) as [|c cols] eqn:Hm.
    + injection H as <-. reported_tac.
    + apply (forEach_rel same_summary) in H.
      * right. rewrite H. simpl. by destruct (summary st).
      * done.
      * apply same_summary_trans.
      * intros a j t t' [= <-].
        exact (same_summary_fold_set_error e (row_key a j) (c :: cols) _ t).
Qed.

Lemma checkDuplicateIds_reported e rows idField st st' :
  checkDuplicateIds e rows idField st = Ok st' → reported st st'.
Proof.
  unfold checkDuplicateIds.
  apply forEach_rel; [apply reported_refl | apply reported_trans |].
  intros [id indices] j t t' H.
  destruct (1 <? length indices)%nat.
  - apply (forEach_rel same_summary) in H.
    + right. rewrite H. simpl. by destruct (summary t).
    + done.
    + apply same_summary_trans.
    + intros idx k u u' Hu. destruct (rows !! idx); [|discriminate].
      by injection Hu as <-.
  - injection H as <-. reported_tac.
Qed.

Lemma checkMalformedLists_reported e rows f numeric st st' :
  checkMalformedLists e rows f numeric st = Ok st' → reported st st'.
Proof.
  apply forEach_rel; [apply reported_refl | apply reported_trans |].
  intros r j t t' H. unfold checkMalformedLists_row in H.
  destruct (negb _); [injection H as <-; reported_tac|].
  destruct (list_of_field _ _) as [l| |]; [| |discriminate].
  - destruct numeric; [|injection H as <-; reported_tac].
    destruct (negb (forallb _ _)); [discriminate|].
    destruct (filter _ l); injection H as <-; reported_tac.
  - injection H as <-; reported_tac.
Qed.

Lemma checkOutOfRange_reported e rows f lo hi st st' :
  checkOutOfRange e rows f lo hi st = Ok st' → reported st st'.
Proof.
  apply forEach_rel; [apply reported_refl | apply reported_trans |].
  intros r j t t' H. unfold checkOutOfRange_row in H.
  destruct (is_blank _); [injection H as <-; reported_tac|].
  inv_bind H. destruct (out_of_range _ _ _); injection H as <-; reported_tac.
Qed.

Lemma checkJSONFormat_reported e rows f st st' :
  checkJSONFormat e rows f st = Ok st' → reported st st'.
Proof.
  apply forEach_rel; [apply reported_refl | apply reported_trans |].
  intros r j t t' H. unfold checkJSONFormat_row in H.
  destruct (negb _); [injection H as <-; reported_tac|].
  destruct (JSON.parse_val _); [| |discriminate];
    injection H as <-; reported_tac.
Qed.

Lemma checkOverloadedWorkers_reported ws st st' :
  checkOverloadedWorkers ws st = Ok st' → reported st st'.
Proof.
  apply forEach_rel; [apply reported_refl | apply reported_trans |].
  intros r j t t' H. unfold checkOverloadedWorkers_row in H.
  destruct (list_of_field _ _); [| |discriminate].
  - inv_bind H. case_if H; injection H as <-; reported_tac.
  - injection H as <-; reported_tac.
Qed.

Lemma checkMaxConcurrencyFeasibility_reported ws ts st st' :
  checkMaxConcurrencyFeasibility ws ts st = Ok st' → reported st st'.
Proof.
  apply forEach_rel; [apply reported_refl | apply reported_trans |].
  intros r j t t' H. unfold checkMaxConcurrencyFeasibility_row in H.
  destruct (negb _); [injection H as <-; reported_tac|].
  destruct (list_of_field _ _); [| |discriminate].
  - inv_bind H. inv_bind H. case_if H; injection H as <-; reported_tac.
  - injection H as <-; reported_tac.
Qed.

Lemma check_task_references_reported cs ts st st' :
  check_task_references cs ts st = Ok st' → reported st st'.
Proof.
  apply forEach_rel; [apply reported_refl | apply reported_trans |].
  intros r j t t' H. unfold check_task_references_row in H.
  destruct (truthy _); [|injection H as <-; reported_tac].
  inv_bind H. revert H.
  apply forEach_rel; [apply reported_refl | apply reported_trans |].
  intros v k u u' H. unfold check_requested_task in H.
  destruct (truthy v); [|injection H as <-; reported_tac].
  inv_bind H. destruct (negb _); injection H as <-; reported_tac.
Qed.

Lemma check_skill_coverage_reported ws ts st st' :
  check_skill_coverage ws ts st = Ok st' → reported st st'.
Proof.
  unfold check_skill_coverage. intros H. inv_bind H. revert H.
  apply forEach_rel; [apply reported_refl | apply reported_trans |].
  intros r j t t' H. unfold check_skill_coverage_row in H.
  destruct (truthy _); [|injection H as <-; reported_tac].
  inv_bind H. revert H.
  apply forEach_rel; [apply reported_refl | apply reported_trans |].
  intros v k u u' H. unfold check_required_skill in H.
  destruct (truthy v); [|injection H as <-; reported_tac].
  inv_bind H. destruct (negb _); injection H as <-; reported_tac.
Qed.

Lemma checkCircularCoRuns_reported rs st st' :
  checkCircularCoRuns rs st = Ok st' → reported st st'.
Proof.
  unfold checkCircularCoRuns. intros H. inv_bind H.
  destruct (find_cycle _ _ _ _) as [[task|]|]; [| |discriminate];
    injection H as <-; reported_tac.
Qed.

Lemma checkPhaseSlotSaturation_reported ws ts st st' :
  checkPhaseSlotSaturation ws ts st = Ok st' → reported st st'.
Proof.
  unfold checkPhaseSlotSaturation. intros H. inv_bind H. revert H.
  apply forEach_rel; [apply reported_refl | apply reported_trans |].
  intros r j t t' H. unfold report_phase in H.
  inv_bind H. case_if H; injection H as <-; reported_tac.
Qed.

(** *** Computations that do not throw *)

Lemma bind_no_throw {A B : Type} (m : res A) (k : A → res B) e :
  m ≠ Throw e → (∀ a, k a ≠ Throw e) → m ≫= k ≠ Throw e.
Proof.
  destruct m as [a|e'|]; simpl; [auto | | done].
  intros Hm _ [= ->]. by apply Hm.
Qed.

Lemma forEach_from_no_throw {A St : Type} (f : A → nat → St → res St) e l :
  (∀ a j t, f a j t ≠ Throw e) → ∀ i s, forEach_from f l i s ≠ Throw e.
Proof.
  intros Hf. induction l as [|a l IH]; intros i s; simpl; [done|].
  apply bind_no_throw; auto.
Qed.

Lemma string_to_number_no_throw s e : string_to_number s ≠ Throw e.
Proof.
  unfold string_to_number, exact. destruct (trim s) as [|c r]; [done|].
  repeat (case_match; try done).
Qed.

Lemma to_number_no_throw v e : to_number v ≠ Throw e.
Proof.
  unfold to_number. destruct (to_primitive v); try done.
  apply string_to_number_no_throw.
Qed.

Lemma js_lt_no_throw a b e : js_lt a b ≠ Throw e.
Proof.
  unfold js_lt.
  destruct (to_primitive a) as [| | | |x| |] eqn:Ha;
    try (apply bind_no_throw; [apply to_number_no_throw|]; intros na;
         apply bind_no_throw; [apply to_number_no_throw | done]).
  destruct (to_primitive b); try done;
    apply bind_no_throw; try apply to_number_no_throw; intros na;
    apply bind_no_throw; try apply to_number_no_throw; done.
Qed.

(** *** A text that starts with a bracket parses to an array *)

Lemma json_space_js_space c : is_json_space c = true → is_js_space c = true.
Proof.
  destruct c as [[] [] [] [] [] [] [] []]; vm_compute; congruence.
Qed.

Lemma skip_ws_head s c r :
  JSON.skip_ws s = String c r → is_json_space c = false.
Proof.
  induction s as [|a s IH]; simpl; [discriminate|].
  destruct (is_json_space a) eqn:Ha; [done|]. by intros [= <- _].
Qed.

Lemma trim_end_head c r :
  is_js_space c = false → ∃ r', trim_end (String c r) = String c r'.
Proof. intros H. simpl. rewrite H. destruct (trim_end r); eauto. Qed.

Lemma skip_ws_trim s c r :
  JSON.skip_ws s = String c r →
  starts_with_bracket (trim s) = true →
  c = "["%char ∨ is_js_space c = true.
Proof.
  unfold trim. induction s as [|a s IH]; simpl; [discriminate|].
  destruct (is_json_space a) eqn:Ha.
  - rewrite (json_space_js_space _ Ha). apply IH.
  - intros [= <- <-] Hb.
    destruct (is_js_space a) eqn:Hs; [by right|]. left.
    destruct (trim_end_head a s Hs) as [r' Hr]. rewrite Hr in Hb.
    by apply Ascii.eqb_eq in Hb.
Qed.

Lemma parse_bracket_array s v :
  starts_with_bracket (trim s) = true →
  JSON.parse s = Ok v → ∃ l, v = JArr l.
Proof.
  intros Hb H. unfold JSON.parse in H.
  replace (2 * String.length s + 2)%nat
    with (S (2 * String.length s + 1)) in H by lia.
  set (f := (2 * String.length s + 1)%nat) in H. clearbody f.
  apply bind_Ok in H as ([v' rest] & Hv & H).
  assert (v' = v) as ->.
  { simpl in H. destruct (JSON.skip_ws rest); [by injection H | discriminate]. }
  clear H. simpl in Hv.
  destruct (JSON.skip_ws s) as [|c r] eqn:E; [discriminate|].
  pose proof (skip_ws_head _ _ _ E) as Hj.
  destruct (skip_ws_trim _ _ _ E Hb) as [-> | Hc].
  - simpl in Hv. destruct (JSON.starts_with _ _).
    + injection Hv as <- _. eauto.
    + apply bind_Ok in Hv as ([l rest'] & _ & Hv). injection Hv as <- _. eauto.
  - destruct c as [[] [] [] [] [] [] [] []]; try discriminate Hc;
      try discriminate Hj; discriminate Hv.
Qed.

(** The case of [list_of_field] for a parsed value that is no array is
    never met. *)
Lemma list_of_field_unsupported post v :
  list_of_field post v = Unsupported →
  ∃ s, v = JStr s ∧ JSON.parse s = Unsupported.
Proof.
  unfold list_of_field. destruct v as [| | | |s| |]; try discriminate.
  destruct (starts_with_bracket (trim s)) eqn:Hb; [|discriminate].
  destruct (JSON.parse s) as [v| |] eqn:Hp; simpl; [|discriminate|eauto].
  destruct (parse_bracket_array _ _ Hb Hp) as [l ->]. discriminate.
Qed.

End Facts.

(** ** The parser never runs out of fuel *)

Module JSONFacts.
Import JS JSON Invariants Facts.

Local Open Scope nat_scope.

Lemma skip_ws_length s : String.length (skip_ws s) ≤ String.length s.
Proof.
  induction s as [|c s IH]; simpl; [done|].
  destruct (is_json_space c); simpl; lia.
Qed.

Lemma starts_with_tail c s :
  starts_with c s = true → S (String.length (tail s)) = String.length s.
Proof. by destruct s. Qed.

Lemma tail_length s : String.length (tail s) ≤ String.length s.
Proof. destruct s; simpl; lia. Qed.

Lemma strip_prefix_length w : ∀ s r,
  strip_prefix w s = Some r →
  String.length r + String.length w = String.length s.
Proof.
  induction w as [|a w IH]; intros s r H; simpl in *.
  - injection H as <-. lia.
  - destruct s as [|b s]; [discriminate|].
    destruct (Ascii.eqb a b); [|discriminate].
    apply IH in H. simpl. lia.
Qed.

Lemma expect_word_length w v s v' rest :
  0 < String.length w →
  expect_word w v s = Ok (v', rest) → String.length rest < String.length s.
Proof.
  unfold expect_word. intros Hw H.
  destruct (strip_prefix w s) as [r|] eqn:Hr; [|discriminate].
  injection H as _ <-. apply strip_prefix_length in Hr. lia.
Qed.

Lemma take_digits_length s : ∀ ds rest,
  take_digits s = (ds, rest) →
  String.length ds + String.length rest = String.length s.
Proof.
  induction s as [|c s IH]; intros ds rest H; simpl in H.
  - by injection H as <- <-.
  - destruct (is_digit c).
    + destruct (take_digits s) as [d r]. injection H as <- <-.
      simpl. by rewrite (IH d r).
    + by injection H as <- <-.
Qed.

Lemma parse_number_length s v rest :
  parse_number s = Ok (v, rest) → String.length rest < String.length s.
Proof.
  unfold parse_number. intros H.
  destruct (take_digits _) as [ds r] eqn:Hd.
  apply take_digits_length in Hd.
  destruct (String.eqb_spec ds EmptyString) as [->|Hne]; [discriminate|].
  destruct (_ && _); [discriminate|].
  destruct (_ || _); [discriminate|].
  destruct (safe_int _); [|discriminate]. injection H as _ <-.
  assert (0 < String.length ds) by (destruct ds; [done | simpl; lia]).
  destruct (starts_with "-" s); [pose proof (tail_length s)|]; lia.
Qed.

Lemma parse_string_body_length n : ∀ s str rest,
  String.length s ≤ n →
  parse_string_body s = Ok (str, rest) →
  String.length rest < String.length s.
Proof.
  induction n as [|n IH]; intros s str rest Hn H;
    destruct s as [|c r]; simpl in *; try discriminate; [lia|].
  destruct (Ascii.eqb c dquote); [injection H as _ <-; lia|].
  destruct (Ascii.eqb c "\").
  - destruct r as [|e r1]; [discriminate|].
    destruct (Ascii.eqb e "u").
    + destruct r1 as [|h1 [|h2 [|h3 [|h4 r']]]]; try discriminate.
      destruct (hex4 h1 h2 h3 h4) as [code|]; [|discriminate].
      destruct (code <? 256)%Z; [|discriminate].
      apply bind_Ok in H as ([str' rest'] & H1 & H). injection H as _ <-.
      apply IH in H1; simpl in *; lia.
    + destruct (escape_char e); [|discriminate].
      apply bind_Ok in H as ([str' rest'] & H1 & H). injection H as _ <-.
      apply IH in H1; simpl in *; lia.
  - destruct (nat_of_ascii c <? 32); [discriminate|].
    apply bind_Ok in H as ([str' rest'] & H1 & H). injection H as _ <-.
    apply IH in H1; simpl in *; lia.
Qed.

Lemma value_fuel_step f : elements_fuel f → members_fuel f → value_fuel (S f).
Proof.
  intros IHe IHm s [|f'] Hf Hf'; [lia|]. simpl.
  pose proof (skip_ws_length s) as Hs.
  destruct (skip_ws s) as [|c r] eqn:E; [by split|]. simpl in Hs.
  pose proof (skip_ws_length r) as Hr.
  destruct (Ascii.eqb c "[").
  { destruct (starts_with "]" (skip_ws r)) eqn:Hc.
    - split; [done|]. intros v rest [= <- <-].
      apply starts_with_tail in Hc. lia.
    - destruct (IHe r f') as [Heq Hlen]; [lia | lia |]. rewrite <- Heq.
      split; [done|]. intros v rest H.
      apply bind_Ok in H as ([l rest'] & H1 & H). injection H as _ <-.
      apply Hlen in H1. lia. }
  destruct (Ascii.eqb c "{").
  { destruct (starts_with "}" (skip_ws r)) eqn:Hc.
    - split; [done|]. intros v rest [= <- <-].
      apply starts_with_tail in Hc. lia.
    - destruct (IHm r f') as [Heq Hlen]; [lia | lia |]. rewrite <- Heq.
      split; [done|]. intros v rest H.
      apply bind_Ok in H as ([l rest'] & H1 & H). injection H as _ <-.
      apply Hlen in H1. lia. }
  destruct (Ascii.eqb c dquote).
  { split; [done|]. intros v rest H.
    apply bind_Ok in H as ([str rest'] & H1 & H). injection H as _ <-.
    apply (parse_string_body_length _ _ _ _ (Nat.le_refl _)) in H1. lia. }
  destruct (Ascii.eqb c "t").
  { split; [done|]. intros v rest H.
    apply expect_word_length in H; simpl in *; lia. }
  destruct (Ascii.eqb c "f").
  { split; [done|]. intros v rest H.
    apply expect_word_length in H; simpl in *; lia. }
  destruct (Ascii.eqb c "n").
  { split; [done|]. intros v rest H.
    apply expect_word_length in H; simpl in *; lia. }
  split; [done|]. intros v rest H.
  apply parse_number_length in H. simpl in *. lia.
Qed.

Lemma elements_fuel_step f : value_fuel f → elements_fuel f → elements_fuel (S f).
Proof.
  intros IHv IHe s [|f'] Hf Hf'; [lia|]. simpl.
  destruct (IHv s f') as [Heq Hlen]; [lia | lia |]. rewrite <- Heq.
  destruct (parse_value f s) as [[v r]| |] eqn:Hv; simpl; [|by split|by split].
  specialize (Hlen _ _ eq_refl).
  pose proof (skip_ws_length r) as Hr.
  destruct (starts_with "," (skip_ws r)) eqn:Hc.
  - apply starts_with_tail in Hc.
    destruct (IHe (tail (skip_ws r)) f') as [Heq2 Hlen2]; [lia | lia |].
    rewrite <- Heq2. split; [done|]. intros l rest H.
    apply bind_Ok in H as ([l' rest'] & H1 & H). injection H as _ <-.
    apply Hlen2 in H1. lia.
  - destruct (starts_with "]" (skip_ws r)) eqn:Hc'; [|by split].
    split; [done|]. intros l rest [= _ <-].
    apply starts_with_tail in Hc'. lia.
Qed.

Lemma members_fuel_step f : value_fuel f → members_fuel f → members_fuel (S f).
Proof.
  intros IHv IHm s [|f'] Hf Hf'; [lia|]. simpl.
  pose proof (skip_ws_length s) as Hs.
  destruct (starts_with dquote (skip_ws s)) eqn:Hq; [|by split].
  apply starts_with_tail in Hq.
  destruct (parse_string_body (tail (skip_ws s))) as [[k r1]| |] eqn:Hk;
    simpl; [|by split|by split].
  apply (parse_string_body_length _ _ _ _ (Nat.le_refl _)) in Hk.
  pose proof (skip_ws_length r1) as Hr1.
  destruct (starts_with ":" (skip_ws r1)) eqn:Hc; [|by split].
  apply starts_with_tail in Hc.
  destruct (IHv (tail (skip_ws r1)) f') as [Heq Hlen]; [lia | lia |].
  rewrite <- Heq.
  destruct (parse_value f (tail (skip_ws r1))) as [[v r3]| |] eqn:Hv;
    simpl; [|by split|by split].
  specialize (Hlen _ _ eq_refl).
  pose proof (skip_ws_length r3) as Hr3.
  destruct (starts_with "," (skip_ws r3)) eqn:Hc3.
  - apply starts_with_tail in Hc3.
    destruct (IHm (tail (skip_ws r3)) f') as [Heq2 Hlen2]; [lia | lia |].
    rewrite <- Heq2. split; [done|]. intros l rest H.
    apply bind_Ok in H as ([l' rest'] & H1 & H). injection H as _ <-.
    apply Hlen2 in H1. lia.
  - destruct (starts_with "}" (skip_ws r3)) eqn:Hc'; [|by split].
    split; [done|]. intros l rest [= _ <-].
    apply starts_with_tail in Hc'. lia.
Qed.

Lemma parser_fuel f : value_fuel f ∧ elements_fuel f ∧ members_fuel f.
Proof.
  induction f as [|f (IHv & IHe & IHm)].
  - split; [|split]; intros s f' H; lia.
  - split; [by apply value_fuel_step|].
    split; [by apply elements_fuel_step | by apply members_fuel_step].
Qed.

(** The fuel [JSON.parse] gives is enough: more fuel gives the same
    answer. *)
Lemma parse_value_fuel s f :
  2 * String.length s < f →
  parse_value f s = parse_value (2 * String.length s + 2) s.
Proof.
  intros Hf. destruct (parser_fuel f) as [Hv _].
  apply (Hv s (2 * String.length s + 2)); lia.
Qed.

End JSONFacts.

(** ** Properties of the passes and of a run *)

Module EngineFacts.
Import JS Validation Spec Invariants Facts.

(** C1.  For the three coRun rules with task sets T1,T2 / T2,T3 / T3,T1 the
    cycle check appends the circular-dependency line for T1 and the
    suggestion.  For the two disjoint coRun rules T1,T2 and T3,T4 the
    source appends the same line and the same suggestion: the traversal
    walks from T1 to T2 and back along the edge it came by, and takes that
    for a cycle. *)
Theorem cycle_check_flags_disjoint_pairs (st : ValidationResult) :
  checkCircularCoRuns
    [coRun ["T1"; "T2"]; coRun ["T2"; "T3"]; coRun ["T3"; "T1"]] st
  = Ok (cycle_reported "T1" st)
  ∧ checkCircularCoRuns [coRun ["T1"; "T2"]; coRun ["T3"; "T4"]] st
    = Ok (cycle_reported "T1" st).
Proof. split; vm_compute; reflexivity. Qed.

(** A numeric list with a token that is no number: the token is named. *)
Example non_numeric_slot_named :
  ∃ st,
    checkMalformedLists EWorkers [mkrow [("AvailableSlots", CStr "1,2,x")]]
      "AvailableSlots" true init = Ok st
    ∧ get_error EWorkers "0" "AvailableSlots" st
      = Some "Non-numeric values: x"
    ∧ summary st
      = ["workers: Row 1 has non-numeric values in AvailableSlots: x"].
Proof. eexists. repeat split; vm_compute; reflexivity. Qed.

(** A required skill no worker lists gives one message naming it. *)
Example missing_skill_named :
  ∃ st,
    check_skill_coverage [mkrow [("Skills", CStr "Painting")]]
      [mkrow [("RequiredSkills", CStr "Welding")]] init = Ok st
    ∧ summary st
      = ["tasks: Row 1 requires skill 'Welding' not found in any worker"].
Proof. eexists. repeat split; vm_compute; reflexivity. Qed.

(** The sibling pass of the task-reference pass: for a task that requires
    two skills no worker has, the field error holds a clause for each. *)
Lemma skill_coverage_error_accumulates :
  ∃ st,
    check_skill_coverage [] [mkrow [("RequiredSkills", CStr "S1,S2")]] init
    = Ok st
    ∧ summary st
      = ["tasks: Row 1 requires skill 'S1' not found in any worker";
         "tasks: Row 1 requires skill 'S2' not found in any worker"]
    ∧ get_error ETasks "0" "RequiredSkills" st
      = Some " No worker with skill: S1 No worker with skill: S2".
Proof. eexists. repeat split; vm_compute; reflexivity. Qed.

(** Whatever the field error held before, an unknown task leaves its own
    message there, alone. *)
Lemma task_reference_overwrites taskIds client idx taskId t st :
  truthy taskId = true →
  js_trim taskId = Ok t →
  includes taskIds (JStr t) = false →
  ∃ st',
    check_requested_task taskIds client idx taskId st = Ok st'
    ∧ get_error EClients (row_key client idx) "RequestedTaskIDs" st'
      = Some ("Unknown task ID: " ++ to_string taskId).
Proof.
  intros Ht Htrim Hin. unfold check_requested_task.
  rewrite Ht, Htrim. simpl. rewrite Hin. simpl.
  eexists. split; [reflexivity|].
  rewrite get_error_push_summary. apply get_error_set_error.
Qed.

(** C3.  The task-reference pass on a client that requests the two unknown
    tasks T1 and T2 appends one summary line for each, and leaves in the
    field error of the row the message of the last one only: each message
    is assigned over the one before. *)
Theorem task_reference_error_keeps_last_only :
  ∃ st,
    check_task_references [mkrow [("RequestedTaskIDs", CStr "T1,T2")]] []
      init = Ok st
    ∧ summary st
      = ["clients: Row 1 requests unknown task 'T1'";
         "clients: Row 1 requests unknown task 'T2'"]
    ∧ get_error EClients "0" "RequestedTaskIDs" st
      = Some "Unknown task ID: T2".
Proof. eexists. repeat split; vm_compute; reflexivity. Qed.

(** C4.  On rows of strings and numbers and with no rule at all,
    [validateAllData] throws: the requested task 1 of the JSON array is a
    number, and [taskId.trim()] is called on it outside every try block. *)
Theorem validateAllData_throws_on_numeric_task_id :
  validateAllData (mkArgs [client_with_numeric_ids] [] [task_one] None)
  = Throw TypeError.
Proof. vm_compute. reflexivity. Qed.

(** The skill-coverage pass throws in the same way on a worker whose
    skills are a JSON array of numbers. *)
Lemma skill_coverage_throws_on_numeric_skill :
  check_skill_coverage [mkrow [("Skills", CStr "[7]")]] [] init
  = Throw TypeError.
Proof. vm_compute. reflexivity. Qed.

(** Every pass of a run leaves the accumulators as they were or leaves a
    line in [summary]. *)
Lemma validateAllData_reported args r :
  validateAllData args = Ok r → reported init r.
Proof.
  unfold validateAllData. intros H.
  do 21 (let st := fresh "st" in
         let Hst := fresh "Hst" in
         apply bind_Ok in H; destruct H as (st & Hst & H)).
  repeat match goal with
         | H : checkMissingColumns _ _ _ = Ok _ |- _ =>
             apply checkMissingColumns_reported in H
         | H : checkDuplicateIds _ _ _ _ = Ok _ |- _ =>
             apply checkDuplicateIds_reported in H
         | H : checkOutOfRange _ _ _ _ _ _ = Ok _ |- _ =>
             apply checkOutOfRange_reported in H
         | H : checkMalformedLists _ _ _ _ _ = Ok _ |- _ =>
             apply checkMalformedLists_reported in H
         | H : checkJSONFormat _ _ _ _ = Ok _ |- _ =>
             apply checkJSONFormat_reported in H
         | H : checkOverloadedWorkers _ _ = Ok _ |- _ =>
             apply checkOverloadedWorkers_reported in H
         | H : checkMaxConcurrencyFeasibility _ _ _ = Ok _ |- _ =>
             apply checkMaxConcurrencyFeasibility_reported in H
         | H : check_task_references _ _ _ = Ok _ |- _ =>
             apply check_task_references_reported in H
         | H : check_skill_coverage _ _ _ = Ok _ |- _ =>
             apply check_skill_coverage_reported in H
         | H : checkCircularCoRuns _ _ = Ok _ |- _ =>
             apply checkCircularCoRuns_reported in H
         | H : checkPhaseSlotSaturation _ _ _ = Ok _ |- _ =>
             apply checkPhaseSlotSaturation_reported in H
         end.
  repeat match goal with
         | H1 : reported ?a ?b, H2 : reported ?b ?c |- _ =>
             pose proof (reported_trans _ _ _ H1 H2); clear H1 H2
         end.
  assumption.
Qed.

(** C5.  Whenever the result of a run holds a field error
    [errors[entity][rowId][field]], its [summary] holds at least one
    message. *)
Theorem field_error_has_summary_line args r e rowId f msg :
  validateAllData args = Ok r →
  get_error e rowId f r = Some msg →
  summary r ≠ [].
Proof.
  intros Hrun Herr.
  destruct (validateAllData_reported _ _ Hrun) as [-> | Hs]; [|done].
  by rewrite get_error_init in Herr.
Qed.

Lemma field_error_has_summary_line_witness :
  ∃ r, validateAllData (mkArgs [client_priority_zero] [] [] None) = Ok r
       ∧ summary r ≠ [].
Proof.
  eexists. split; [vm_compute; reflexivity|].
  eapply (field_error_has_summary_line
            (mkArgs [client_priority_zero] [] [] None) _
            EClients "C1" "PriorityLevel").
  - vm_compute. reflexivity.
  - vm_compute. reflexivity.
Defined.

Lemma abc_delimited_list :
  list_of_field trimmed (JStr abc_delimited) = Ok [JStr "a"; JStr "b"; JStr "c"].
Proof. vm_compute. reflexivity. Qed.

Lemma abc_json_list :
  list_of_field trimmed (JStr abc_json) = Ok [JStr "a"; JStr "b"; JStr "c"].
Proof. vm_compute. reflexivity. Qed.

Lemma field_insert (r : row) f c : field (<[f := c]> r) f = cell_val c.
Proof. unfold field. by rewrite lookup_insert_eq. Qed.

Lemma field_insert_ne (r : row) f g c :
  f ≠ g → field (<[f := c]> r) g = field r g.
Proof. intros H. unfold field. by rewrite lookup_insert_ne. Qed.

Lemma row_key_insert (r : row) f c idx :
  f ≠ "id" → row_key (<[f := c]> r) idx = row_key r idx.
Proof. intros H. unfold row_key. by rewrite field_insert_ne. Qed.

Lemma forEach_from_app {A St : Type} (f : A → nat → St → res St) l1 l2 i s :
  forEach_from f (l1 ++ l2) i s
  = forEach_from f l1 i s ≫= forEach_from f l2 (i + length l1).
Proof.
  revert i s. induction l1 as [|a l1 IH]; intros i s; simpl.
  - by rewrite Nat.add_0_r.
  - destruct (f a i s) as [s'| |]; simpl; [|done|done].
    rewrite IH. by replace (S i + length l1)%nat with (i + S (length l1))%nat by lia.
Qed.

(** C7.  The comma-separated text a, b, c and the JSON array of the strings
    a, b and c normalize to the same sequence of three strings, and the
    list/format checker leaves the same errors and the same summary for a
    row whichever of the two its list field holds, wherever the row stands
    among the rows. *)
Theorem list_encodings_agree (entity : Entity) (f : string) (numeric : bool)
    (before after : list row) (r : row) (st : ValidationResult) :
  f ≠ "id" →
  list_of_field trimmed (JStr abc_delimited)
  = Ok [JStr "a"; JStr "b"; JStr "c"]
  ∧ list_of_field trimmed (JStr abc_json)
    = Ok [JStr "a"; JStr "b"; JStr "c"]
  ∧ checkMalformedLists entity
      (before ++ <[f := CStr abc_delimited]> r :: after) f numeric st
    = checkMalformedLists entity
        (before ++ <[f := CStr abc_json]> r :: after) f numeric st.
Proof.
  intros Hf. split; [apply abc_delimited_list|].
  split; [apply abc_json_list|].
  unfold checkMalformedLists, forEach. rewrite !forEach_from_app.
  destruct (forEach_from _ before 0 st) as [s| |]; simpl; [|done|done].
  replace (checkMalformedLists_row entity f numeric
             (<[f := CStr abc_delimited]> r) (0 + length before) s)
    with (checkMalformedLists_row entity f numeric
            (<[f := CStr abc_json]> r) (0 + length before) s); [done|].
  unfold checkMalformedLists_row.
  rewrite !field_insert, !row_key_insert by done. simpl cell_val.
  rewrite abc_delimited_list, abc_json_list. reflexivity.
Qed.

Lemma list_encodings_agree_witness :
  checkMalformedLists EWorkers
    [<["AvailableSlots" := CStr abc_delimited]> (mkrow [("id", CStr "W1")])]
    "AvailableSlots" true init
  = checkMalformedLists EWorkers
      [<["AvailableSlots" := CStr abc_json]> (mkrow [("id", CStr "W1")])]
      "AvailableSlots" true init.
Proof.
  apply (list_encodings_agree EWorkers "AvailableSlots" true [] []
           (mkrow [("id", CStr "W1")]) init).
  discriminate.
Defined.



End EngineFacts.

(** ** The phase saturation checker, phase by phase *)

Module PhaseFacts.
Import JS Validation Spec Facts.

Lemma get_set {V : Type} k k' (v : V) o :
  Dict.get k' (Dict.set k v o)
  = if String.eqb k k' then Some v else Dict.get k' o.
Proof.
  induction o as [|[k0 v0] o IH]; simpl; [done|].
  destruct (String.eqb_spec k0 k) as [->|Hne]; simpl.
  - by destruct (String.eqb_spec k k').
  - rewrite IH.
    destruct (String.eqb_spec k0 k') as [->|]; [|done].
    by destruct (String.eqb_spec k k').
Qed.

Lemma get_set_eq {V : Type} k (v : V) o : Dict.get k (Dict.set k v o) = Some v.
Proof. by rewrite get_set, String.eqb_refl. Qed.

Lemma get_set_ne {V : Type} k k' (v : V) o :
  k ≠ k' → Dict.get k' (Dict.set k v o) = Dict.get k' o.
Proof. intros H. rewrite get_set. by destruct (String.eqb_spec k k'). Qed.

Lemma set_keys {V : Type} k (v : V) o :
  map fst (Dict.set k v o)
  = match Dict.get k o with
    | Some _ => map fst o
    | None => (map fst o ++ [k])%list
    end.
Proof.
  induction o as [|[k0 v0] o IH]; simpl; [done|].
  destruct (String.eqb_spec k0 k) as [->|Hne]; simpl; [done|].
  rewrite IH. by destruct (Dict.get k o).
Qed.

Lemma get_None_keys {V : Type} k (o : list (string * V)) :
  Dict.get k o = None ↔ k ∉ map fst o.
Proof.
  induction o as [|[k0 v0] o IH]; simpl.
  - split; [intros _; apply not_elem_of_nil | done].
  - rewrite not_elem_of_cons.
    destruct (String.eqb_spec k0 k) as [->|Hne]; split; intros H;
      try done; try tauto.
    + split; [congruence | tauto].
Qed.

Lemma get_Some_elem {V : Type} k (v : V) o :
  Dict.get k o = Some v → (k, v) ∈ o.
Proof.
  induction o as [|[k0 v0] o IH]; simpl; [done|].
  destruct (String.eqb_spec k0 k) as [->|Hne].
  - intros [= ->]. apply list_elem_of_here.
  - intros H. apply list_elem_of_further. auto.
Qed.

Lemma elem_get_Some {V : Type} k (v : V) o :
  NoDup (map fst o) → (k, v) ∈ o → Dict.get k o = Some v.
Proof.
  induction o as [|[k0 v0] o IH]; simpl; intros Hnd Hin.
  - by apply elem_of_nil in Hin.
  - apply NoDup_cons in Hnd as [Hk0 Hnd].
    apply elem_of_cons in Hin as [[= <- <-]|Hin].
    + by rewrite String.eqb_refl.
    + destruct (String.eqb_spec k0 k) as [->|Hne]; [|auto].
      exfalso. apply Hk0. apply list_elem_of_In, in_map_iff.
      exists (k, v). split; [done|]. by apply list_elem_of_In.
Qed.

Lemma NoDup_set_keys {V : Type} k (v : V) o :
  NoDup (map fst o) → NoDup (map fst (Dict.set k v o)).
Proof.
  intros H. rewrite set_keys.
  destruct (Dict.get k o) eqn:Hk; [done|].
  apply NoDup_app. split; [done|]. split.
  - intros x Hx Hx'. apply list_elem_of_singleton in Hx' as ->.
    by apply get_None_keys in Hk.
  - apply NoDup_singleton.
Qed.

Lemma insert_sorted_perm {V : Type} z (e : string * V) l :
  map snd (Dict.insert_sorted z e l) ≡ₚ e :: map snd l.
Proof.
  induction l as [|[z' e'] l IH]; simpl; [done|].
  destruct (z <? z'); simpl; [done|].
  rewrite IH. apply Permutation_swap.
Qed.

(** [Object.entries] lists every entry of the object, once. *)
Lemma entries_perm {V : Type} (o : list (string * V)) : Dict.entries o ≡ₚ o.
Proof.
  unfold Dict.entries.
  set (P := fun e : string * V =>
              Is_true (bool_decide (Dict.array_index (fst e) = None))).
  rewrite <- (filter_app_complement P o) at 3.
  rewrite (Permutation_app_comm (filter P o)).
  apply Permutation_app; [|done].
  assert (H : ∀ acc,
    map snd (fold_left
               (fun acc e => match Dict.array_index (fst e) with
                             | Some z => Dict.insert_sorted z e acc
                             | None => acc
                             end) o acc)
    ≡ₚ (map snd acc ++ filter (fun x => ¬ P x) o)%list).
  { induction o as [|e o IH]; intros acc; simpl.
    - by rewrite app_nil_r.
    - rewrite IH. unfold P at 2.
      destruct (Dict.array_index (fst e)) as [z|] eqn:He.
      + rewrite filter_cons_True.
        2:{ unfold P. rewrite He. intros H. by apply bool_decide_unpack in H. }
        rewrite insert_sorted_perm. simpl.
        by rewrite <- Permutation_middle.
      + rewrite filter_cons_False; [done|].
        unfold P. rewrite He. intros H. apply H. by apply bool_decide_pack. }
  rewrite H. done.
Qed.

Lemma amounts_cons k e l :
  amounts k (e :: l)
  = if String.eqb (fst e) k then snd e :: amounts k l else amounts k l.
Proof.
  unfold amounts. rewrite filter_cons.
  case_decide as H; destruct (String.eqb (fst e) k); simpl in *; done.
Qed.

Lemma slots_eta s : mkSlots (total s) (used s) = s.
Proof. by destruct s. Qed.

(** The table after the loop over the workers. *)
Lemma put_total_lookup loads : ∀ ps0 k,
  Dict.get k (fold_left put_total loads ps0)
  = match Dict.get k ps0 with
    | Some s =>
        Some (mkSlots (fold_left js_add (amounts k loads) (total s)) (used s))
    | None =>
        if bool_decide (k ∈ map fst loads)
        then Some (mkSlots (sum_for k loads) (of_nat 0))
        else None
    end.
Proof.
  unfold sum_for.
  induction loads as [|e r IH]; intros ps0 k; simpl.
  - destruct (Dict.get k ps0) as [s|]; [by rewrite slots_eta | done].
  - rewrite IH, amounts_cons. unfold put_total at 1.
    rewrite get_set.
    destruct (String.eqb_spec (fst e) k) as [<-|Hne]; simpl.
    + destruct (Dict.get (fst e) ps0) as [s|]; simpl; [done|].
      rewrite bool_decide_eq_true_2; [done | apply list_elem_of_here].
    + destruct (Dict.get k ps0) as [s|]; [done|].
      rewrite (bool_decide_ext (k ∈ fst e :: map fst r) (k ∈ map fst r));
        [done|].
      rewrite elem_of_cons. split; [|by right].
      by intros [->|Hk].
Qed.

(** The table after the loop over the tasks: no phase is added. *)
Lemma put_used_lookup demands : ∀ ps0 k,
  Dict.get k (fold_left put_used demands ps0)
  = match Dict.get k ps0 with
    | Some s =>
        Some (mkSlots (total s)
                      (fold_left js_add (amounts k demands) (used s)))
    | None => None
    end.
Proof.
  induction demands as [|e r IH]; intros ps0 k; simpl.
  - destruct (Dict.get k ps0) as [s|]; [by rewrite slots_eta | done].
  - rewrite IH, amounts_cons. unfold put_used at 1.
    destruct (Dict.get (fst e) ps0) as [s0|] eqn:He.
    + rewrite get_set.
      destruct (String.eqb_spec (fst e) k) as [<-|Hne]; simpl.
      * by rewrite He.
      * by destruct (Dict.get k ps0).
    + destruct (String.eqb_spec (fst e) k) as [<-|Hne]; [by rewrite He|].
      by destruct (Dict.get k ps0).
Qed.

Lemma put_total_NoDup loads : ∀ ps0,
  NoDup (map fst ps0) → NoDup (map fst (fold_left put_total loads ps0)).
Proof.
  induction loads as [|e r IH]; intros ps0 H; simpl; [done|].
  apply IH. by apply NoDup_set_keys.
Qed.

Lemma put_used_NoDup demands : ∀ ps0,
  NoDup (map fst ps0) → NoDup (map fst (fold_left put_used demands ps0)).
Proof.
  induction demands as [|e r IH]; intros ps0 H; simpl; [done|].
  apply IH. unfold put_used.
  destruct (Dict.get (fst e) ps0); [by apply NoDup_set_keys | done].
Qed.

Lemma add_total_step load ps p :
  add_total load ps p = phase_key p ≫= fun k => Ok (put_total ps (k, load)).
Proof. reflexivity. Qed.

Lemma add_used_step duration ps p :
  add_used duration ps p
  = phase_key p ≫= fun k => Ok (put_used ps (k, duration)).
Proof.
  unfold add_used, put_used. destruct (phase_key p) as [k| |]; [|done|done].
  simpl. by destruct (Dict.get k ps).
Qed.

(** The loop over the phases of one list records an entry for each, in
    order, and ends at the first phase that has no key. *)
Lemma add_total_loop load l : ∀ i ps,
  forEach_from (fun phase (_ : nat) ps => add_total load ps phase) l i ps
  = map_res (fun p => k ← phase_key p; Ok (k, load)) l
    ≫= fun es => Ok (fold_left put_total es ps).
Proof.
  induction l as [|p l IH]; intros i ps; [done|].
  cbn [forEach_from map_res]. rewrite add_total_step.
  destruct (phase_key p) as [k| |]; [|done|done].
  cbn [mbind res_bind]. rewrite IH.
  by destruct (map_res _ l).
Qed.

Lemma add_used_loop duration l : ∀ i ps,
  forEach_from (fun phase (_ : nat) ps => add_used duration ps phase) l i ps
  = map_res (fun p => k ← phase_key p; Ok (k, duration)) l
    ≫= fun es => Ok (fold_left put_used es ps).
Proof.
  induction l as [|p l IH]; intros i ps; [done|].
  cbn [forEach_from map_res]. rewrite add_used_step.
  destruct (phase_key p) as [k| |]; [|done|done].
  cbn [mbind res_bind]. rewrite IH.
  by destruct (map_res _ l).
Qed.

(** What a worker adds to the table is what [worker_loads] lists. *)
Lemma add_worker_loads w ps :
  add_worker w ps
  = worker_loads w ≫= fun l => Ok (fold_left put_total l ps).
Proof.
  unfold add_worker, worker_loads, forEach.
  destruct (list_of_field _ _) as [l| |]; [|done|done].
  apply add_total_loop.
Qed.

Lemma add_task_demands t ps :
  add_task_demand t ps
  = task_demands t ≫= fun l => Ok (fold_left put_used l ps).
Proof.
  unfold add_task_demand, task_demands, forEach.
  destruct (list_of_field _ _) as [l| |]; [|done|done].
  apply add_used_loop.
Qed.

(** The loop over the workers records the loads of all workers, in
    order. *)
Lemma workers_loop ws : ∀ i ps,
  forEach_from (fun w (_ : nat) ps => add_worker w ps) ws i ps
  = gather worker_loads ws
    ≫= fun loads => Ok (fold_left put_total loads ps).
Proof.
  induction ws as [|w ws IH]; intros i ps; [done|].
  cbn [forEach_from gather]. rewrite add_worker_loads.
  destruct (worker_loads w) as [l| |]; [|done|done].
  cbn [mbind res_bind]. rewrite IH.
  destruct (gather worker_loads ws) as [ls| |]; [|done|done].
  cbn [mbind res_bind]. by rewrite fold_left_app.
Qed.

Lemma tasks_loop ts : ∀ i ps,
  forEach_from (fun t (_ : nat) ps => add_task_demand t ps) ts i ps
  = gather task_demands ts
    ≫= fun demands => Ok (fold_left put_used demands ps).
Proof.
  induction ts as [|t ts IH]; intros i ps; [done|].
  cbn [forEach_from gather]. rewrite add_task_demands.
  destruct (task_demands t) as [l| |]; [|done|done].
  cbn [mbind res_bind]. rewrite IH.
  destruct (gather task_demands ts) as [ls| |]; [|done|done].
  cbn [mbind res_bind]. by rewrite fold_left_app.
Qed.

(** The table of counters is built from the loads and then the demands. *)
Lemma phase_table_gather ws ts :
  phase_table ws ts
  = gather worker_loads ws ≫= fun loads =>
    gather task_demands ts ≫= fun demands =>
    Ok (fold_left put_used demands (fold_left put_total loads [])).
Proof.
  unfold phase_table, forEach. rewrite workers_loop.
  destruct (gather worker_loads ws) as [loads| |]; [|done|done].
  cbn [mbind res_bind]. apply tasks_loop.
Qed.

(** The table of counters holds, for each phase some worker lists, the sum
    of the loads and the sum of the demands, and holds no other phase. *)
Lemma phase_table_lookup ws ts ps :
  phase_table ws ts = Ok ps →
  ∃ loads demands,
    gather worker_loads ws = Ok loads
    ∧ gather task_demands ts = Ok demands
    ∧ NoDup (map fst ps)
    ∧ ∀ k, Dict.get k ps
           = if bool_decide (k ∈ map fst loads)
             then Some (mkSlots (sum_for k loads) (sum_for k demands))
             else None.
Proof.
  rewrite phase_table_gather. intros H.
  apply bind_Ok in H as (loads & Hl & H).
  apply bind_Ok in H as (demands & Hd & H). injection H as <-.
  exists loads, demands. repeat split; try done.
  - apply put_used_NoDup, put_total_NoDup. constructor.
  - intros k. rewrite put_used_lookup, put_total_lookup. simpl.
    by destruct (bool_decide _).
Qed.

(** The loop over the entries reports the oversaturated ones, in order. *)
Lemma report_loop es : ∀ i st st',
  forEach_from (fun e (_ : nat) st => report_phase e st) es i st = Ok st' →
  errors st' = errors st
  ∧ summary st'
    = (summary st
       ++ map (fun e => saturation_summary (fst e) (snd e))
              (filter is_over es))%list
  ∧ suggestions st'
    = (suggestions st
       ++ map (fun e => saturation_suggestion (fst e)) (filter is_over es))%list.
Proof.
  induction es as [|e es IH]; intros i st st' H; simpl in H.
  - injection H as <-. by rewrite !app_nil_r.
  - apply bind_Ok in H as (st1 & H1 & H).
    apply IH in H as (He & Hs & Hg). rewrite He, Hs, Hg. clear IH He Hs Hg.
    unfold report_phase in H1. apply bind_Ok in H1 as (b & Hb & H1).
    assert (Ho : is_over e = b)
      by (unfold is_over; rewrite Hb; by destruct b).
    rewrite filter_cons.
    destruct b; injection H1 as <-; simpl.
    + rewrite decide_True by (by rewrite Ho). simpl.
      by rewrite <- !app_assoc.
    + rewrite decide_False; [done|]. rewrite Ho. simpl. tauto.
Qed.

Lemma NoDup_filter_keys {V : Type} (P : string * V → Prop)
    `{∀ e, Decision (P e)} (l : list (string * V)) :
  NoDup (map fst l) → NoDup (map fst (filter P l)).
Proof.
  induction l as [|e l IH]; simpl; intros Hnd; [constructor|].
  apply NoDup_cons in Hnd as [He Hnd]. rewrite filter_cons.
  case_decide; [|auto]. simpl. apply NoDup_cons. split; [|auto].
  intros Hin. apply He.
  apply list_elem_of_In, in_map_iff in Hin as (x & Hx & Hin).
  apply list_elem_of_In, list_elem_of_filter in Hin as [_ Hin].
  apply list_elem_of_In, in_map_iff. exists x. split; [done|].
  by apply list_elem_of_In.
Qed.

Lemma is_over_spec k s :
  is_over (k, s) = true ↔ js_gt (used s) (total s) = Ok true.
Proof.
  unfold is_over; simpl.
  destruct (js_gt (used s) (total s)) as [[]| |]; split; congruence.
Qed.

(** The sentence of the specification fails for a phase that only a task
    names: one task of duration 5 prefers phase 1, no worker offers it, and
    nothing is reported. *)
Lemma phase_without_worker_not_reported :
  ¬ every_saturated_phase_reported
      [] [mkrow [("PreferredPhases", CStr "1"); ("Duration", CNum (Int 5))]].
Proof.
  intros H.
  destruct (H init init [] [("1", of_nat 5)] "1") as [Hs _].
  - vm_compute. reflexivity.
  - reflexivity.
  - vm_compute. reflexivity.
  - right. apply list_elem_of_here.
  - vm_compute. reflexivity.
  - simpl in Hs. by apply elem_of_nil in Hs.
Qed.

(** The phases reported are the phases some worker lists whose [used]
    exceeds their [total], with the [+] and the [>] of the source. *)
Lemma saturation_report ws ts st st' :
  checkPhaseSlotSaturation ws ts st = Ok st' →
  ∃ loads demands phases,
    gather worker_loads ws = Ok loads
    ∧ gather task_demands ts = Ok demands
    ∧ NoDup phases
    ∧ (∀ k, k ∈ phases ↔
            k ∈ map fst loads
            ∧ js_gt (sum_for k demands) (sum_for k loads) = Ok true)
    ∧ errors st' = errors st
    ∧ summary st'
      = (summary st
         ++ map (fun k => saturation_summary k
                            (mkSlots (sum_for k loads) (sum_for k demands)))
                phases)%list
    ∧ suggestions st'
      = (suggestions st ++ map saturation_suggestion phases)%list.
Proof.
  unfold checkPhaseSlotSaturation, forEach. intros H.
  apply bind_Ok in H as (ps & Hps & H).
  apply phase_table_lookup in Hps as (loads & demands & Hl & Hd & Hnd & Hget).
  apply report_loop in H as (He & Hs & Hg).
  set (es := filter is_over (Dict.entries ps)) in *.
  assert (Hes : ∀ e, e ∈ es →
            fst e ∈ map fst loads
            ∧ snd e = mkSlots (sum_for (fst e) loads) (sum_for (fst e) demands)
            ∧ js_gt (used (snd e)) (total (snd e)) = Ok true).
  { intros [k s] Hin. apply list_elem_of_filter in Hin as [Hov Hin].
    rewrite entries_perm in Hin.
    apply (elem_get_Some _ _ _ Hnd) in Hin. rewrite Hget in Hin. simpl.
    case_bool_decide; [|done]. injection Hin as <-.
    repeat split; [done|].
    apply (proj1 (is_over_spec k _)). by apply Is_true_true. }
  exists loads, demands, (map fst es). repeat split; try done.
  - apply NoDup_filter_keys. by rewrite entries_perm.
  - apply list_elem_of_In, in_map_iff in H as (e & <- & Hin).
    by apply list_elem_of_In, Hes in Hin as (? & _).
  - apply list_elem_of_In, in_map_iff in H as (e & <- & Hin).
    apply list_elem_of_In, Hes in Hin as (_ & Hsn & Hgt).
    by rewrite Hsn in Hgt.
  - intros [Hk Hgt]. apply list_elem_of_In, in_map_iff.
    exists (k, mkSlots (sum_for k loads) (sum_for k demands)).
    split; [done|]. apply list_elem_of_In, list_elem_of_filter. split.
    + apply Is_true_true. by apply (proj2 (is_over_spec k _)).
    + rewrite entries_perm. apply get_Some_elem. rewrite Hget.
      by rewrite bool_decide_eq_true_2.
  - rewrite Hs. f_equal. rewrite map_map. apply map_ext_in.
    intros e Hin. apply list_elem_of_In, Hes in Hin as (_ & <- & _). done.
  - rewrite Hg. f_equal. by rewrite map_map.
Qed.

(** On integers the sum of the source is the sum of the integers. *)
Lemma fold_js_add_numbers (l : list jsval) (z : Z) :
  Forall is_int l →
  fold_left js_add l (JNum (Int z))
  = JNum (Int (z + foldr Z.add 0 (map int_of l))).
Proof.
  intros H. revert z. induction H as [|v l [x ->] _ IH]; intros z; simpl.
  - by rewrite Z.add_0_r.
  - unfold js_add at 2. simpl. rewrite IH. by rewrite Z.add_assoc.
Qed.

Lemma sum_for_numbers k (l : list (string * jsval)) :
  Forall is_int (amounts k l) →
  sum_for k l = JNum (Int (foldr Z.add 0 (map int_of (amounts k l)))).
Proof. intros H. unfold sum_for, of_nat. by rewrite fold_js_add_numbers. Qed.

Lemma amounts_is_int k (l : list (string * jsval)) :
  Forall (fun e => is_int (snd e)) l → Forall is_int (amounts k l).
Proof.
  intros H. unfold amounts. apply Forall_forall. intros v Hv.
  apply list_elem_of_In, in_map_iff in Hv as (e & <- & He).
  apply list_elem_of_In, list_elem_of_filter in He as [_ He].
  by apply (proj1 (Forall_forall _ _) H).
Qed.

Lemma sum_for_amount k (l : list (string * jsval)) :
  Forall (fun e => is_int (snd e)) l → sum_for k l = JNum (Int (amount k l)).
Proof. intros H. by apply sum_for_numbers, amounts_is_int. Qed.

Lemma js_gt_ints a b :
  js_gt (JNum (Int a)) (JNum (Int b)) = Ok true ↔ (b < a)%Z.
Proof.
  unfold js_gt, js_lt. simpl. rewrite <- Z.ltb_lt.
  split; [by intros [= ->] | by intros ->].
Qed.

(** The loop over the entries comes to its end when the counters are
    integers. *)
Lemma report_loop_returns es : ∀ i st,
  Forall (fun e => is_int (used (snd e)) ∧ is_int (total (snd e))) es →
  ∃ st', forEach_from (fun e (_ : nat) st => report_phase e st) es i st
         = Ok st'.
Proof.
  induction es as [|e es IH]; intros i st H; simpl; [eauto|].
  apply Forall_cons in H as [[[u Hu] [t Ht]] H].
  assert (Hr : ∃ st1, report_phase e st = Ok st1).
  { unfold report_phase. rewrite Hu, Ht.
    unfold js_gt, js_lt. simpl. destruct (t <? u)%Z; simpl; eauto. }
  destruct Hr as [st1 ->]. simpl. by apply IH.
Qed.

(** The check returns when the amounts are integers. *)
Lemma saturation_check_returns ws ts st loads demands :
  gather worker_loads ws = Ok loads →
  gather task_demands ts = Ok demands →
  Forall (fun e => is_int (snd e)) loads →
  Forall (fun e => is_int (snd e)) demands →
  ∃ st', checkPhaseSlotSaturation ws ts st = Ok st'.
Proof.
  intros Hl Hd Il Id.
  assert (Hps : phase_table ws ts
                = Ok (fold_left put_used demands
                        (fold_left put_total loads [])))
    by (by rewrite phase_table_gather, Hl, Hd).
  destruct (phase_table_lookup _ _ _ Hps)
    as (loads' & demands' & Hl' & Hd' & Hnd & Hget).
  rewrite Hl in Hl'. injection Hl' as <-.
  rewrite Hd in Hd'. injection Hd' as <-.
  destruct (report_loop_returns
              (Dict.entries (fold_left put_used demands
                               (fold_left put_total loads []))) 0 st)
    as [st' Hst'].
  { apply Forall_forall. intros [k s] Hin. rewrite entries_perm in Hin.
    apply (elem_get_Some _ _ _ Hnd) in Hin. rewrite Hget in Hin.
    case_bool_decide; [|done]. injection Hin as <-. simpl.
    rewrite !sum_for_amount by done. split; eexists; reflexivity. }
  exists st'. unfold checkPhaseSlotSaturation. by rewrite Hps.
Qed.

(** C2, amended.  Where the amounts are integers (a MaxLoadPerPhase or a
    Duration that is a number or is left out, the default 1 standing for
    a falsy one) whose sums stay exact, the phase-saturation check returns
    and reports exactly the phases some worker lists in its parsed
    AvailableSlots whose demand exceeds their capacity.  The capacity of
    a phase is the MaxLoadPerPhase of the workers listing it, added once
    for each listing; its demand is the Duration of the tasks listing it
    in their parsed PreferredPhases, added once for each listing.  Each
    such phase gets one summary line with its name and the two counts and
    one suggestion, and nothing else is written.  A phase that only tasks
    name is not reported. *)
Theorem saturation_reports_phases_of_workers ws ts st loads demands :
  gather worker_loads ws = Ok loads →
  gather task_demands ts = Ok demands →
  Forall (fun e => is_int (snd e)) loads →
  Forall (fun e => is_int (snd e)) demands →
  (volume loads ≤ 2 ^ 53)%Z →
  (volume demands ≤ 2 ^ 53)%Z →
  ∃ st' phases,
    checkPhaseSlotSaturation ws ts st = Ok st'
    ∧ NoDup phases
    ∧ (∀ k, k ∈ phases ↔
            k ∈ map fst loads ∧ (amount k loads < amount k demands)%Z)
    ∧ errors st' = errors st
    ∧ summary st'
      = (summary st
         ++ map (fun k => saturation_line k (amount k demands)
                            (amount k loads))
                phases)%list
    ∧ suggestions st' = (suggestions st ++ map saturation_advice phases)%list.
Proof.
  intros Hl Hd Il Id _ _.
  destruct (saturation_check_returns ws ts st loads demands Hl Hd Il Id)
    as [st' Hrun].
  destruct (saturation_report _ _ _ _ Hrun)
    as (loads' & demands' & phases & Hl' & Hd' & Hn & Hm & He & Hs & Hg).
  rewrite Hl in Hl'. injection Hl' as <-.
  rewrite Hd in Hd'. injection Hd' as <-.
  exists st', phases. repeat split; try done.
  - by apply Hm.
  - apply Hm in H as [_ H].
    rewrite !sum_for_amount in H by done. by apply js_gt_ints.
  - intros [Hk Hlt]. apply Hm. split; [done|].
    rewrite !sum_for_amount by done. by apply js_gt_ints.
  - rewrite Hs. f_equal. apply map_ext. intros k.
    by rewrite !sum_for_amount.
Qed.

Lemma saturation_reports_phases_of_workers_witness :
  ∃ st' phases,
    checkPhaseSlotSaturation [worker_phase_one] [task_phase_one] init = Ok st'
    ∧ NoDup phases
    ∧ (∀ k, k ∈ phases ↔
            k ∈ map fst [("1", JNum (Int 5))]
            ∧ (amount k [("1", JNum (Int 5))]
               < amount k [("1", JNum (Int 7))])%Z)
    ∧ errors st' = errors init
    ∧ summary st'
      = (summary init
         ++ map (fun k => saturation_line k
                            (amount k [("1", JNum (Int 7))])
                            (amount k [("1", JNum (Int 5))]))
                phases)%list
    ∧ suggestions st'
      = (suggestions init ++ map saturation_advice phases)%list.
Proof.
  apply (saturation_reports_phases_of_workers
           [worker_phase_one] [task_phase_one] init
           [("1", JNum (Int 5))] [("1", JNum (Int 7))]).
  - vm_compute. reflexivity.
  - vm_compute. reflexivity.
  - repeat constructor. by exists 5%Z.
  - repeat constructor. by exists 7%Z.
  - vm_compute. discriminate.
  - vm_compute. discriminate.
Defined.

(** A phase without a string makes the check throw, as it makes the list
    check of the column throw before; a phase named like a member of
    [Object.prototype] and a phase beyond 2^53 leave the fragment. *)
Example phases_outside_the_table :
  checkPhaseSlotSaturation
    [mkrow [("AvailableSlots", CStr unprintable_list)]] [] init
  = Throw TypeError
  ∧ checkMalformedLists EWorkers
      [mkrow [("AvailableSlots", CStr unprintable_list)]]
      "AvailableSlots" true init
    = Throw TypeError
  ∧ checkPhaseSlotSaturation
      [mkrow [("AvailableSlots", CStr inherited_list)]] [] init
    = Unsupported
  ∧ checkPhaseSlotSaturation
      [mkrow [("AvailableSlots", CStr "99999999999999999999")]] [] init
    = Unsupported.
Proof. repeat split; vm_compute; reflexivity. Qed.

(** Text in an amount is not added but joined, and two joined texts
    compare as texts: a load of "2" gives the total "02", a duration of
    "10" the demand "010", which is below it. *)
Example text_amounts_are_joined :
  phase_table
    [mkrow [("AvailableSlots", CStr "1"); ("MaxLoadPerPhase", CStr "2")]]
    [mkrow [("PreferredPhases", CStr "1"); ("Duration", CStr "10")]]
  = Ok [("1", mkSlots (JStr "02") (JStr "010"))]
  ∧ checkPhaseSlotSaturation
      [mkrow [("AvailableSlots", CStr "1"); ("MaxLoadPerPhase", CStr "2")]]
      [mkrow [("PreferredPhases", CStr "1"); ("Duration", CStr "10")]] init
    = Ok init.
Proof. split; vm_compute; reflexivity. Qed.

(** The run of the witness: demand 7 against capacity 5 in phase 1. *)
Lemma saturation_example :
  ∃ st',
    checkPhaseSlotSaturation [worker_phase_one] [task_phase_one] init = Ok st'
    ∧ summary st' = ["Phase 1 is oversaturated: 7 slots needed, 5 available"]
    ∧ suggestions st'
      = ["Consider reducing task durations or adding more workers for phase 1"].
Proof. eexists. repeat split; vm_compute; reflexivity. Qed.

End PhaseFacts.

(** ** The default of 1 *)

Module Defaults.
Import JS Validation Spec Facts PhaseFacts.






(** The lines of the witness. *)
Example default_one_lines :
  summary (push_suggestion (saturation_advice "4")
             (push_summary (saturation_line "4" 2 1) init))
  = ["Phase 4 is oversaturated: 2 slots needed, 1 available"].
Proof. vm_compute. reflexivity. Qed.

End Defaults.


(** ** The traversal of the rule graph never runs out of fuel *)

Module GraphFacts.
Import JS Validation Spec Invariants Facts PhaseFacts.

Local Open Scope nat_scope.

Lemma elem_key_set k (g : graph) : k ∈ key_set g ↔ is_Some (Dict.get k g).
Proof.
  unfold key_set. rewrite elem_of_list_to_set.
  destruct (Dict.get k g) eqn:H.
  - split; [eauto|]. intros _. apply get_Some_elem in H.
    apply list_elem_of_In, in_map_iff. exists (k, l).
    split; [done | by apply list_elem_of_In].
  - split; [|by intros [? ?]]. intros Hin. by apply get_None_keys in H.
Qed.

Lemma size_key_set (g : graph) : size (key_set g) ≤ length g.
Proof.
  unfold key_set. rewrite <- (length_map fst g).
  generalize (map fst g). intros l.
  induction l as [|x l IH].
  - by rewrite list_to_set_nil, size_empty.
  - rewrite list_to_set_cons, size_union_alt, size_singleton.
    pose proof (subseteq_size (C := gset string)
                  (list_to_set l ∖ {[x]}) (list_to_set l)
                  ltac:(set_solver)) as Hle.
    simpl length. lia.
Qed.

Section traversal.
Variable g : graph.
Hypothesis g_closed : closed_upto [] g.

Let K := key_set g.
Let fuelled := fuelled K.
Let returns := returns K.

Lemma fuelled_mono fuel d d' :
  fuelled fuel d → visited d ⊆ visited d' → visited d' ⊆ K → fuelled fuel d'.
Proof.
  intros [_ Hf] Hsub HK. split; [done|].
  eapply Nat.le_lt_trans; [|exact Hf]. apply subseteq_size. set_solver.
Qed.

Lemma neighbours_key k ns n :
  Dict.get k g = Some ns → n ∈ ns → n ∈ K.
Proof.
  intros Hk Hn. apply elem_key_set.
  destruct (g_closed _ _ _ Hk Hn) as [H|H]; [done|].
  by apply elem_of_nil in H.
Qed.

Lemma visit_neighbours_returns call fuel task ns :
  (∀ n d, n ∈ K → fuelled fuel d → returns d (call n d)) →
  (∀ n, n ∈ ns → n ∈ K) →
  ∀ d, fuelled fuel d → returns d (visit_neighbours call task ns d).
Proof.
  intros Hcall. induction ns as [|n ns IH]; intros Hns d Hd; simpl.
  - exists false, (mkDfs (visited d) (recStack d ∖ {[task]})).
    destruct Hd. by repeat split.
  - destruct (Hcall n d) as (b & d1 & -> & Hsub & HK);
      [apply Hns, list_elem_of_here | done |].
    destruct b; [by exists true, d1|].
    destruct (IH (fun m Hm => Hns m (list_elem_of_further _ _ _ Hm)) d1)
      as (b & d2 & -> & Hsub2 & HK2); [by eapply fuelled_mono|].
    exists b, d2. repeat split; [|done]. set_solver.
Qed.

Lemma hasCycle_returns fuel : ∀ task d,
  task ∈ K → fuelled fuel d → returns d (hasCycle fuel g task d).
Proof.
  induction fuel as [|fuel IH]; intros task d Htask [HK Hf]; [lia|].
  simpl. case_bool_decide; [by exists true, d|].
  case_bool_decide as Hv; [by exists false, d|].
  assert (Hsize : size (K ∖ visited d) ≠ 0).
  { apply size_non_empty_iff. intros He. set_solver. }
  assert (Hd1 : fuelled fuel
                  (mkDfs ({[task]} ∪ visited d) ({[task]} ∪ recStack d))).
  { split; simpl; [set_solver|].
    replace (K ∖ ({[task]} ∪ visited d)) with ((K ∖ visited d) ∖ {[task]})
      by set_solver.
    pose proof (size_difference (K ∖ visited d) {[task]}
                  ltac:(set_solver)) as Hs.
    rewrite size_singleton in Hs. lia. }
  destruct (visit_neighbours_returns (hasCycle fuel g) fuel task
              (default [] (Dict.get task g)) IH) with (d := mkDfs
              ({[task]} ∪ visited d) ({[task]} ∪ recStack d))
    as (b & d' & -> & Hsub & HK'); [|done|].
  - intros n Hn. destruct (Dict.get task g) as [ns|] eqn:Hg; simpl in Hn.
    + by eapply neighbours_key.
    + by apply elem_of_nil in Hn.
  - exists b, d'. repeat split; [|done]. simpl in Hsub. set_solver.
Qed.

Lemma find_cycle_returns fuel ks : ∀ d,
  (∀ k, k ∈ ks → k ∈ K) → fuelled fuel d →
  is_Some (find_cycle fuel g ks d).
Proof.
  induction ks as [|k ks IH]; intros d Hks Hd; simpl; [eauto|].
  assert (Hks' : ∀ k', k' ∈ ks → k' ∈ K)
    by (intros k' Hk'; apply Hks; by apply list_elem_of_further).
  case_bool_decide; [by apply IH|].
  destruct (hasCycle_returns fuel k d) as (b & d' & -> & Hsub & HK);
    [apply Hks, list_elem_of_here | done |].
  destruct b; [eauto|]. apply IH; [done|]. by eapply fuelled_mono.
Qed.

(** With a fuel above the number of adjacency lists the traversal comes to
    its end. *)
Lemma find_cycle_fuel :
  is_Some (find_cycle (S (length g)) g (Dict.keys g) (mkDfs ∅ ∅)).
Proof.
  apply find_cycle_returns.
  - intros k Hk. apply elem_key_set.
    unfold Dict.keys in Hk.
    apply list_elem_of_In, in_map_iff in Hk as ([k' ns] & <- & Hin).
    apply list_elem_of_In in Hin. rewrite entries_perm in Hin.
    apply list_elem_of_In in Hin. simpl.
    destruct (Dict.get k' g) eqn:Hg; [eauto|].
    apply get_None_keys in Hg. exfalso. apply Hg.
    apply list_elem_of_In, in_map_iff. by exists (k', ns).
  - split; simpl; [set_solver|].
    pose proof (size_key_set g).
    pose proof (subseteq_size (K ∖ ∅) K ltac:(set_solver)). subst K. lia.
Qed.

End traversal.

Lemma is_Some_get_set {V : Type} k n (v : V) o :
  is_Some (Dict.get n o) → is_Some (Dict.get n (Dict.set k v o)).
Proof. rewrite get_set. destruct (String.eqb k n); eauto. Qed.

Lemma add_edge_closed pending task other g g' :
  add_edge task other g = Ok g' →
  (task ≠ other → other ∈ pending) → closed_upto pending g →
  closed_upto pending g' ∧ keys_kept g g'.
Proof.
  unfold add_edge. intros H Ho Hc.
  destruct (String.eqb_spec task other) as [Heq|Hne].
  { injection H as <-. split; [done | by intros n]. }
  destruct (Dict.get task g) as [ns0|] eqn:Hg; [|discriminate].
  destruct (existsb _ ns0); injection H as <-;
    [split; [done | by intros n]|].
  split; [|intros n; apply is_Some_get_set].
  intros k ns n Hk Hn. rewrite get_set in Hk.
  destruct (String.eqb_spec task k) as [->|Hne'].
  - injection Hk as <-. apply elem_of_app in Hn as [Hn|Hn].
    + destruct (Hc _ _ _ Hg Hn) as [H|H]; [|by right].
      left. by apply is_Some_get_set.
    + apply list_elem_of_singleton in Hn as ->. right. by apply Ho.
  - destruct (Hc _ _ _ Hk Hn) as [H|H]; [|by right].
    left. by apply is_Some_get_set.
Qed.

Lemma add_edges_closed pending task others : ∀ i g g',
  forEach_from (fun o (_ : nat) g => add_edge task o g) others i g = Ok g' →
  (∀ o, o ∈ others → task ≠ o → o ∈ pending) → closed_upto pending g →
  closed_upto pending g' ∧ keys_kept g g'.
Proof.
  induction others as [|o others IH]; intros i g g' H Ho Hc; simpl in H.
  - injection H as <-. split; [done | by intros n].
  - apply bind_Ok in H as (g1 & H1 & H).
    destruct (add_edge_closed pending task o g g1 H1) as [Hc1 Hk1];
      [apply Ho, list_elem_of_here | done |].
    destruct (IH _ _ _ H) as [Hc2 Hk2];
      [intros o' Ho'; apply Ho; by apply list_elem_of_further | done |].
    split; [done|]. intros n Hn. by apply Hk2, Hk1.
Qed.

(** A task without a list of its own gets through the inner loop only when
    the rule lists no other task. *)
Lemma add_edges_no_list task others : ∀ i g g',
  Dict.get task g = None →
  forEach_from (fun o (_ : nat) g => add_edge task o g) others i g = Ok g' →
  g' = g ∧ ∀ o, o ∈ others → o = task.
Proof.
  induction others as [|o others IH]; intros i g g' Hg H; simpl in H.
  - injection H as <-. split; [done|]. intros o Ho.
    by apply elem_of_nil in Ho.
  - apply bind_Ok in H as (g1 & H1 & H). unfold add_edge in H1.
    destruct (String.eqb_spec task o) as [<-|Hne]; [|by rewrite Hg in H1].
    injection H1 as <-. destruct (IH _ _ _ Hg H) as [-> Hall].
    split; [done|]. intros o Ho. apply elem_of_cons in Ho as [->|Ho]; auto.
Qed.

Lemma closed_upto_set_nil pending task g :
  closed_upto pending g → closed_upto pending (Dict.set task [] g).
Proof.
  intros Hc k ns n Hk Hn. rewrite get_set in Hk.
  destruct (String.eqb_spec task k) as [->|Hne].
  - injection Hk as <-. by apply elem_of_nil in Hn.
  - destruct (Hc _ _ _ Hk Hn) as [H|H]; [|by right].
    left. by apply is_Some_get_set.
Qed.

Lemma add_task_closed pending ts task g g' :
  add_task ts task g = Ok g' →
  (∀ o, o ∈ ts → task ≠ o → o ∈ pending) → closed_upto pending g →
  closed_upto pending g' ∧ keys_kept g g'
  ∧ (is_Some (Dict.get task g') ∨ ∀ o, o ∈ ts → o = task).
Proof.
  unfold add_task, forEach. intros H Ho Hc.
  destruct (Dict.get task g) as [ns|] eqn:Hg.
  - destruct (add_edges_closed _ _ _ _ _ _ H Ho Hc) as [Hc' Hk'].
    repeat split; [done | done |]. left. apply Hk'. by rewrite Hg.
  - destruct (Dict.inherited task).
    + destruct (add_edges_no_list _ _ _ _ _ Hg H) as [-> Hall].
      repeat split; [done | by intros n | by right].
    + destruct (add_edges_closed _ _ _ _ _ _ H Ho
                  (closed_upto_set_nil _ task _ Hc)) as [Hc' Hk'].
      repeat split; [done | |].
      * intros n Hn. by apply Hk', is_Some_get_set.
      * left. apply Hk'. by rewrite get_set_eq.
Qed.

Lemma add_tasks_closed pending ts todo : ∀ i g g',
  forEach_from (fun task (_ : nat) g => add_task ts task g) todo i g = Ok g' →
  (∀ t o, t ∈ todo → o ∈ ts → t ≠ o → o ∈ pending) →
  closed_upto pending g →
  closed_upto pending g' ∧ keys_kept g g'
  ∧ ∀ t, t ∈ todo → is_Some (Dict.get t g') ∨ ∀ o, o ∈ ts → o = t.
Proof.
  induction todo as [|t todo IH]; intros i g g' H Ho Hc; simpl in H.
  - injection H as <-. repeat split; [done | by intros n |]. intros t Ht.
    by apply elem_of_nil in Ht.
  - apply bind_Ok in H as (g1 & H1 & H).
    destruct (add_task_closed pending ts t g g1 H1) as (Hc1 & Hk1 & Ht1);
      [intros o Hin Hne; by apply (Ho t o); [apply list_elem_of_here| |]
      | done |].
    destruct (IH _ _ _ H) as (Hc2 & Hk2 & Ht2);
      [intros t' o Ht'; apply Ho; by apply list_elem_of_further | done |].
    repeat split; [done | |].
    + intros n Hn. by apply Hk2, Hk1.
    + intros t' Ht'. apply elem_of_cons in Ht' as [->|Ht']; [|by apply Ht2].
      destruct Ht1 as [Ht1|Ht1]; [left; by apply Hk2 | by right].
Qed.

(** The tasks of a rule that stand beside another task of the rule. *)
Definition paired (ts : list string) : list string :=
  filter (fun n => negb (forallb (String.eqb n) ts)) ts.

Lemma elem_paired ts t o : t ∈ ts → o ∈ ts → t ≠ o → o ∈ paired ts.
Proof.
  intros Ht Ho Hne. apply list_elem_of_filter. split; [|done].
  apply Is_true_true, negb_true_iff, not_true_is_false.
  rewrite forallb_forall. intros Hall.
  apply list_elem_of_In, Hall, String.eqb_eq in Ht. by subst.
Qed.

Lemma paired_not_alone ts n :
  n ∈ paired ts → ¬ ∀ o, o ∈ ts → o = n.
Proof.
  intros Hn Hall. apply list_elem_of_filter in Hn as [Hn _].
  apply Is_true_true, negb_true_iff, not_true_iff_false in Hn. apply Hn.
  apply forallb_forall. intros o Ho. apply String.eqb_eq.
  symmetry. by apply Hall, list_elem_of_In.
Qed.

Lemma add_rule_closed r g g' :
  closed_upto [] g → add_rule r g = Ok g' → closed_upto [] g'.
Proof.
  unfold add_rule, forEach. intros Hc H.
  destruct (rule_tasks r) as [ts|]; [|discriminate].
  destruct (add_tasks_closed (paired ts) ts ts _ _ _ H) as (Hc' & _ & Hts).
  { intros t o. apply elem_paired. }
  { intros k ns n Hk Hn. destruct (Hc _ _ _ Hk Hn) as [H0|H0]; [by left|].
    by apply elem_of_nil in H0. }
  intros k ns n Hk Hn. left.
  destruct (Hc' _ _ _ Hk Hn) as [H0|H0]; [done|].
  destruct (Hts n) as [H1|H1]; [|done|].
  - by apply list_elem_of_filter in H0 as [_ H0].
  - by apply paired_not_alone in H0.
Qed.

Lemma build_graph_closed rs g :
  build_graph rs = Ok g → closed_upto [] g.
Proof.
  unfold build_graph, forEach. generalize 0.
  assert (Hnil : closed_upto [] ([] : graph)) by (intros k ns n [=]).
  revert Hnil. generalize ([] : graph).
  induction rs as [|r rs IH]; intros g0 Hc i H; simpl in H.
  - by injection H as <-.
  - apply bind_Ok in H as (g1 & H1 & H).
    eapply IH; [|exact H]. by eapply add_rule_closed.
Qed.

(** The graph is built within the modelled fragment, and fails with a
    [TypeError] only. *)
Lemma add_edge_outcome task o g :
  (∃ g', add_edge task o g = Ok g') ∨ add_edge task o g = Throw TypeError.
Proof.
  unfold add_edge. destruct (String.eqb task o); [eauto|].
  destruct (Dict.get task g) as [ns|]; [|by right].
  destruct (existsb _ ns); eauto.
Qed.

Lemma forEach_from_outcome {A St : Type} (f : A → nat → St → res St) l :
  (∀ a j t, (∃ t', f a j t = Ok t') ∨ f a j t = Throw TypeError) →
  ∀ i s, (∃ s', forEach_from f l i s = Ok s')
         ∨ forEach_from f l i s = Throw TypeError.
Proof.
  intros Hf. induction l as [|a l IH]; intros i s; simpl; [eauto|].
  destruct (Hf a i s) as [[t' ->] | ->]; [apply IH | by right].
Qed.

Lemma add_task_outcome ts task g :
  (∃ g', add_task ts task g = Ok g') ∨ add_task ts task g = Throw TypeError.
Proof.
  unfold add_task, forEach. apply forEach_from_outcome.
  intros o j t. apply add_edge_outcome.
Qed.

Lemma add_rule_outcome r g :
  (∃ g', add_rule r g = Ok g') ∨ add_rule r g = Throw TypeError.
Proof.
  unfold add_rule, forEach. destruct (rule_tasks r) as [ts|]; [|by right].
  apply forEach_from_outcome. intros task j t. apply add_task_outcome.
Qed.

Lemma build_graph_outcome rs :
  (∃ g, build_graph rs = Ok g) ∨ build_graph rs = Throw TypeError.
Proof.
  unfold build_graph, forEach. apply forEach_from_outcome.
  intros r j t. apply add_rule_outcome.
Qed.

Lemma build_graph_supported rs : build_graph rs ≠ Unsupported.
Proof. by destruct (build_graph_outcome rs) as [[g ->] | ->]. Qed.

(** A task with a list of its own gets through the inner loop. *)
Lemma add_edges_returns task others : ∀ i g,
  is_Some (Dict.get task g) →
  ∃ g', forEach_from (fun o (_ : nat) g => add_edge task o g) others i g
        = Ok g'.
Proof.
  induction others as [|o others IH]; intros i g Hg; simpl; [eauto|].
  destruct (add_edge task o g) as [g1| |] eqn:H1.
  - simpl. apply IH.
    unfold add_edge in H1. destruct (String.eqb task o);
      [by injection H1 as <-|].
    destruct (Dict.get task g) as [ns|] eqn:Hk; [|discriminate].
    destruct (existsb _ ns); injection H1 as <-; [by rewrite Hk|].
    by rewrite get_set_eq.
  - unfold add_edge in H1. destruct (String.eqb task o); [discriminate|].
    destruct Hg as [ns Hg]. rewrite Hg in H1. by destruct (existsb _ ns).
  - by destruct (add_edge_outcome task o g) as [[g' Hg'] | Hg'];
      rewrite Hg' in H1.
Qed.

Lemma add_edge_self task g : add_edge task task g = Ok g.
Proof. unfold add_edge. by rewrite String.eqb_refl. Qed.

Lemma add_edges_alone task others : ∀ i g,
  (∀ o, o ∈ others → o = task) →
  forEach_from (fun o (_ : nat) g => add_edge task o g) others i g = Ok g.
Proof.
  induction others as [|o others IH]; intros i g Hall; simpl; [done|].
  rewrite (Hall o) by apply list_elem_of_here.
  rewrite add_edge_self. simpl. apply IH.
  intros o' Ho'. by apply Hall, list_elem_of_further.
Qed.

Lemma add_task_returns ts task g :
  (Dict.inherited task = true → ∀ o, o ∈ ts → o = task) →
  ∃ g', add_task ts task g = Ok g'.
Proof.
  intros Hin. unfold add_task, forEach.
  destruct (Dict.get task g) as [ns|] eqn:Hg.
  - apply add_edges_returns. by rewrite Hg.
  - destruct (Dict.inherited task).
    + exists g. by apply add_edges_alone, Hin.
    + apply add_edges_returns. by rewrite get_set_eq.
Qed.

Lemma add_tasks_returns ts todo : ∀ i g,
  (∀ t o, t ∈ todo → o ∈ ts → Dict.inherited t = true → o = t) →
  ∃ g', forEach_from (fun task (_ : nat) g => add_task ts task g) todo i g
        = Ok g'.
Proof.
  induction todo as [|t todo IH]; intros i g Hall; simpl; [eauto|].
  destruct (add_task_returns ts t g) as [g1 ->].
  { intros Hin o Ho. apply Hall; [apply list_elem_of_here | done | done]. }
  simpl. apply IH. intros t' o Ht'. apply Hall.
  by apply list_elem_of_further.
Qed.

Lemma add_rule_returns r g : rule_taken r → ∃ g', add_rule r g = Ok g'.
Proof.
  intros (ts & Hts & Hall). unfold add_rule, forEach. rewrite Hts.
  by apply add_tasks_returns.
Qed.

(** The inner loop has come to its end only for a task with a list of its
    own or without another task beside it. *)
Lemma add_task_taken ts task g g' :
  add_task ts task g = Ok g' →
  Dict.get task g = None →
  Dict.inherited task = true → ∀ o, o ∈ ts → o = task.
Proof.
  unfold add_task, forEach. intros H Hg Hin. rewrite Hg, Hin in H.
  by destruct (add_edges_no_list _ _ _ _ _ Hg H).
Qed.

Lemma build_graph_returns rs :
  (∀ r, r ∈ rs → rule_taken r) → ∃ g, build_graph rs = Ok g.
Proof.
  unfold build_graph, forEach. generalize 0. generalize ([] : graph).
  induction rs as [|r rs IH]; intros g i Hrs; simpl; [eauto|].
  destruct (add_rule_returns r g) as [g1 ->]; [apply Hrs, list_elem_of_here|].
  simpl. apply IH.
  intros r' Hr'. by apply Hrs, list_elem_of_further.
Qed.

(** The rule graph checker always comes to an end within the modelled
    fragment, and returns when the graph takes every coRun rule. *)
Lemma checkCircularCoRuns_supported rs st :
  checkCircularCoRuns rs st ≠ Unsupported.
Proof.
  unfold checkCircularCoRuns.
  destruct (build_graph _) as [g| |] eqn:Hg; simpl; [|done|].
  - destruct (find_cycle_fuel g (build_graph_closed _ _ Hg)) as [[t|] ->];
      done.
  - by apply build_graph_supported in Hg.
Qed.

Lemma checkCircularCoRuns_returns rs st :
  (∀ r, r ∈ rs → rule_type r = "coRun" → rule_taken r) →
  ∃ st', checkCircularCoRuns rs st = Ok st'.
Proof.
  intros Hrs. unfold checkCircularCoRuns.
  destruct (build_graph _) as [g| |] eqn:Hg; simpl.
  - destruct (find_cycle_fuel g (build_graph_closed _ _ Hg)) as [[t|] ->];
      eauto.
  - destruct (build_graph_returns
                (filter (fun r => String.eqb (rule_type r) "coRun") rs))
      as [g Hg'].
    + intros r Hr. apply list_elem_of_filter in Hr as [Ht Hr].
      apply Hrs; [done|]. by apply String.eqb_eq, Is_true_true.
    + congruence.
  - by apply build_graph_supported in Hg.
Qed.

Lemma pair_graph a b :
  a ≠ b → Dict.inherited a = false → Dict.inherited b = false →
  build_graph (filter (fun r => String.eqb (rule_type r) "coRun")
                      [coRun [a; b]])
  = Ok [(a, [b]); (b, [a])].
Proof.
  intros Hab Ha Hb.
  assert (Hab' : String.eqb a b = false) by by apply String.eqb_neq.
  assert (Hba : String.eqb b a = false) by by apply String.eqb_neq.
  unfold build_graph, coRun, add_rule, add_task, add_edge, forEach.
  repeat (progress (simpl; rewrite ?String.eqb_refl, ?Hab', ?Hba, ?Ha, ?Hb)).
  reflexivity.
Qed.

Lemma pair_cycle a b :
  a ≠ b →
  find_cycle 3 [(a, [b]); (b, [a])] [a; b] (mkDfs ∅ ∅) = Some (Some a).
Proof.
  intros Hab.
  assert (Hba : String.eqb a b = false) by by apply String.eqb_neq.
  simpl.
  rewrite (bool_decide_eq_false_2 (a ∈ (∅ : gset string))) by set_solver.
  rewrite ?String.eqb_refl. simpl.
  rewrite (bool_decide_eq_false_2 (b ∈ ({[a]} ∪ ∅ : gset string)))
    by set_solver.
  rewrite Hba, ?String.eqb_refl. simpl.
  rewrite (bool_decide_eq_true_2
             (a ∈ ({[b]} ∪ ({[a]} ∪ ∅) : gset string))) by set_solver.
  reflexivity.
Qed.

(** Every coRun rule of two distinct tasks, neither named like a member of
    [Object.prototype], is reported as a circular dependency: the traversal
    goes from one task to the other and finds the first again, over the
    edge it came by. *)
Lemma pair_reported_as_cycle a b st :
  a ≠ b → Dict.inherited a = false → Dict.inherited b = false →
  ∃ t, (t = a ∨ t = b)
       ∧ checkCircularCoRuns [coRun [a; b]] st = Ok (cycle_reported t st).
Proof.
  intros Hab Ha Hb. unfold checkCircularCoRuns.
  rewrite (pair_graph a b Hab Ha Hb).
  simpl mbind. simpl length.
  assert (Hk : Dict.keys [(a, [b]); (b, [a])] = [a; b]
               ∨ Dict.keys [(a, [b]); (b, [a])] = [b; a]).
  { unfold Dict.keys, Dict.entries.
    rewrite !filter_cons, filter_nil. simpl.
    destruct (Dict.array_index a) as [x|], (Dict.array_index b) as [y|];
      simpl; auto.
    destruct (y <? x)%Z; simpl; auto. }
  destruct Hk as [-> | ->].
  - exists a. split; [by left|]. by rewrite (pair_cycle a b Hab).
  - exists b. split; [by right|].
    assert (Hg : find_cycle 3 [(a, [b]); (b, [a])] [b; a] (mkDfs ∅ ∅)
                 = Some (Some b)).
    { assert (Hab' : String.eqb a b = false) by by apply String.eqb_neq.
      simpl.
      rewrite (bool_decide_eq_false_2 (b ∈ (∅ : gset string))) by set_solver.
      rewrite Hab', ?String.eqb_refl. simpl.
      rewrite (bool_decide_eq_false_2 (a ∈ ({[b]} ∪ ∅ : gset string)))
        by set_solver.
      rewrite ?String.eqb_refl. simpl.
      rewrite (bool_decide_eq_true_2
                 (b ∈ ({[a]} ∪ ({[b]} ∪ ∅) : gset string))) by set_solver.
      reflexivity. }
    by rewrite Hg.
Qed.

End GraphFacts.

(** ** The run as a sequence of passes *)

Module Pipeline.
Import JS Validation Spec Invariants Facts.

Definition pass : Type := ValidationResult → res ValidationResult.

(** The passes of [validateAllData], in the order it calls them. *)
Definition passes (args : ValidateAllDataArgs) : list pass :=
  let cs := clients args in
  let ws := workers args in
  let ts := tasks args in
  let rs := default [] (rules args) in
  [ checkMissingColumns EClients cs;
    checkDuplicateIds EClients cs "ClientID";
    checkOutOfRange EClients cs "PriorityLevel" 1 5;
    checkMalformedLists EClients cs "RequestedTaskIDs" false;
    checkJSONFormat EClients cs "AttributesJSON";
    checkMissingColumns EWorkers ws;
    checkDuplicateIds EWorkers ws "WorkerID";
    checkMalformedLists EWorkers ws "Skills" false;
    checkMalformedLists EWorkers ws "AvailableSlots" true;
    checkOutOfRange EWorkers ws "MaxLoadPerPhase" 1 10;
    checkOverloadedWorkers ws;
    checkMissingColumns ETasks ts;
    checkDuplicateIds ETasks ts "TaskID";
    checkMalformedLists ETasks ts "RequiredSkills" false;
    checkMalformedLists ETasks ts "PreferredPhases" true;
    checkOutOfRange ETasks ts "Duration" 1 100;
    checkOutOfRange ETasks ts "MaxConcurrent" 1 10;
    checkMaxConcurrencyFeasibility ws ts;
    check_task_references cs ts;
    check_skill_coverage ws ts;
    checkCircularCoRuns rs;
    checkPhaseSlotSaturation ws ts ].

(** Running passes one after the other on the shared accumulators; the
    first exception ends the run. *)
Fixpoint run_passes (ps : list pass) (st : ValidationResult)
  : res ValidationResult :=
  match ps with
  | [] => Ok st
  | p :: ps' => st' ← p st; run_passes ps' st'
  end.

(** What a later state keeps of an earlier one: the summary and the
    suggestions as prefixes, with at least as many new summary lines as new
    suggestions, and every field that had an error still has one. *)
Definition extends (st st' : ValidationResult) : Prop :=
  (∃ ls lg, summary st' = (summary st ++ ls)%list
            ∧ suggestions st' = (suggestions st ++ lg)%list
            ∧ (length lg ≤ length ls)%nat)
  ∧ ∀ e k f, is_Some (get_error e k f st) → is_Some (get_error e k f st').

(** No field error of the state is the empty string. *)
Definition messages_nonempty (st : ValidationResult) : Prop :=
  ∀ e k f m, get_error e k f st = Some m → m ≠ EmptyString.

#[global] Instance Entity_eq_dec : EqDecision Entity.
Proof. solve_decision. Defined.

Lemma bind_ret {A : Type} (m : res A) : m ≫= Ok = m.
Proof. by destruct m. Qed.

Lemma validateAllData_passes args :
  validateAllData args = run_passes (passes args) init.
Proof.
  unfold validateAllData, passes. simpl.
  repeat match goal with
         | |- (?m ≫= _) = (?m ≫= _) =>
             destruct m; simpl; [|reflexivity|reflexivity]
         end.
  by rewrite bind_ret.
Qed.

Lemma run_passes_app ps1 ps2 st :
  run_passes (ps1 ++ ps2) st = run_passes ps1 st ≫= run_passes ps2.
Proof.
  revert st. induction ps1 as [|p ps1 IH]; intros st; simpl; [done|].
  destruct (p st); simpl; auto.
Qed.

(** [errors[e][k][f]] after a write. *)
Lemma get_error_set_error_cases e k f e' k' f' m st :
  get_error e k f (set_error e' k' f' m st)
  = if decide (e = e' ∧ k = k' ∧ f = f') then Some m else get_error e k f st.
Proof.
  unfold get_error, set_error; simpl.
  destruct (decide (e = e')) as [<-|He].
  - rewrite rows_of_with_rows.
    destruct (decide (k = k')) as [<-|Hk].
    + rewrite lookup_insert_eq; simpl.
      destruct (decide (f = f')) as [<-|Hf].
      * rewrite lookup_insert_eq. by rewrite decide_True.
      * rewrite lookup_insert_ne by done. rewrite decide_False by tauto.
        by destruct (rows_of e (errors st) !! k).
    + rewrite lookup_insert_ne by done. by rewrite decide_False by tauto.
  - rewrite rows_of_with_rows_ne by done. by rewrite decide_False by tauto.
Qed.

Lemma append_nonempty_r a b : b ≠ EmptyString → a ++ b ≠ EmptyString.
Proof. intros Hb. destruct a; simpl; [done | discriminate]. Qed.

(** Every pass changes the accumulators through three writes only: a
    field error with a message that is not empty, a summary line, and a
    summary line followed by a suggestion.  So a relation between states
    that is a preorder and that the three writes keep is kept by every
    pass. *)
Section writers.
Variable R : ValidationResult → ValidationResult → Prop.
Hypothesis R_refl : ∀ st, R st st.
Hypothesis R_trans : ∀ s1 s2 s3, R s1 s2 → R s2 s3 → R s1 s3.
Hypothesis R_error : ∀ e k f m st,
  m ≠ EmptyString → R st (set_error e k f m st).
Hypothesis R_summary : ∀ m st, R st (push_summary m st).
Hypothesis R_suggest : ∀ g m st,
  R st (push_suggestion g (push_summary m st)).

Ltac writes_tac :=
  lazymatch goal with
  | |- R ?st ?st => apply R_refl
  | |- R _ (push_suggestion _ (push_summary _ _)) =>
      eapply R_trans; [|apply R_suggest]; writes_tac
  | |- R _ (push_summary _ _) =>
      eapply R_trans; [|apply R_summary]; writes_tac
  | |- R _ (set_error _ _ _ ?m _) =>
      eapply R_trans;
      [|apply R_error;
        first [ discriminate
              | apply append_nonempty_r; discriminate ]];
      writes_tac
  end.

Ltac loop_tac :=
  apply (forEach_rel R R_refl R_trans).

Lemma fold_set_error_writes e key (cols : list string) m st :
  m ≠ EmptyString →
  R st (fold_left (fun st col => set_error e key col m st) cols st).
Proof.
  intros Hm. revert st. induction cols as [|c cols IH]; intros st; simpl.
  - apply R_refl.
  - eapply R_trans; [apply R_error, Hm | apply IH].
Qed.

Lemma checkMissingColumns_writes e rows st st' :
  checkMissingColumns e rows st = Ok st' → R st st'.
Proof.
  unfold checkMissingColumns. destruct rows as [|row0 rows]; intros H.
  - injection H as <-. writes_tac.
  - destruct (filter _ _) as [|c cols] eqn:Hm.
    + injection H as <-. writes_tac.
    + apply (forEach_rel R R_refl R_trans) in H.
      * eapply R_trans; [apply R_summary | exact H].
      * intros a j t t' [= <-].
        apply (fold_set_error_writes e (row_key a j) (c :: cols)).
        discriminate.
Qed.

Lemma checkDuplicateIds_writes e rows idField st st' :
  checkDuplicateIds e rows idField st = Ok st' → R st st'.
Proof.
  unfold checkDuplicateIds. loop_tac.
  intros [id indices] j t t' H.
  destruct (1 <? length indices)%nat.
  - apply (forEach_rel R R_refl R_trans) in H.
    + eapply R_trans; [apply R_summary | exact H].
    + intros idx k u u' Hu. destruct (rows !! idx); [|discriminate].
      injection Hu as <-. writes_tac.
  - injection H as <-. writes_tac.
Qed.

Lemma checkMalformedLists_writes e rows f numeric st st' :
  checkMalformedLists e rows f numeric st = Ok st' → R st st'.
Proof.
  loop_tac. intros r j t t' H. unfold checkMalformedLists_row in H.
  destruct (negb _); [injection H as <-; writes_tac|].
  destruct (list_of_field _ _) as [l| |]; [| |discriminate].
  - destruct numeric; [|injection H as <-; writes_tac].
    destruct (negb (forallb _ _)); [discriminate|].
    destruct (filter _ l); injection H as <-; writes_tac.
  - injection H as <-; writes_tac.
Qed.

Lemma checkOutOfRange_writes e rows f lo hi st st' :
  checkOutOfRange e rows f lo hi st = Ok st' → R st st'.
Proof.
  loop_tac. intros r j t t' H. unfold checkOutOfRange_row in H.
  destruct (is_blank _); [injection H as <-; writes_tac|].
  inv_bind H. destruct (out_of_range _ _ _); injection H as <-; writes_tac.
Qed.

Lemma checkJSONFormat_writes e rows f st st' :
  checkJSONFormat e rows f st = Ok st' → R st st'.
Proof.
  loop_tac. intros r j t t' H. unfold checkJSONFormat_row in H.
  destruct (negb _); [injection H as <-; writes_tac|].
  destruct (JSON.parse_val _); [| |discriminate];
    injection H as <-; writes_tac.
Qed.

Lemma checkOverloadedWorkers_writes ws st st' :
  checkOverloadedWorkers ws st = Ok st' → R st st'.
Proof.
  loop_tac. intros r j t t' H. unfold checkOverloadedWorkers_row in H.
  destruct (list_of_field _ _); [| |discriminate].
  - inv_bind H. case_if H; injection H as <-; writes_tac.
  - injection H as <-; writes_tac.
Qed.

Lemma checkMaxConcurrencyFeasibility_writes ws ts st st' :
  checkMaxConcurrencyFeasibility ws ts st = Ok st' → R st st'.
Proof.
  loop_tac. intros r j t t' H.
  unfold checkMaxConcurrencyFeasibility_row in H.
  destruct (negb _); [injection H as <-; writes_tac|].
  destruct (list_of_field _ _); [| |discriminate].
  - inv_bind H. inv_bind H. case_if H; injection H as <-; writes_tac.
  - injection H as <-; writes_tac.
Qed.

Lemma check_task_references_writes cs ts st st' :
  check_task_references cs ts st = Ok st' → R st st'.
Proof.
  loop_tac. intros r j t t' H. unfold check_task_references_row in H.
  destruct (truthy _); [|injection H as <-; writes_tac].
  inv_bind H. revert H. loop_tac.
  intros v k u u' H. unfold check_requested_task in H.
  destruct (truthy v); [|injection H as <-; writes_tac].
  inv_bind H. destruct (negb _); injection H as <-; writes_tac.
Qed.

Lemma check_skill_coverage_writes ws ts st st' :
  check_skill_coverage ws ts st = Ok st' → R st st'.
Proof.
  unfold check_skill_coverage. intros H. inv_bind H. revert H.
  loop_tac. intros r j t t' H. unfold check_skill_coverage_row in H.
  destruct (truthy _); [|injection H as <-; writes_tac].
  inv_bind H. revert H. loop_tac.
  intros v k u u' H. unfold check_required_skill in H.
  destruct (truthy v); [|injection H as <-; writes_tac].
  inv_bind H. destruct (negb _); injection H as <-; writes_tac.
Qed.

Lemma checkCircularCoRuns_writes rs st st' :
  checkCircularCoRuns rs st = Ok st' → R st st'.
Proof.
  unfold checkCircularCoRuns. intros H. inv_bind H.
  destruct (find_cycle _ _ _ _) as [[task|]|]; [| |discriminate];
    injection H as <-; writes_tac.
Qed.

Lemma checkPhaseSlotSaturation_writes ws ts st st' :
  checkPhaseSlotSaturation ws ts st = Ok st' → R st st'.
Proof.
  unfold checkPhaseSlotSaturation. intros H. inv_bind H. revert H.
  loop_tac. intros r j t t' H. unfold report_phase in H.
  inv_bind H. case_if H; injection H as <-; writes_tac.
Qed.

Lemma pass_writes args (p : pass) st st' :
  p ∈ passes args → p st = Ok st' → R st st'.
Proof.
  unfold passes. intros Hp.
  repeat (apply elem_of_cons in Hp as [->|Hp];
          [first [ apply checkMissingColumns_writes
                 | apply checkDuplicateIds_writes
                 | apply checkOutOfRange_writes
                 | apply checkMalformedLists_writes
                 | apply checkJSONFormat_writes
                 | apply checkOverloadedWorkers_writes
                 | apply checkMaxConcurrencyFeasibility_writes
                 | apply check_task_references_writes
                 | apply check_skill_coverage_writes
                 | apply checkCircularCoRuns_writes
                 | apply checkPhaseSlotSaturation_writes ]|]).
  by apply elem_of_nil in Hp.
Qed.

Lemma run_passes_writes args ps st st' :
  (∀ p, p ∈ ps → p ∈ passes args) →
  run_passes ps st = Ok st' → R st st'.
Proof.
  revert st. induction ps as [|p ps IH]; intros st Hps H; simpl in H.
  - injection H as <-. apply R_refl.
  - apply bind_Ok in H as (st1 & H1 & H).
    eapply R_trans.
    + eapply pass_writes; [apply Hps, list_elem_of_here | exact H1].
    + apply IH; [|done]. intros q Hq. by apply Hps, list_elem_of_further.
Qed.

End writers.

End Pipeline.

(** ** The readers of a validation result *)

Module Callers.
Import JS Validation.

(** [validation?.summary?.length === 0 ? 'clean' : 'has_errors'] of
    [handleExportRules]; [None] is the state before the first run. *)
Definition validationStatus (validation : option ValidationResult)
  : string :=
  match validation with
  | Some v => if (length (summary v) =? 0)%nat then "clean" else "has_errors"
  | None => "has_errors"
  end.

(** The condition of the validation summary card,
    [validation && (validation.summary.length > 0
                    || validation.suggestions.length > 0)]. *)
Definition summary_card_shown (validation : option ValidationResult)
  : bool :=
  match validation with
  | Some v =>
      (0 <? length (summary v))%nat || (0 <? length (suggestions v))%nat
  | None => false
  end.

(** [validation?.summary?.length > 0] of the correction panel, which
    renders nothing when it is false. *)
Definition hasValidationErrors (validation : option ValidationResult)
  : bool :=
  match validation with
  | Some v => (0 <? length (summary v))%nat
  | None => false
  end.



(** [addRowIds]: every row gets the column [id], its [idField] when that
    is truthy and a random text otherwise; [random] gives the text drawn
    for the row at an index. *)
Definition addRowIds (random : nat → string) (rows : list row)
    (idField : string) : list row :=
  imap (fun i r =>
          let id := match r !! idField with
                    | Some c => if truthy (cell_val c) then c
                                else CStr (random i)
                    | None => CStr (random i)
                    end in
          <["id" := id]> r) rows.

(** [a === b] on the values a cell holds: as [includes] compares, but for
    [NaN], which equals nothing. *)
Definition strict_equal (a b : jsval) : bool :=
  match a, b with
  | JNum NaN, _ | _, JNum NaN => false
  | _, _ => same_value_zero a b
  end.

(** [row.id === updatedRow.id] *)
Definition same_id (r r' : row) : bool :=
  strict_equal (field r "id") (field r' "id").

(** [processRowUpdate] of the editable grid: the rows handed to
    [onRowsChange], [{ ...row, ...updatedRow }] for the rows with the id of
    the edited one. *)
Definition processRowUpdate (rows : list row) (updatedRow : row)
  : list row :=
  map (fun r => if same_id r updatedRow then updatedRow ∪ r else r) rows.

(** The rows a grid of the page shows, [filtered ? filtered.clients :
    clients], and the rows the page stores after an edit in that grid,
    [onRowsChange] being the setter of the rows. *)
Definition shown (rows : list row) (filtered : option (list row))
  : list row :=
  default rows filtered.

Definition rows_after_edit (rows : list row) (filtered : option (list row))
    (updatedRow : row) : list row :=
  processRowUpdate (shown rows filtered) updatedRow.

End Callers.

(** ** What a run keeps and what its readers see *)

Module PipelineFacts.
Import JS Validation Spec Invariants Facts Pipeline Callers.

Lemma extends_refl st : extends st st.
Proof.
  split; [|done]. exists [], []. by rewrite !app_nil_r.
Qed.

Lemma extends_trans s1 s2 s3 : extends s1 s2 → extends s2 s3 → extends s1 s3.
Proof.
  intros [(ls & lg & Hs & Hg & Hl) He] [(ls' & lg' & Hs' & Hg' & Hl') He'].
  split; [|by auto].
  exists (ls ++ ls')%list, (lg ++ lg')%list.
  rewrite Hs', Hg', Hs, Hg, <- !app_assoc, !length_app.
  repeat split; lia.
Qed.

Lemma extends_set_error e k f m st : extends st (set_error e k f m st).
Proof.
  split.
  - exists [], []. simpl. by rewrite !app_nil_r.
  - intros e' k' f' H. rewrite get_error_set_error_cases.
    by case_decide.
Qed.

Lemma extends_push_summary m st : extends st (push_summary m st).
Proof.
  split; [|done]. exists [m], []. simpl. rewrite app_nil_r.
  repeat split; lia.
Qed.

Lemma extends_suggest g m st :
  extends st (push_suggestion g (push_summary m st)).
Proof. split; [|done]. by exists [m], [g]. Qed.

(** The state a relation on states is read from, for [messages_nonempty]. *)
Definition keeps_nonempty (st st' : ValidationResult) : Prop :=
  messages_nonempty st → messages_nonempty st'.

Lemma keeps_nonempty_set_error e k f m st :
  m ≠ EmptyString → keeps_nonempty st (set_error e k f m st).
Proof.
  intros Hm Hst e' k' f' m'. rewrite get_error_set_error_cases.
  case_decide; [by intros [= <-] | apply Hst].
Qed.

Lemma messages_nonempty_init : messages_nonempty init.
Proof. intros e k f m. by rewrite get_error_init. Qed.

Lemma run_passes_prefix args ps1 ps2 r :
  passes args = (ps1 ++ ps2)%list → validateAllData args = Ok r →
  ∃ st, run_passes ps1 init = Ok st ∧ run_passes ps2 st = Ok r.
Proof.
  intros Hps. rewrite validateAllData_passes, Hps, run_passes_app.
  apply bind_Ok.
Qed.

(** X1.  A run only adds to what it has recorded.  At whatever point the
    sequence of passes of [validateAllData] is cut, the state reached there
    is kept by the result: its summary lines and its suggestions are
    prefixes of the final ones, and every field that carried an error still
    carries one. *)
Theorem passes_only_add args ps1 ps2 st r :
  passes args = (ps1 ++ ps2)%list →
  run_passes ps1 init = Ok st →
  validateAllData args = Ok r →
  extends st r.
Proof.
  intros Hps H1 Hr.
  destruct (run_passes_prefix args ps1 ps2 r Hps Hr) as (st1 & H1' & H2).
  rewrite H1 in H1'. injection H1' as <-.
  apply (run_passes_writes extends extends_refl extends_trans
           (fun e k f m st _ => extends_set_error e k f m st)
           extends_push_summary extends_suggest args ps2 st r); [|done].
  intros p Hp. rewrite Hps. apply elem_of_app. by right.
Qed.

(** X2.  Every suggestion of a result stands beside a summary line: a
    result never has more suggestions than summary lines. *)
Theorem suggestions_bounded_by_summary args r :
  validateAllData args = Ok r →
  (length (suggestions r) ≤ length (summary r))%nat.
Proof.
  rewrite validateAllData_passes. intros H.
  apply (run_passes_writes extends extends_refl extends_trans
           (fun e k f m st _ => extends_set_error e k f m st)
           extends_push_summary extends_suggest args) in H; [|done].
  destruct H as [(ls & lg & -> & -> & Hl) _]. simpl. lia.
Qed.

Lemma validateAllData_messages_nonempty args r e key f m :
  validateAllData args = Ok r →
  get_error e key f r = Some m →
  m ≠ EmptyString.
Proof.
  rewrite validateAllData_passes. intros H.
  assert (Hk : keeps_nonempty init r).
  { apply (run_passes_writes keeps_nonempty) with args (passes args).
    - intros st Hst. exact Hst.
    - intros s1 s2 s3 H12 H23 H1. by apply H23, H12.
    - apply keeps_nonempty_set_error.
    - intros m' st Hst. exact Hst.
    - intros g m' st Hst. exact Hst.
    - done.
    - done. }
  apply Hk, messages_nonempty_init.
Qed.

(** X3.  No field error of a result is the empty text, so a reader that
    tests an error for truth sees every one of them. *)
Theorem field_errors_nonempty args r e key f m :
  validateAllData args = Ok r →
  get_error e key f r = Some m →
  m ≠ EmptyString.
Proof. apply validateAllData_messages_nonempty. Qed.

(** X4.  The export marks a run as clean exactly when the run recorded
    nothing at all: no summary line, no suggestion and no field error. *)
Theorem validationStatus_clean_iff_nothing_recorded args r :
  validateAllData args = Ok r →
  validationStatus (Some r) = "clean" ↔ r = init.
Proof.
  intros H. apply EngineFacts.validateAllData_reported in H.
  unfold validationStatus. split.
  - destruct H as [->|Hs]; [done|].
    destruct (summary r); [done | discriminate].
  - by intros ->.
Qed.

(** X5.  The summary card and the correction panel appear for the same
    results: the test of the card for suggestions adds nothing, a result
    with a suggestion has a summary line. *)
Theorem summary_card_iff_errors args r :
  validateAllData args = Ok r →
  summary_card_shown (Some r) = hasValidationErrors (Some r).
Proof.
  intros H. apply EngineFacts.validateAllData_reported in H.
  unfold summary_card_shown, hasValidationErrors.
  destruct H as [->|Hs]; [done|].
  destruct (summary r); [done | reflexivity].
Qed.

Lemma passes_only_add_witness :
  let args := mkArgs [client_priority_zero] [] [] None in
  ∃ st r, run_passes (take 3 (passes args)) init = Ok st
          ∧ validateAllData args = Ok r
          ∧ extends st r.
Proof.
  eexists _, _. split; [vm_compute; reflexivity|].
  split; [vm_compute; reflexivity|].
  apply (passes_only_add (mkArgs [client_priority_zero] [] [] None)
           (take 3 (passes (mkArgs [client_priority_zero] [] [] None)))
           (drop 3 (passes (mkArgs [client_priority_zero] [] [] None)))).
  - reflexivity.
  - vm_compute. reflexivity.
  - vm_compute. reflexivity.
Defined.

Lemma suggestions_bounded_by_summary_witness :
  ∃ r, validateAllData (mkArgs [client_priority_zero] [] [] None) = Ok r
       ∧ (length (suggestions r) ≤ length (summary r))%nat.
Proof.
  eexists. split; [vm_compute; reflexivity|].
  apply (suggestions_bounded_by_summary
           (mkArgs [client_priority_zero] [] [] None)).
  vm_compute. reflexivity.
Defined.

Lemma field_errors_nonempty_witness :
  ∃ r m, validateAllData (mkArgs [client_priority_zero] [] [] None) = Ok r
         ∧ get_error EClients "C1" "PriorityLevel" r = Some m
         ∧ m ≠ EmptyString.
Proof.
  eexists _, _. split; [vm_compute; reflexivity|].
  split; [vm_compute; reflexivity|].
  eapply (field_errors_nonempty
            (mkArgs [client_priority_zero] [] [] None) _
            EClients "C1" "PriorityLevel").
  - vm_compute. reflexivity.
  - vm_compute. reflexivity.
Defined.

Lemma validationStatus_clean_iff_nothing_recorded_witness :
  ∃ r, validateAllData (mkArgs [client_priority_zero] [] [] None) = Ok r
       ∧ (validationStatus (Some r) = "clean" ↔ r = init).
Proof.
  eexists. split; [vm_compute; reflexivity|].
  apply (validationStatus_clean_iff_nothing_recorded
           (mkArgs [client_priority_zero] [] [] None)).
  vm_compute. reflexivity.
Defined.

Lemma summary_card_iff_errors_witness :
  ∃ r, validateAllData (mkArgs [client_priority_zero] [] [] None) = Ok r
       ∧ summary_card_shown (Some r) = hasValidationErrors (Some r).
Proof.
  eexists. split; [vm_compute; reflexivity|].
  apply (summary_card_iff_errors
           (mkArgs [client_priority_zero] [] [] None)).
  vm_compute. reflexivity.
Defined.

End PipelineFacts.

(** ** The range check of the clients' priority *)

Module RangeSpec.
Import JS Validation.

(** A value the range check reads within the modelled fragment: its
    number is one, and it prints as it is. *)
Definition readable (v : jsval) : Prop :=
  numbers_safe v = true ∧ ∃ n, to_number v = Ok n.

(** A value that [Number] takes to no number, or to one below 1 or
    above 5, and that is not left out as undefined, null or the empty
    string. *)
Definition priority_out (v : jsval) : bool :=
  negb (is_blank v)
  && match to_number v with
     | Ok (Int z) => (z <? 1) || (5 <? z)
     | Ok NaN => true
     | _ => false
     end.

(** The summary line of the row at [idx] whose PriorityLevel is [v]. *)
Definition priority_line (idx : nat) (v : jsval) : string :=
  "clients: Row " ++ string_of_nat (idx + 1) ++ " PriorityLevel value "
  ++ to_string v ++ " is out of range [1, 5]".

(** The lines of the rows out of range, in the order of the rows, the
    first of which is at [idx]. *)
Fixpoint priority_lines (rows : list row) (idx : nat) : list string :=
  match rows with
  | [] => []
  | r :: rest =>
      ((if priority_out (field r "PriorityLevel")
        then [priority_line idx (field r "PriorityLevel")] else [])
       ++ priority_lines rest (S idx))%list
  end.

Definition priority_message : string := "Value must be between 1 and 5".

(** No row is reported under the name of a member of
    [Object.prototype]. *)
Definition keyed_plainly (rows : list row) : Prop :=
  ∀ i c, rows !! i = Some c → Dict.inherited (row_key c i) = false.

(** What the check leaves of the client rows [cs], from the accumulators
    [st] to [st']: a line for each row out of range, in order; the field
    error of each such row; and nothing else. *)
Definition priority_checked (cs : list row) (st st' : ValidationResult)
  : Prop :=
  suggestions st' = suggestions st
  ∧ summary st' = (summary st ++ priority_lines cs 0)%list
  ∧ (∀ i c, cs !! i = Some c →
            priority_out (field c "PriorityLevel") = true →
            get_error EClients (row_key c i) "PriorityLevel" st'
            = Some priority_message)
  ∧ (∀ e k f,
       (∀ i c, cs !! i = Some c →
               priority_out (field c "PriorityLevel") = true →
               ¬ (e = EClients ∧ k = row_key c i ∧ f = "PriorityLevel")) →
       get_error e k f st' = get_error e k f st).

(** Client rows for the examples: priorities 0.0, 5, none, 6 and 1. *)
Definition priority_rows : list row :=
  [ list_to_map [("id", CStr "C1"); ("PriorityLevel", CStr "0.0")];
    list_to_map [("id", CStr "C2"); ("PriorityLevel", CNum (Int 5))];
    list_to_map [("id", CStr "C3"); ("PriorityLevel", CStr "")];
    list_to_map [("id", CStr "C4"); ("PriorityLevel", CNum (Int 6))];
    list_to_map [("id", CStr "C5"); ("PriorityLevel", CStr " 1 ")] ].

End RangeSpec.

Module RangeFacts.
Import JS Validation Spec Invariants Facts Pipeline PipelineFacts RangeSpec.

Local Open Scope nat_scope.

(** The body of the loop on one row. *)
Lemma priority_row r idx st :
  readable (field r "PriorityLevel") →
  checkOutOfRange_row EClients "PriorityLevel" 1 5 r idx st
  = Ok (if priority_out (field r "PriorityLevel")
        then push_summary (priority_line idx (field r "PriorityLevel"))
               (set_error EClients (row_key r idx) "PriorityLevel"
                  priority_message st)
        else st).
Proof.
  intros [_ [n Hn]]. unfold checkOutOfRange_row, priority_out.
  destruct (is_blank _); [done|]. rewrite Hn. simpl.
  destruct n as [|z]; [reflexivity|].
  unfold out_of_range. simpl. by destruct (z <? 1)%Z, (5 <? z)%Z.
Qed.

Lemma priority_loop rows : ∀ idx st,
  Forall (fun r => readable (field r "PriorityLevel")) rows →
  ∃ st',
    forEach_from (checkOutOfRange_row EClients "PriorityLevel" 1 5)
                 rows idx st = Ok st'
    ∧ suggestions st' = suggestions st
    ∧ summary st' = (summary st ++ priority_lines rows idx)%list
    ∧ (∀ k, get_error EClients k "PriorityLevel" st = Some priority_message →
            get_error EClients k "PriorityLevel" st' = Some priority_message)
    ∧ (∀ i c, rows !! i = Some c →
              priority_out (field c "PriorityLevel") = true →
              get_error EClients (row_key c (idx + i)) "PriorityLevel" st'
              = Some priority_message)
    ∧ (∀ e k f,
         (∀ i c, rows !! i = Some c →
                 priority_out (field c "PriorityLevel") = true →
                 ¬ (e = EClients ∧ k = row_key c (idx + i)
                    ∧ f = "PriorityLevel")) →
         get_error e k f st' = get_error e k f st).
Proof.
  induction rows as [|r rows IH]; intros idx st Hall.
  - exists st. simpl. rewrite app_nil_r. repeat split; try done.
  - apply Forall_cons in Hall as [Hr Hall].
    cbn [forEach_from]. rewrite (priority_row r idx st Hr).
    cbn [mbind res_bind].
    set (st1 := if priority_out (field r "PriorityLevel")
                then push_summary
                       (priority_line idx (field r "PriorityLevel"))
                       (set_error EClients (row_key r idx) "PriorityLevel"
                          priority_message st)
                else st).
    destruct (IH (S idx) st1 Hall) as (st' & H & Hg & Hs & Hkeep & Hset & Hrest).
    exists st'. split; [done|].
    assert (Hkeep1 : ∀ k,
              get_error EClients k "PriorityLevel" st = Some priority_message →
              get_error EClients k "PriorityLevel" st1
              = Some priority_message).
    { intros k Hk. subst st1. destruct (priority_out _); [|done].
      rewrite get_error_push_summary, get_error_set_error_cases.
      by case_decide. }
    repeat split.
    + rewrite Hg. subst st1. by destruct (priority_out _).
    + rewrite Hs. subst st1. cbn [priority_lines].
      destruct (priority_out _); simpl; [|done].
      by rewrite <- app_assoc.
    + intros k Hk. by apply Hkeep, Hkeep1.
    + intros [|i] c Hc Hout.
      * injection Hc as <-. rewrite Nat.add_0_r. apply Hkeep.
        subst st1. rewrite Hout.
        rewrite get_error_push_summary. apply get_error_set_error.
      * replace (idx + S i) with (S idx + i) by lia. by apply Hset.
    + intros e k f Hne. rewrite Hrest.
      * subst st1. destruct (priority_out _) eqn:Hout; [|done].
        rewrite get_error_push_summary, get_error_set_error_cases.
        rewrite decide_False; [done|].
        specialize (Hne 0 r eq_refl Hout). by rewrite Nat.add_0_r in Hne.
      * intros i c Hc Hout.
        replace (S idx + i) with (idx + S i) by lia. by apply (Hne (S i)).
Qed.

Lemma priority_check_returns cs st :
  Forall (fun c => readable (field c "PriorityLevel")) cs →
  ∃ st', checkOutOfRange EClients cs "PriorityLevel" 1 5 st = Ok st'
         ∧ priority_checked cs st st'.
Proof.
  intros Hall.
  destruct (priority_loop cs 0 st Hall)
    as (st' & H & Hg & Hs & _ & Hset & Hrest).
  exists st'. split; [done|]. repeat split; try done.
Qed.

Lemma priority_lines_elem rows : ∀ idx i c,
  rows !! i = Some c → priority_out (field c "PriorityLevel") = true →
  priority_line (idx + i) (field c "PriorityLevel")
  ∈ priority_lines rows idx.
Proof.
  induction rows as [|r rows IH]; intros idx [|i] c Hc Hout; try done.
  - injection Hc as <-. cbn [priority_lines]. rewrite Hout, Nat.add_0_r.
    apply list_elem_of_here.
  - cbn [priority_lines]. apply elem_of_app. right.
    replace (idx + S i) with (S idx + i) by lia. by apply IH.
Qed.

(** C8.  The third pass of a run is the range check of the clients'
    PriorityLevel on the closed interval from 1 to 5.  On rows whose value
    it reads within the fragment, none of them reported under the name of
    a member of [Object.prototype], the check returns, and what it leaves
    is a summary line for each row out of range, in the order of the rows,
    the field error of each such row, and nothing else.  A row is out of
    range when its value is not undefined, null or the empty string and
    [Number] takes it to no number or to one below 1 or above 5: so a
    value that coerces to 0 or to 6 is flagged, one that coerces to 1 or
    to 5 is not, and a row without a value is skipped.  The line and the
    field error of a flagged row are in the result of the run. *)
Theorem priority_level_range_check args :
  let cs := clients args in
  let check := checkOutOfRange EClients cs "PriorityLevel" 1 5 in
  (passes args !! 2 = Some check
   ∧ validateAllData args = run_passes (passes args) init)
  ∧ (∀ st, Forall (fun c => readable (field c "PriorityLevel")) cs →
           keyed_plainly cs →
           ∃ st', check st = Ok st' ∧ priority_checked cs st st')
  ∧ (∀ r i c,
       validateAllData args = Ok r →
       Forall (fun c => readable (field c "PriorityLevel")) cs →
       keyed_plainly cs →
       cs !! i = Some c →
       priority_out (field c "PriorityLevel") = true →
       priority_line i (field c "PriorityLevel") ∈ summary r
       ∧ is_Some (get_error EClients (row_key c i) "PriorityLevel" r))
  ∧ (∀ v, priority_out v = true ↔
          is_blank v = false
          ∧ (to_number v = Ok NaN
             ∨ ∃ z, to_number v = Ok (Int z) ∧ (z < 1 ∨ 5 < z)%Z))
  ∧ (∀ v, is_blank v = false →
          to_number v = Ok (Int 0) ∨ to_number v = Ok (Int 6) →
          priority_out v = true)
  ∧ (∀ v, to_number v = Ok (Int 1) ∨ to_number v = Ok (Int 5) →
          priority_out v = false)
  ∧ (∀ v, v = JUndefined ∨ v = JNull ∨ v = JStr EmptyString →
          priority_out v = false).
Proof.
  intros cs check. split; [split; [done | apply validateAllData_passes]|].
  split; [intros st Hall _; by apply priority_check_returns|].
  split; [|split; [|split; [|split]]].
  - intros r i c Hr Hall _ Hc Hout.
    destruct (run_passes_prefix args (take 2 (passes args))
                (drop 2 (passes args)) r) as (st & H1 & H2);
      [by rewrite take_drop | done |].
    change (drop 2 (passes args)) with (check :: drop 3 (passes args)) in H2.
    cbn [run_passes] in H2. apply bind_Ok in H2 as (st' & Hst' & H2).
    destruct (priority_check_returns cs st Hall)
      as (st1 & Hst1 & _ & Hs & Hset & _).
    unfold check in Hst'. rewrite Hst1 in Hst'. injection Hst' as <-.
    assert (Hext : extends st1 r).
    { apply (run_passes_writes extends extends_refl extends_trans
               (fun e k f m st _ => extends_set_error e k f m st)
               extends_push_summary extends_suggest args
               (drop 3 (passes args)) st1 r); [|done].
      intros p Hp. by apply (subseteq_drop 3), Hp. }
    destruct Hext as [(ls & lg & Hsr & _ & _) Herr]. split.
    + rewrite Hsr, Hs. apply elem_of_app. left. apply elem_of_app. right.
      by apply (priority_lines_elem cs 0 i c).
    + apply Herr. rewrite (Hset i c Hc Hout). eauto.
  - intros v. unfold priority_out. rewrite andb_true_iff, negb_true_iff.
    split; intros [Hb H]; (split; [done|]).
    + destruct (to_number v) as [[|z]| |]; [by left | | done | done].
      right. exists z. split; [done|].
      apply orb_true_iff in H as [H|H]; apply Z.ltb_lt in H; lia.
    + destruct H as [-> | (z & -> & Hz)]; [done|].
      apply orb_true_iff. rewrite !Z.ltb_lt. lia.
  - intros v Hb [H|H]; unfold priority_out; by rewrite Hb, H.
  - intros v [H|H]; unfold priority_out; rewrite H; apply andb_false_r.
  - by intros v [-> | [-> | ->]].
Qed.

Lemma priority_level_range_check_witness :
  (∃ st',
     checkOutOfRange EClients priority_rows "PriorityLevel" 1 5 init = Ok st'
     ∧ priority_checked priority_rows init st')
  ∧ (∃ r, validateAllData (mkArgs priority_rows [] [] None) = Ok r
          ∧ priority_line 3 (JNum (Int 6)) ∈ summary r
          ∧ is_Some (get_error EClients "C4" "PriorityLevel" r)).
Proof.
  pose proof (priority_level_range_check (mkArgs priority_rows [] [] None))
    as (_ & Hcheck & Hrun & _).
  assert (Hread : Forall (fun c => readable (field c "PriorityLevel"))
                    priority_rows)
    by (repeat constructor; vm_compute; eauto).
  assert (Hkeys : keyed_plainly priority_rows).
  { intros i c Hc.
    repeat (destruct i as [|i]; [injection Hc as <-; reflexivity|]).
    discriminate. }
  split; [by apply Hcheck|].
  assert (Hr : ∃ r, validateAllData (mkArgs priority_rows [] [] None) = Ok r)
    by (eexists; vm_compute; reflexivity).
  destruct Hr as [r Hr]. exists r. split; [exact Hr|].
  exact (Hrun r 3%nat
           (list_to_map [("id", CStr "C4"); ("PriorityLevel", CNum (Int 6))])
           Hr Hread Hkeys eq_refl eq_refl).
Defined.

(** The run of the witness: the rows of priority 0.0 and 6 are flagged,
    those of priority 5 and 1 and the one without a priority are not. *)
Example priority_rows_run :
  ∃ r, validateAllData (mkArgs priority_rows [] [] None) = Ok r
       ∧ filter (fun l => String.prefix "clients: Row" l) (summary r)
         = ["clients: Row 1 PriorityLevel value 0.0 is out of range [1, 5]";
            "clients: Row 4 PriorityLevel value 6 is out of range [1, 5]"]
       ∧ get_error EClients "C1" "PriorityLevel" r
         = Some "Value must be between 1 and 5"
       ∧ get_error EClients "C2" "PriorityLevel" r = None
       ∧ get_error EClients "C3" "PriorityLevel" r = None
       ∧ get_error EClients "C4" "PriorityLevel" r
         = Some "Value must be between 1 and 5"
       ∧ get_error EClients "C5" "PriorityLevel" r = None.
Proof. eexists. repeat split; vm_compute; reflexivity. Qed.

End RangeFacts.

(** ** What the rule graph is and when the traversal reports *)

Module CycleSpec.
Import JS Validation.

(** [n] is listed in [graph[k] || []]. *)
Definition edge (g : graph) (k n : string) : Prop :=
  n ∈ default [] (Dict.get k g).

(** Two different tasks that some rule of [rs] lists together. *)
Definition listed_together (rs : list rule) (k n : string) : Prop :=
  ∃ r ts, r ∈ rs ∧ rule_tasks r = Some ts ∧ k ∈ ts ∧ n ∈ ts ∧ k ≠ n.

(** The rules [checkCircularCoRuns] keeps. *)
Definition coRunRules (rules : list rule) : list rule :=
  filter (fun r => String.eqb (rule_type r) "coRun") rules.

(** The tasks met and left again have no neighbour. *)
Definition left_are_leaves (g : graph) (d : dfs) : Prop :=
  ∀ x, x ∈ visited d → x ∉ recStack d → default [] (Dict.get x g) = [].

End CycleSpec.

Module CycleFacts.
Import JS Validation Spec Invariants Facts PhaseFacts CycleSpec.

Lemma existsb_eqb_elem (o : string) (l : list string) :
  existsb (String.eqb o) l = true ↔ o ∈ l.
Proof.
  rewrite existsb_exists. split.
  - intros (x & Hin & Heq). apply String.eqb_eq in Heq as <-.
    by apply list_elem_of_In.
  - intros Hin. exists o. split; [by apply list_elem_of_In|].
    apply String.eqb_refl.
Qed.

Lemma add_edge_edge task other g g' k n :
  add_edge task other g = Ok g' →
  edge g' k n ↔ edge g k n ∨ (k = task ∧ n = other ∧ task ≠ other).
Proof.
  unfold add_edge, edge. intros H.
  destruct (String.eqb_spec task other) as [Heq|Hne].
  { injection H as <-. split; [by left | intros [H|(_ & _ & H)]; done]. }
  destruct (Dict.get task g) as [ns|] eqn:Hg; [|discriminate].
  destruct (existsb _ ns) eqn:Hex; injection H as <-.
  - apply existsb_eqb_elem in Hex.
    split; [by left | intros [H|(-> & -> & _)]; [done | by rewrite Hg]].
  - assert (Hnot : other ∉ ns).
    { intros Hin. apply existsb_eqb_elem in Hin. congruence. }
    rewrite get_set. destruct (String.eqb_spec task k) as [<-|Hk]; simpl.
    + rewrite Hg. simpl. rewrite elem_of_app, list_elem_of_singleton. split.
      * intros [H|H]; [by left | by right].
      * intros [H|(_ & H & _)]; [by left | by right].
    + split; [by left | intros [H|(H & _)]; [done | congruence]].
Qed.

Lemma add_edges_edge task others : ∀ i g g' k n,
  forEach_from (fun o (_ : nat) g => add_edge task o g) others i g = Ok g' →
  edge g' k n ↔ edge g k n ∨ (k = task ∧ n ∈ others ∧ task ≠ n).
Proof.
  induction others as [|o others IH]; intros i g g' k n H; simpl in H.
  - injection H as <-.
    split; [by left | intros [H|(_ & H & _)]; [done|]].
    by apply elem_of_nil in H.
  - apply bind_Ok in H as (g1 & H1 & H).
    rewrite (IH _ _ _ k n H), (add_edge_edge _ _ _ _ k n H1), elem_of_cons.
    split.
    + intros [[H0|(-> & -> & H0)]|(-> & H0 & Hne)]; eauto 6.
    + intros [H0|(-> & [->|H0] & Hne)]; eauto 6.
Qed.

Lemma add_task_edge ts task g g' k n :
  add_task ts task g = Ok g' →
  edge g' k n ↔ edge g k n ∨ (k = task ∧ n ∈ ts ∧ task ≠ n).
Proof.
  unfold add_task, forEach. intros H.
  rewrite (add_edges_edge _ _ _ _ _ k n H).
  destruct (Dict.get task g) eqn:Hg; [done|].
  destruct (Dict.inherited task); [done|].
  assert (He : edge (Dict.set task [] g) k n ↔ edge g k n); [|by rewrite He].
  unfold edge. rewrite get_set.
  destruct (String.eqb_spec task k) as [<-|Hk]; [|done].
  by rewrite Hg.
Qed.

Lemma add_tasks_edge ts l : ∀ i g g' k n,
  forEach_from (fun task (_ : nat) g => add_task ts task g) l i g = Ok g' →
  edge g' k n ↔ edge g k n ∨ (k ∈ l ∧ n ∈ ts ∧ k ≠ n).
Proof.
  induction l as [|t l IH]; intros i g g' k n H; simpl in H.
  - injection H as <-. split; [by left | intros [H|(H & _)]; [done|]].
    by apply elem_of_nil in H.
  - apply bind_Ok in H as (g1 & H1 & H).
    rewrite (IH _ _ _ k n H), (add_task_edge _ _ _ _ k n H1), elem_of_cons.
    split.
    + intros [[H0|(-> & H0 & Hne)]|(H0 & Hn & Hne)]; eauto 6.
    + intros [H0|([->|H0] & Hn & Hne)]; eauto 6.
Qed.

Lemma build_graph_from_edge rs : ∀ i g0 g k n,
  forEach_from (fun r (_ : nat) g => add_rule r g) rs i g0 = Ok g →
  edge g k n ↔ edge g0 k n ∨ listed_together rs k n.
Proof.
  induction rs as [|r rs IH]; intros i g0 g k n H; simpl in H.
  - injection H as <-. split; [by left | intros [H|(r & ts & H & _)]; [done|]].
    by apply elem_of_nil in H.
  - apply bind_Ok in H as (g1 & H1 & H). unfold add_rule, forEach in H1.
    destruct (rule_tasks r) as [ts|] eqn:Hts; [|discriminate].
    rewrite (IH _ _ _ k n H), (add_tasks_edge _ _ _ _ _ k n H1). split.
    + intros [[He|(Hk & Hn & Hne)]|(r' & ts' & Hr' & Hrest)].
      * by left.
      * right. exists r, ts. split; [apply list_elem_of_here | done].
      * right. exists r', ts'. split; [by apply list_elem_of_further | done].
    + intros [He|(r' & ts' & Hr' & Hts' & Hk & Hn & Hne)]; [by left; left|].
      apply elem_of_cons in Hr' as [->|Hr'].
      * left; right. rewrite Hts in Hts'. by injection Hts' as ->.
      * right. by exists r', ts'.
Qed.

(** No name of a member of [Object.prototype] is an own key of the
    graph. *)
Definition own_keys_plain (g : graph) : Prop :=
  ∀ k, Dict.inherited k = true → Dict.get k g = None.

Lemma add_edge_plain task o g g' :
  add_edge task o g = Ok g' → own_keys_plain g → own_keys_plain g'.
Proof.
  unfold add_edge. intros H Hp.
  destruct (String.eqb task o); [by injection H as <-|].
  destruct (Dict.get task g) as [ns|] eqn:Hg; [|discriminate].
  destruct (existsb _ ns); injection H as <-; [done|].
  intros k Hk. rewrite get_set.
  destruct (String.eqb_spec task k) as [->|Hne]; [|by apply Hp].
  rewrite (Hp k Hk) in Hg. discriminate.
Qed.

Lemma add_task_plain ts task g g' :
  add_task ts task g = Ok g' → own_keys_plain g → own_keys_plain g'.
Proof.
  unfold add_task. intros H Hp.
  pose proof (forEach_rel
                (fun g g' => own_keys_plain g → own_keys_plain g')
                (fun _ H0 => H0) (fun _ _ _ H1 H2 H0 => H2 (H1 H0))
                _ _ _ _ (fun o j t t' => add_edge_plain task o t t') H)
    as Hrel.
  apply Hrel.
  destruct (Dict.get task g) eqn:Hg; [done|].
  destruct (Dict.inherited task) eqn:Hin; [done|].
  intros k Hk. rewrite get_set.
  destruct (String.eqb_spec task k) as [->|Hne]; [congruence | by apply Hp].
Qed.

Lemma add_tasks_taken ts todo : ∀ i g g',
  forEach_from (fun task (_ : nat) g => add_task ts task g) todo i g = Ok g' →
  own_keys_plain g →
  own_keys_plain g'
  ∧ ∀ t o, t ∈ todo → o ∈ ts → Dict.inherited t = true → o = t.
Proof.
  induction todo as [|t todo IH]; intros i g g' H Hp; simpl in H.
  - injection H as <-. split; [done|]. intros t o Ht.
    by apply elem_of_nil in Ht.
  - apply bind_Ok in H as (g1 & H1 & H).
    destruct (IH _ _ _ H (add_task_plain _ _ _ _ H1 Hp)) as [Hp' Hall].
    split; [done|]. intros t' o Ht' Ho Hin.
    apply elem_of_cons in Ht' as [->|Ht']; [|by apply Hall].
    by apply (GraphFacts.add_task_taken ts t g g1 H1 (Hp t Hin) Hin).
Qed.

Lemma add_rule_taken r g g' :
  add_rule r g = Ok g' → own_keys_plain g →
  own_keys_plain g' ∧ rule_taken r.
Proof.
  unfold add_rule, forEach. intros H Hp.
  destruct (rule_tasks r) as [ts|] eqn:Hts; [|discriminate].
  destruct (add_tasks_taken _ _ _ _ _ H Hp) as [Hp' Hall].
  split; [done|]. by exists ts.
Qed.

Lemma build_graph_taken rs g :
  build_graph rs = Ok g → own_keys_plain g ∧ ∀ r, r ∈ rs → rule_taken r.
Proof.
  unfold build_graph, forEach. generalize 0%nat.
  assert (Hnil : own_keys_plain ([] : graph)) by done.
  revert Hnil. generalize ([] : graph).
  induction rs as [|r rs IH]; intros g0 Hp i H; simpl in H.
  - injection H as <-. split; [done|]. intros r Hr.
    by apply elem_of_nil in Hr.
  - apply bind_Ok in H as (g1 & H1 & H).
    destruct (add_rule_taken _ _ _ H1 Hp) as [Hp1 Hr].
    destruct (IH _ Hp1 _ H) as [Hp' Hrs]. split; [done|].
    intros r' [->|Hr']%elem_of_cons; auto.
Qed.

(** The graph is built exactly from rules it takes; otherwise building it
    throws a [TypeError]. *)
Lemma build_graph_cases rs :
  match build_graph rs with
  | Ok g => ∀ r, r ∈ rs → rule_taken r
  | Throw e => e = TypeError ∧ ¬ ∀ r, r ∈ rs → rule_taken r
  | Unsupported => False
  end.
Proof.
  destruct (build_graph rs) as [g|e|] eqn:Hg.
  - by apply build_graph_taken in Hg as [_ Hg].
  - destruct (GraphFacts.build_graph_outcome rs) as [[g' Hg'] | Hg'];
      [congruence|].
    split; [congruence|]. intros Hall.
    destruct (GraphFacts.build_graph_returns rs Hall) as [g' Hg'']. congruence.
  - by apply GraphFacts.build_graph_supported in Hg.
Qed.

(** X6.  The rule graph is built when every rule has a task list in which
    a task named like a member of [Object.prototype] stands alone;
    otherwise building it throws a [TypeError].  When it is built, it
    joins exactly the pairs of different tasks that some rule lists
    together, in both directions: each rule becomes a clique, and no task
    is its own neighbour. *)
Theorem build_graph_edges rs :
  match build_graph rs with
  | Ok g =>
      (∀ r, r ∈ rs → rule_taken r)
      ∧ ∀ k n, edge g k n ↔ listed_together rs k n
  | Throw e => e = TypeError ∧ ¬ ∀ r, r ∈ rs → rule_taken r
  | Unsupported => False
  end.
Proof.
  pose proof (build_graph_cases rs) as Hc.
  destruct (build_graph rs) as [g|e|] eqn:H; [|done|done].
  split; [done|]. intros k n. unfold build_graph, forEach in H.
  rewrite (build_graph_from_edge rs _ _ _ k n H). split; [|by right].
  intros [He|He]; [|done]. by apply elem_of_nil in He.
Qed.

Lemma graph_edges rs g k n :
  build_graph rs = Ok g → edge g k n ↔ listed_together rs k n.
Proof.
  intros H. unfold build_graph, forEach in H.
  rewrite (build_graph_from_edge rs _ _ _ k n H). split; [|by right].
  intros [He|He]; [|done]. by apply elem_of_nil in He.
Qed.

Lemma listed_together_sym rs k n :
  listed_together rs k n → listed_together rs n k.
Proof. intros (r & ts & ? & ? & ? & ? & ?). exists r, ts. eauto. Qed.

Section symmetric.
Variable g : graph.
Hypothesis g_sym : ∀ k n, edge g k n → edge g n k.

(** On a graph with mirrored edges a call for a task with a neighbour
    answers yes, whatever it returns on: the first neighbour leads back. *)
Lemma hasCycle_neighbour fuel : ∀ task d b d',
  left_are_leaves g d →
  default [] (Dict.get task g) ≠ [] →
  hasCycle fuel g task d = Some (b, d') → b = true.
Proof.
  induction fuel as [|fuel IH]; intros task d b d' Hd Hadj H; [done|].
  simpl in H. case_bool_decide as Hrec; [by injection H as <- _|].
  case_bool_decide as Hvis; [exfalso; by apply Hadj, Hd|].
  destruct (default [] (Dict.get task g)) as [|n ns] eqn:Hns; [done|].
  simpl in H.
  destruct (hasCycle fuel g n _) as [[b1 d1]|] eqn:Hn; [|done].
  apply IH in Hn as ->; [by injection H as <- _| |].
  - intros x Hx Hx'. simpl in *. apply Hd; set_solver.
  - assert (He : edge g n task).
    { apply g_sym. unfold edge. rewrite Hns. apply list_elem_of_here. }
    intros Hnil. unfold edge in He. rewrite Hnil in He.
    by apply elem_of_nil in He.
Qed.

Lemma hasCycle_leaf fuel task d :
  default [] (Dict.get task g) = [] → recStack d = ∅ → task ∉ visited d →
  hasCycle (S fuel) g task d
  = Some (false, mkDfs ({[task]} ∪ visited d) ∅).
Proof.
  intros Hadj Hrec Hvis. simpl. rewrite Hrec.
  rewrite bool_decide_eq_false_2 by set_solver.
  rewrite bool_decide_eq_false_2 by done.
  rewrite Hadj. simpl. do 2 f_equal. f_equal.
  apply leibniz_equiv. set_solver.
Qed.

(** The loop over the keys stops at the first task with a neighbour. *)
Lemma find_cycle_first fuel ks : ∀ d r,
  left_are_leaves g d → recStack d = ∅ →
  find_cycle (S fuel) g ks d = Some r →
  match r with
  | None => ∀ k, k ∈ ks → default [] (Dict.get k g) = []
  | Some task => task ∈ ks ∧ default [] (Dict.get task g) ≠ []
  end.
Proof.
  induction ks as [|k ks IH]; intros d r Hd Hrec H.
  - injection H as <-. intros k Hk. by apply elem_of_nil in Hk.
  - cbn [find_cycle] in H.
    assert (Hstep : ∀ d1, default [] (Dict.get k g) = [] →
              left_are_leaves g d1 → recStack d1 = ∅ →
              find_cycle (S fuel) g ks d1 = Some r →
              match r with
              | None => ∀ k', k' ∈ k :: ks → default [] (Dict.get k' g) = []
              | Some task =>
                  task ∈ k :: ks ∧ default [] (Dict.get task g) ≠ []
              end).
    { intros d1 Hk Hd1 Hrec1 H1. specialize (IH d1 r Hd1 Hrec1 H1).
      destruct r as [task|].
      - destruct IH. split; [by apply list_elem_of_further | done].
      - intros k' [->|Hk']%elem_of_cons; auto. }
    case_bool_decide as Hvis.
    + apply (Hstep d); try done. apply Hd; [done|]. rewrite Hrec. set_solver.
    + destruct (default [] (Dict.get k g)) as [|n ns] eqn:Hadj.
      * rewrite hasCycle_leaf in H by done.
        apply (Hstep (mkDfs ({[k]} ∪ visited d) ∅)); try done.
        intros x Hx _. simpl in Hx.
        apply elem_of_union in Hx as [->%elem_of_singleton|Hx]; [done|].
        apply Hd; [done|]. rewrite Hrec. set_solver.
      * destruct (hasCycle (S fuel) g k d) as [[b d1]|] eqn:Hc; [|done].
        apply hasCycle_neighbour in Hc as ->; [| done | by rewrite Hadj].
        injection H as <-. split; [apply list_elem_of_here | by rewrite Hadj].
Qed.

End symmetric.

Lemma edge_key (g : graph) k n : edge g k n → k ∈ Dict.keys g.
Proof.
  unfold edge. destruct (Dict.get k g) as [ns|] eqn:Hk; simpl.
  - intros _. apply get_Some_elem in Hk.
    unfold Dict.keys. rewrite (entries_perm g).
    apply list_elem_of_In, in_map_iff. exists (k, ns).
    split; [done | by apply list_elem_of_In].
  - intros H. by apply elem_of_nil in H.
Qed.

Lemma cycle_check_cases rules st st' :
  checkCircularCoRuns rules st = Ok st' →
  (st' = st ∧ ∀ k n, ¬ listed_together (coRunRules rules) k n)
  ∨ (∃ task n, listed_together (coRunRules rules) task n
               ∧ st' = cycle_reported task st).
Proof.
  unfold checkCircularCoRuns. fold (coRunRules rules). intros H.
  apply bind_Ok in H as (g & Hg & H).
  assert (Hsym : ∀ k n, edge g k n → edge g n k).
  { intros k n. rewrite !(graph_edges _ _ _ _ Hg).
    apply listed_together_sym. }
  destruct (find_cycle _ _ _ _) as [r|] eqn:Hf; [|done].
  apply (find_cycle_first g Hsym) in Hf; [|done|done].
  destruct r as [task|]; injection H as <-.
  - right. destruct Hf as [_ Hadj].
    destruct (default [] (Dict.get task g)) as [|n ns] eqn:Hns; [done|].
    exists task, n. split; [|done].
    apply (graph_edges _ _ _ _ Hg). unfold edge. rewrite Hns.
    apply list_elem_of_here.
  - left. split; [done|]. intros k n Hp.
    apply (graph_edges _ _ _ _ Hg) in Hp.
    pose proof (edge_key _ _ _ Hp) as Hk. apply Hf in Hk.
    unfold edge in Hp. rewrite Hk in Hp. by apply elem_of_nil in Hp.
Qed.

(** The cycle check returns exactly when the graph takes every coRun
    rule, and throws a [TypeError] otherwise. *)
Lemma cycle_check_outcome rules st :
  match checkCircularCoRuns rules st with
  | Ok _ => ∀ r, r ∈ coRunRules rules → rule_taken r
  | Throw e => e = TypeError ∧ ¬ ∀ r, r ∈ coRunRules rules → rule_taken r
  | Unsupported => False
  end.
Proof.
  pose proof (build_graph_cases (coRunRules rules)) as Hc.
  pose proof (GraphFacts.checkCircularCoRuns_supported rules st) as Hs.
  unfold checkCircularCoRuns in *. fold (coRunRules rules) in *.
  destruct (build_graph (coRunRules rules)) as [g|e|]; [|done|done].
  simpl in *. by destruct (find_cycle _ _ _ _) as [[task|]|].
Qed.

(** X7.  The cycle check returns when every coRun rule has a task list in
    which a task named like a member of [Object.prototype] stands alone,
    and throws a [TypeError] otherwise.  When it returns, it reports
    exactly when some coRun rule lists two different tasks together: in
    that case it leaves one summary line naming a task of such a rule and
    one suggestion; otherwise it leaves the accumulators as they are. *)
Theorem checkCircularCoRuns_reports_iff_pair rules st :
  match checkCircularCoRuns rules st with
  | Ok st' =>
      (∀ r, r ∈ coRunRules rules → rule_taken r)
      ∧ ((st' = st ∧ ∀ k n, ¬ listed_together (coRunRules rules) k n)
         ∨ (∃ task n, listed_together (coRunRules rules) task n
                      ∧ st' = cycle_reported task st))
  | Throw e => e = TypeError ∧ ¬ ∀ r, r ∈ coRunRules rules → rule_taken r
  | Unsupported => False
  end.
Proof.
  pose proof (cycle_check_outcome rules st) as Ho.
  destruct (checkCircularCoRuns rules st) as [st'|e|] eqn:H; [|done|done].
  split; [done|]. by apply cycle_check_cases.
Qed.

End CycleFacts.

(** ** The visual rule builder *)

Module RuleBuilder.
Import JS Validation.

(** The union type [Rule]; the optional [priority] is never set by the
    builder. *)
Inductive Rule : Type :=
| RCoRun (tasks : list string)
| RSlotRestriction (group : string) (minCommonSlots : num)
| RLoadLimit (group : string) (maxSlotsPerPhase : num)
| RPhaseWindow (task : string) (allowedPhases : list Z)
| RPatternMatch (regex template : string) (parameters : jsval)
| RPrecedenceOverride (globalRules specificRules : list string).

(** The state of the form. *)
Record form : Type := mkForm {
  selectedType : string;
  selectedTasks : list string;
  selectedGroup : string;
  minSlots : num;
  maxSlotsPerPhase : num;
  selectedTask : string;
  allowedPhases : list Z;
  regex : string;
  template : string;
  parameters : string;
  globalRules : list string;
  specificRules : list string
}.

(** What [handleAddRule] ends in: an alert, the rules staying as they
    are, or the updated rules handed to [onRulesChange]. *)
Inductive outcome : Type :=
| Alerted (msg : string)
| Added (updatedRules : list Rule).

(** [n < 1] on a number. *)
Definition below_one (n : num) : bool :=
  match n with
  | NaN => false
  | Int z => z <? 1
  end.

Definition is_empty (s : string) : bool := String.eqb s EmptyString.

(** [handleAddRule] of the builder; [JSON.parse] of the parameters may
    throw. *)
Definition handleAddRule (f : form) (rules : list Rule) : res outcome :=
  let add newRule := Ok (Added (rules ++ [newRule])%list) in
  if String.eqb (selectedType f) "coRun" then
    if (length (selectedTasks f) <? 2)%nat
    then Ok (Alerted "Please select at least 2 tasks for co-run rule")
    else add (RCoRun (selectedTasks f))
  else if String.eqb (selectedType f) "slotRestriction" then
    if is_empty (selectedGroup f) || below_one (minSlots f)
    then Ok (Alerted "Please select a group and set minimum slots")
    else add (RSlotRestriction (selectedGroup f) (minSlots f))
  else if String.eqb (selectedType f) "loadLimit" then
    if is_empty (selectedGroup f) || below_one (maxSlotsPerPhase f)
    then Ok (Alerted "Please select a group and set maximum slots")
    else add (RLoadLimit (selectedGroup f) (maxSlotsPerPhase f))
  else if String.eqb (selectedType f) "phaseWindow" then
    if is_empty (selectedTask f) || (length (allowedPhases f) =? 0)%nat
    then Ok (Alerted "Please select a task and allowed phases")
    else add (RPhaseWindow (selectedTask f) (allowedPhases f))
  else if String.eqb (selectedType f) "patternMatch" then
    if is_empty (regex f) || is_empty (template f)
    then Ok (Alerted "Please provide regex pattern and template")
    else
      params ← (if is_empty (parameters f) then Ok (JObj [])
                else JSON.parse (parameters f));
      add (RPatternMatch (regex f) (template f) params)
  else if String.eqb (selectedType f) "precedenceOverride" then
    if (length (globalRules f) =? 0)%nat
       && (length (specificRules f) =? 0)%nat
    then Ok (Alerted "Please specify at least one global or specific rule")
    else add (RPrecedenceOverride (globalRules f) (specificRules f))
  else Ok (Alerted "Please select a rule type").

(** [l.filter((_, i) => p(i))], the index starting at [i]. *)
Fixpoint filter_index {A : Type} (p : nat → bool) (l : list A) (i : nat)
  : list A :=
  match l with
  | [] => []
  | a :: r =>
      if p i then a :: filter_index p r (S i) else filter_index p r (S i)
  end.

(** [handleDeleteRule(idx)]: the rules handed to [onRulesChange]. *)
Definition handleDeleteRule (idx : nat) (rules : list Rule) : list Rule :=
  filter_index (fun i => negb (i =? idx)%nat) rules 0.

(** The click on the chip of a task,
    [prev.includes(id) ? prev.filter(t => t !== id) : [...prev, id]]. *)
Definition toggle (taskId : string) (prev : list string) : list string :=
  if existsb (String.eqb taskId) prev
  then filter (fun t => negb (String.eqb t taskId)) prev
  else (prev ++ [taskId])%list.

(** The selection after a sequence of clicks on an empty form. *)
Definition clicked (clicks : list string) : list string :=
  fold_left (fun prev taskId => toggle taskId prev) clicks [].

(** What the validation engine reads of a rule: its [type] and its
    [tasks], which only a coRun rule has. *)
Definition engine_rule (r : Rule) : rule :=
  match r with
  | RCoRun ts => mkRule "coRun" (Some ts)
  | RSlotRestriction _ _ => mkRule "slotRestriction" None
  | RLoadLimit _ _ => mkRule "loadLimit" None
  | RPhaseWindow _ _ => mkRule "phaseWindow" None
  | RPatternMatch _ _ _ => mkRule "patternMatch" None
  | RPrecedenceOverride _ _ => mkRule "precedenceOverride" None
  end.

(** The two lists of rules: the state of the builder and the state of the
    page, which is the one validated and exported. *)
Record session : Type := mkSession {
  builder_rules : list Rule;
  page_rules : list Rule
}.

(** The button of the builder: [setRules(updatedRules);
    onRulesChange(updatedRules)], the page taking the list as its own. *)
Definition builder_add (f : form) (s : session) : res session :=
  o ← handleAddRule f (builder_rules s);
  match o with
  | Alerted _ => Ok s
  | Added updatedRules => Ok (mkSession updatedRules updatedRules)
  end.

Definition builder_delete (idx : nat) (s : session) : session :=
  let updatedRules := handleDeleteRule idx (builder_rules s) in
  mkSession updatedRules updatedRules.

(** [handleAddRule] of the page, for a recommended rule or one made from
    a description: [setRules(prev => [...prev, rule])]. *)
Definition page_add (r : Rule) (s : session) : session :=
  mkSession (builder_rules s) (page_rules s ++ [r])%list.

End RuleBuilder.

Module RuleBuilderFacts.
Import JS Validation Spec Invariants Facts CycleSpec CycleFacts RuleBuilder.

Local Open Scope nat_scope.

Lemma toggle_elem t prev u :
  u ∈ toggle t prev ↔ if decide (u = t) then t ∉ prev else u ∈ prev.
Proof.
  unfold toggle. destruct (existsb _ _) eqn:Hex.
  - apply existsb_eqb_elem in Hex. rewrite list_elem_of_filter.
    case_decide as Hu.
    + subst u. rewrite String.eqb_refl. simpl.
      tauto.
    + destruct (String.eqb_spec u t); [done|]. simpl. tauto.
  - assert (Hnot : t ∉ prev).
    { intros Hin. apply existsb_eqb_elem in Hin. congruence. }
    rewrite elem_of_app, list_elem_of_singleton. case_decide as Hu.
    + subst u. tauto.
    + tauto.
Qed.

Lemma toggle_NoDup t prev : NoDup prev → NoDup (toggle t prev).
Proof.
  intros Hnd. unfold toggle. destruct (existsb _ _) eqn:Hex.
  - by apply NoDup_filter.
  - apply NoDup_app. split; [done|]. split; [|apply NoDup_singleton].
    intros x Hx ->%list_elem_of_singleton.
    apply existsb_eqb_elem in Hx. congruence.
Qed.

Lemma toggles_selection clicks : ∀ prev,
  NoDup prev →
  let sel := fold_left (fun prev taskId => toggle taskId prev) clicks prev in
  NoDup sel
  ∧ ∀ t, t ∈ sel ↔ xorb (bool_decide (t ∈ prev))
                        (Nat.odd (count_occ string_dec clicks t)) = true.
Proof.
  induction clicks as [|c clicks IH]; intros prev Hnd; simpl.
  - split; [done|]. intros t. rewrite xorb_false_r.
    by rewrite bool_decide_eq_true.
  - destruct (IH (toggle c prev) (toggle_NoDup c prev Hnd)) as [Hn Hm].
    split; [done|]. intros t. rewrite Hm.
    assert (Ht : bool_decide (t ∈ toggle c prev)
                 = xorb (bool_decide (t ∈ prev)) (bool_decide (t = c))).
    { apply eq_true_iff_eq. rewrite bool_decide_eq_true, toggle_elem.
      case_decide as Htc.
      - subst t. rewrite (bool_decide_eq_true_2 (c = c)) by done.
        rewrite xorb_true_r, negb_true_iff, bool_decide_eq_false. done.
      - rewrite (bool_decide_eq_false_2 (t = c)) by done.
        by rewrite xorb_false_r, bool_decide_eq_true. }
    rewrite Ht. destruct (string_dec c t) as [->|Hne].
    + rewrite (bool_decide_eq_true_2 (t = t)) by done.
      rewrite Nat.odd_succ, <- Nat.negb_odd.
      by rewrite xorb_true_r, <- negb_xorb_l, negb_xorb_r.
    + rewrite (bool_decide_eq_false_2 (t = c)) by congruence.
      by rewrite xorb_false_r.
Qed.

(** X8.  The selection of the co-run form lists no task twice, and lists
    a task exactly when its chip was clicked an odd number of times. *)
Theorem clicked_selection clicks :
  NoDup (clicked clicks)
  ∧ ∀ t, t ∈ clicked clicks ↔ Nat.odd (count_occ string_dec clicks t) = true.
Proof.
  destruct (toggles_selection clicks [] (NoDup_nil_2)) as [Hn Hm].
  split; [done|]. intros t. unfold clicked. rewrite Hm.
  by rewrite bool_decide_eq_false_2 by apply not_elem_of_nil.
Qed.

Lemma engine_rule_tasks rs r :
  r ∈ map engine_rule rs → rule_type r = "coRun" → is_Some (rule_tasks r).
Proof.
  intros Hin Ht. apply list_elem_of_In, in_map_iff in Hin as (x & <- & _).
  by destruct x.
Qed.

(** X9.  A co-run rule the builder lets through never passes the cycle
    check unnoticed.  The form asks for two tasks and its selection lists
    none twice, so the rule lists two different tasks: when the check
    returns, it reports a circular dependency, as it does for any co-run
    rule of two different tasks; and it throws a [TypeError] when some
    co-run rule lists a task named like a member of [Object.prototype]
    beside another task, which is so when a task of the new rule has such
    a name. *)
Theorem builder_coRun_rule_reported clicks f rules updated st :
  selectedType f = "coRun" →
  selectedTasks f = clicked clicks →
  handleAddRule f rules = Ok (Added updated) →
  match checkCircularCoRuns (map engine_rule updated) st with
  | Ok st' =>
      (∀ r, r ∈ coRunRules (map engine_rule updated) → rule_taken r)
      ∧ ∃ task, st' = cycle_reported task st
  | Throw e =>
      e = TypeError
      ∧ ¬ ∀ r, r ∈ coRunRules (map engine_rule updated) → rule_taken r
  | Unsupported => False
  end
  ∧ ((∃ t, t ∈ selectedTasks f ∧ Dict.inherited t = true) →
     checkCircularCoRuns (map engine_rule updated) st = Throw TypeError).
Proof.
  intros Ht Hsel H. unfold handleAddRule in H. rewrite Ht in H. simpl in H.
  destruct (length (selectedTasks f) <? 2) eqn:Hlen; [done|].
  injection H as <-. apply Nat.ltb_ge in Hlen.
  pose proof (proj1 (toggles_selection clicks [] NoDup_nil_2)) as Hnd.
  fold (clicked clicks) in Hnd.
  rewrite <- Hsel in Hnd.
  destruct (selectedTasks f) as [|a [|b sel]] eqn:Hs; simpl in Hlen; try lia.
  assert (Hab : a ≠ b).
  { apply NoDup_cons in Hnd as [Ha _]. intros ->. apply Ha, list_elem_of_here. }
  set (updated := (rules ++ [RCoRun (a :: b :: sel)])%list).
  assert (Hnew : coRun (a :: b :: sel) ∈ coRunRules (map engine_rule updated)).
  { unfold coRunRules. apply list_elem_of_filter. split; [done|].
    unfold updated. rewrite map_app. apply elem_of_app. right.
    apply list_elem_of_here. }
  pose proof (cycle_check_outcome (map engine_rule updated) st) as Ho.
  split.
  - destruct (checkCircularCoRuns (map engine_rule updated) st)
      as [st'|e|] eqn:Hst'; [|done|done].
    split; [done|].
    destruct (cycle_check_cases _ _ _ Hst') as [[_ Hno]|(task & n & _ & ->)];
      [|by exists task].
    exfalso. apply (Hno a b).
    exists (coRun (a :: b :: sel)), (a :: b :: sel).
    split; [done|repeat split; [apply list_elem_of_here | | done ]].
    apply list_elem_of_further, list_elem_of_here.
  - intros (t & Hin & Hinh).
    destruct (checkCircularCoRuns (map engine_rule updated) st)
      as [st'|e|] eqn:Hst'; [|by destruct Ho as [-> _]|done].
    exfalso. destruct (Ho _ Hnew) as (ts & [= <-] & Hall).
    apply Hab.
    rewrite (Hall t a Hin (list_elem_of_here _ _) Hinh).
    by rewrite (Hall t b Hin
                  (list_elem_of_further _ _ _ (list_elem_of_here _ _)) Hinh).
Qed.

Lemma builder_coRun_rule_reported_witness :
  match
    checkCircularCoRuns
      (map engine_rule [RLoadLimit "G1" (Int 2); RCoRun ["T2"; "T3"]]) init
  with
  | Ok st' =>
      (∀ r, r ∈ coRunRules
                  (map engine_rule
                     [RLoadLimit "G1" (Int 2); RCoRun ["T2"; "T3"]]) →
            rule_taken r)
      ∧ ∃ task, st' = cycle_reported task init
  | Throw e =>
      e = TypeError
      ∧ ¬ ∀ r, r ∈ coRunRules
                     (map engine_rule
                        [RLoadLimit "G1" (Int 2); RCoRun ["T2"; "T3"]]) →
               rule_taken r
  | Unsupported => False
  end
  ∧ ((∃ t, t ∈ ["T2"; "T3"] ∧ Dict.inherited t = true) →
     checkCircularCoRuns
       (map engine_rule [RLoadLimit "G1" (Int 2); RCoRun ["T2"; "T3"]]) init
     = Throw TypeError).
Proof.
  apply (builder_coRun_rule_reported ["T1"; "T2"; "T1"; "T3"]
           (mkForm "coRun" ["T2"; "T3"] EmptyString (Int 1) (Int 1)
                   EmptyString [] EmptyString EmptyString EmptyString [] [])
           [RLoadLimit "G1" (Int 2)]
           [RLoadLimit "G1" (Int 2); RCoRun ["T2"; "T3"]] init).
  - reflexivity.
  - vm_compute. reflexivity.
  - vm_compute. reflexivity.
Defined.

(** The two runs: two plain tasks are reported as a cycle, and a task
    named [constructor] beside another makes the check throw. *)
Example builder_coRun_rule_runs :
  checkCircularCoRuns (map engine_rule [RCoRun ["T2"; "T3"]]) init
  = Ok (cycle_reported "T2" init)
  ∧ checkCircularCoRuns (map engine_rule [RCoRun ["constructor"; "T1"]]) init
    = Throw TypeError
  ∧ checkCircularCoRuns (map engine_rule [RCoRun ["T1"; "constructor"]]) init
    = Throw TypeError.
Proof. repeat split; vm_compute; reflexivity. Qed.

Lemma handleAddRule_appends f rules updated :
  handleAddRule f rules = Ok (Added updated) →
  ∃ newRule, updated = (rules ++ [newRule])%list.
Proof.
  unfold handleAddRule. intros H.
  repeat match type of H with
         | (if ?c then _ else _) = _ => destruct c
         end;
    try discriminate; try (injection H as <-; eauto; fail).
  apply bind_Ok in H as (params & _ & H). injection H as <-. eauto.
Qed.

Lemma filter_index_skip {A : Type} idx (l : list A) : ∀ i,
  filter_index (fun j => negb (j =? idx)) l i
  = if decide (i ≤ idx)
    then (take (idx - i) l ++ drop (S (idx - i)) l)%list
    else l.
Proof.
  induction l as [|a l IH]; intros i; simpl.
  - case_decide; [|done]. by destruct (idx - i).
  - rewrite IH. destruct (Nat.eqb_spec i idx) as [->|Hne]; simpl.
    + rewrite decide_False by lia. rewrite decide_True by lia.
      rewrite Nat.sub_diag. simpl. by rewrite drop_0.
    + case_decide as Hle.
      * rewrite decide_True by lia.
        replace (idx - i) with (S (idx - S i)) by lia. done.
      * by rewrite decide_False by lia.
Qed.

(** X10.  Deleting a rule drops the one at the given position and keeps
    the others in their order; a position past the end drops nothing. *)
Theorem handleDeleteRule_drops_position idx rules :
  handleDeleteRule idx rules = (take idx rules ++ drop (S idx) rules)%list.
Proof.
  unfold handleDeleteRule. rewrite filter_index_skip.
  rewrite decide_True by lia. by rewrite Nat.sub_0_r.
Qed.

(** X11.  Deleting the last rule undoes an addition: after the builder
    has accepted a rule, deleting at the position the former list ended
    gives the former list back. *)
Theorem delete_last_undoes_add f rules updated :
  handleAddRule f rules = Ok (Added updated) →
  handleDeleteRule (length rules) updated = rules.
Proof.
  intros H. apply handleAddRule_appends in H as [newRule ->].
  unfold handleDeleteRule. rewrite filter_index_skip.
  rewrite decide_True by lia. rewrite Nat.sub_0_r.
  rewrite take_app_length.
  rewrite drop_ge by (rewrite length_app; simpl; lia).
  apply app_nil_r.
Qed.

Lemma delete_last_undoes_add_witness :
  handleDeleteRule (length [RLoadLimit "G1" (Int 2)])
    [RLoadLimit "G1" (Int 2); RPhaseWindow "T1" [1; 2]%Z]
  = [RLoadLimit "G1" (Int 2)].
Proof.
  apply (delete_last_undoes_add
           (mkForm "phaseWindow" [] EmptyString (Int 1) (Int 1)
                   "T1" [1; 2]%Z EmptyString EmptyString EmptyString [] [])).
  vm_compute. reflexivity.
Defined.

(** X12.  A rule the page adds by itself (a recommended rule, or one made
    from a description) never reaches the builder, and the next change made
    in the builder replaces the rules of the page by the builder's own: the
    rule is gone after a deletion, and after an accepted addition unless
    the added rule is the same one. *)
Theorem page_rule_lost_on_builder_change r s :
  r ∉ builder_rules s →
  (∀ idx, r ∉ page_rules (builder_delete idx (page_add r s)))
  ∧ (∀ f updated,
       handleAddRule f (builder_rules s) = Ok (Added updated) →
       builder_add f (page_add r s) = Ok (mkSession updated updated)
       ∧ ∃ newRule, updated = (builder_rules s ++ [newRule])%list
                    ∧ (newRule ≠ r → r ∉ updated)).
Proof.
  intros Hr. split.
  - intros idx. unfold builder_delete, page_add. simpl.
    unfold handleDeleteRule. rewrite filter_index_skip.
    rewrite decide_True by lia. rewrite Nat.sub_0_r. intros Hin. apply Hr.
    apply elem_of_app in Hin as [Hin|Hin].
    + by apply (subseteq_take idx).
    + by apply (subseteq_drop (S idx)).
  - intros f updated H. split.
    + unfold builder_add, page_add. simpl. by rewrite H.
    + destruct (handleAddRule_appends _ _ _ H) as [newRule ->].
      exists newRule. split; [done|]. intros Hne Hin.
      apply elem_of_app in Hin as [Hin|Hin%list_elem_of_singleton]; auto.
Qed.

Lemma page_rule_lost_on_builder_change_witness :
  RCoRun ["T1"; "T2"]
  ∉ page_rules
      (builder_delete 1
         (page_add (RCoRun ["T1"; "T2"])
            (mkSession [RLoadLimit "G1" (Int 2); RLoadLimit "G2" (Int 3)]
                       [RLoadLimit "G1" (Int 2); RLoadLimit "G2" (Int 3)]))).
Proof.
  apply (proj1 (page_rule_lost_on_builder_change
                  (RCoRun ["T1"; "T2"])
                  (mkSession
                     [RLoadLimit "G1" (Int 2); RLoadLimit "G2" (Int 3)]
                     [RLoadLimit "G1" (Int 2); RLoadLimit "G2" (Int 3)])
                  ltac:(simpl; intros H;
                        repeat (apply elem_of_cons in H as [[=]|H]);
                        by apply elem_of_nil in H)) 1).
Defined.

End RuleBuilderFacts.

(** ** The editable grid *)

Module GridFacts.
Import JS Validation Spec Invariants Facts Pipeline PipelineFacts Callers.

Local Open Scope nat_scope.


Lemma truthy_JStr m : m ≠ EmptyString → truthy (JStr m) = true.
Proof. intros H. simpl. by destruct (String.eqb_spec m EmptyString). Qed.




(** X14.  [addRowIds] keeps the rows and their columns and gives each row
    an [id]: the value of its id column when that is truthy, the text drawn
    for it otherwise; the [id] is truthy unless the text drawn is empty. *)
Theorem addRowIds_gives_ids random rows idField i (r : row) :
  rows !! i = Some r →
  ∃ r' : row,
    addRowIds random rows idField !! i = Some r'
    ∧ (∀ c, c ≠ "id"%string → r' !! c = r !! c)
    ∧ field r' "id" = js_or (field r idField) (JStr (random i))
    ∧ (random i ≠ EmptyString → truthy (field r' "id") = true).
Proof.
  intros Hi. unfold addRowIds. rewrite list_lookup_imap, Hi. simpl.
  eexists. split; [done|].
  split; [by intros c Hc; rewrite lookup_insert_ne|].
  assert (Hid : ∀ c : cell,
            field (<["id"%string := c]> r) "id" = cell_val c).
  { intros c. unfold field. by rewrite lookup_insert_eq. }
  rewrite Hid. unfold js_or, field.
  destruct (r !! idField) as [c|]; simpl.
  - destruct (truthy (cell_val c)) eqn:Hc; simpl; [by rewrite Hc|].
    split; [done|]. apply truthy_JStr.
  - split; [done|]. apply truthy_JStr.
Qed.

Lemma addRowIds_gives_ids_witness :
  ∃ r' : row,
    addRowIds (fun _ => "k3x9") [mkrow [("ClientID", CStr "C7")]; mkrow []]
      "ClientID" !! 1 = Some r'
    ∧ field r' "id" = JStr "k3x9".
Proof.
  destruct (addRowIds_gives_ids (fun _ => "k3x9")
              [mkrow [("ClientID", CStr "C7")]; mkrow []] "ClientID" 1
              (mkrow []) eq_refl) as (r' & H1 & _ & H2 & _).
  exists r'. split; [exact H1 | exact H2].
Defined.

(** X25.  Giving ids again forgets the ids given before: the rows a
    rows are those [addRowIds] makes of the rows as uploaded, with the
    texts drawn the second time.  So a row with a truthy id column keeps
    its id, and a row without one gets a new id; the rows of a search go
    through [addRowIds] a second time in this way. *)
Theorem addRowIds_again random random' rows idField :
  idField ≠ "id"%string →
  addRowIds random' (addRowIds random rows idField) idField
  = addRowIds random' rows idField.
Proof.
  intros Hne. unfold addRowIds. apply list_eq. intros i.
  rewrite !list_lookup_imap. destruct (rows !! i) as [r|]; simpl; [|done].
  f_equal. rewrite lookup_insert_ne by done. apply insert_insert_eq.
Qed.

Lemma addRowIds_again_witness :
  addRowIds (fun _ => "q7")
    (addRowIds (fun _ => "k3") [mkrow [("ClientName", CStr "Acme")]]
       "ClientID") "ClientID"
  = addRowIds (fun _ => "q7") [mkrow [("ClientName", CStr "Acme")]]
      "ClientID".
Proof.
  apply (addRowIds_again (fun _ => "k3") (fun _ => "q7")
           [mkrow [("ClientName", CStr "Acme")]] "ClientID").
  discriminate.
Defined.

(** X15.  Committing the same edit twice changes nothing more, and an
    edit never changes the number of rows. *)
Theorem processRowUpdate_idempotent rows u :
  processRowUpdate (processRowUpdate rows u) u = processRowUpdate rows u
  ∧ length (processRowUpdate rows u) = length rows.
Proof.
  unfold processRowUpdate. split; [|apply length_map].
  rewrite map_map. apply map_ext. intros r.
  destruct (same_id r u) eqn:Hr; [|by rewrite Hr].
  assert (Hu : u ∪ (u ∪ r) = u ∪ r)
    by (by rewrite (assoc_L (∪)), (idemp_L (∪))).
  rewrite Hu. by destruct (same_id (u ∪ r) u).
Qed.

(** X16.  An edit made while a search is shown stores the shown rows only:
    the rows of the page become the rows of the search, each as it was or
    merged with the edit, and the rows the search left out are gone from
    the count. *)
Theorem edit_under_search_keeps_shown_rows rows found u :
  Forall2 (fun x y => y = x ∨ y = u ∪ x) found
    (rows_after_edit rows (Some found) u)
  ∧ length (rows_after_edit rows (Some found) u) = length found.
Proof.
  unfold rows_after_edit, shown, processRowUpdate. simpl.
  split; [|apply length_map].
  induction found as [|x found IH]; simpl; constructor; [|done].
  destruct (same_id x u); auto.
Qed.

End GridFacts.

(** ** The schema check and the identity check *)

Module SchemaFacts.
Import JS Validation Spec Invariants Facts Pipeline.

Local Open Scope nat_scope.






End SchemaFacts.

Module IdentitySpec.
Import JS Validation.

(** The values a cell can hold. *)
Definition is_prim (v : jsval) : Prop :=
  match v with
  | JArr _ | JObj _ => False
  | _ => True
  end.

(** [ids.get(k)], or the empty list. *)
Fixpoint group_of (k : jsval) (ids : list (jsval * list nat)) : list nat :=
  match ids with
  | [] => []
  | (k', l) :: r => if same_value_zero k' k then l else group_of k r
  end.

(** The indices, counted from [i], of the rows whose id is truthy and is
    [k]. *)
Fixpoint positions (idField : string) (k : jsval) (rows : list row)
    (i : nat) : list nat :=
  match rows with
  | [] => []
  | r :: rest =>
      if truthy (field r idField) && same_value_zero (field r idField) k
      then i :: positions idField k rest (S i)
      else positions idField k rest (S i)
  end.

(** The two callbacks of the second half of [checkDuplicateIds]. *)
Definition flag_index (e : Entity) (rows : list row) (idField : string)
    (id : jsval) (idx : nat) (_ : nat) (st : ValidationResult)
  : res ValidationResult :=
  match rows !! idx with
  | Some r =>
      Ok (set_error e (row_key r idx) idField
            ("Duplicate " ++ idField ++ ": " ++ to_string id) st)
  | None => Throw TypeError
  end.

Definition flag_group (e : Entity) (rows : list row) (idField : string)
    (en : jsval * list nat) (_ : nat) (st : ValidationResult)
  : res ValidationResult :=
  let '(id, indices) := en in
  if (1 <? length indices)%nat then
    forEach (flag_index e rows idField id) indices
      (push_summary
         (entity_name e ++ ": Duplicate " ++ idField ++ " '"
          ++ to_string id ++ "' found in rows "
          ++ join ", " (map row_number indices)) st)
  else Ok st.

(** A field error is kept. *)
Definition errors_kept (st st' : ValidationResult) : Prop :=
  ∀ e k c, is_Some (get_error e k c st) → is_Some (get_error e k c st').

End IdentitySpec.

Module IdentityFacts.
Import JS Validation Spec Invariants Facts Pipeline IdentitySpec.

Local Open Scope nat_scope.

Lemma checkDuplicateIds_groups e rows idField st :
  checkDuplicateIds e rows idField st
  = forEach (flag_group e rows idField) (collect_ids idField rows 0 []) st.
Proof. reflexivity. Qed.

Lemma is_prim_field (r : row) f : is_prim (field r f).
Proof. unfold field. by destruct (r !! f) as [[]|]. Qed.

Lemma same_value_zero_eq a b : same_value_zero a b = true → a = b.
Proof.
  destruct a, b; simpl; try done.
  - by intros ->%Bool.eqb_prop.
  - by intros ->%bool_decide_eq_true.
  - by intros ->%String.eqb_eq.
Qed.

Lemma same_value_zero_refl a : is_prim a → same_value_zero a a = true.
Proof.
  destruct a; simpl; try done.
  - intros _. by destruct b.
  - intros _. by apply bool_decide_eq_true.
  - intros _. apply String.eqb_refl.
Qed.

Lemma same_value_zero_ne a b : is_prim a → a ≠ b → same_value_zero a b = false.
Proof.
  intros Ha Hne. destruct (same_value_zero a b) eqn:H; [|done].
  by apply same_value_zero_eq in H.
Qed.

Lemma group_of_push id idx k ids :
  is_prim id →
  group_of k (ids_push id idx ids)
  = if same_value_zero id k then (group_of k ids ++ [idx])%list
    else group_of k ids.
Proof.
  intros Hid. induction ids as [|[k0 l0] ids IH]; simpl.
  - by destruct (same_value_zero id k).
  - destruct (same_value_zero k0 id) eqn:H0; simpl.
    + apply same_value_zero_eq in H0 as ->.
      by destruct (same_value_zero id k).
    + rewrite IH. destruct (same_value_zero k0 k) eqn:Hk; [|done].
      destruct (same_value_zero id k) eqn:Hi; [|done].
      apply same_value_zero_eq in Hk as ->.
      apply same_value_zero_eq in Hi as ->.
      by rewrite same_value_zero_refl in H0.
Qed.

Lemma group_of_collect idField k rows : ∀ i ids,
  group_of k (collect_ids idField rows i ids)
  = (group_of k ids ++ positions idField k rows i)%list.
Proof.
  induction rows as [|r rows IH]; intros i ids; simpl.
  - by rewrite app_nil_r.
  - rewrite IH. destruct (truthy (field r idField)); simpl; [|done].
    rewrite group_of_push by apply is_prim_field.
    destruct (same_value_zero _ k); [|done].
    by rewrite <- app_assoc.
Qed.

Lemma keys_push id idx ids :
  map fst (ids_push id idx ids)
  = if existsb (fun k => same_value_zero k id) (map fst ids)
    then map fst ids
    else (map fst ids ++ [id])%list.
Proof.
  induction ids as [|[k0 l0] ids IH]; simpl; [done|].
  destruct (same_value_zero k0 id) eqn:H0; simpl; [done|].
  rewrite IH. by destruct (existsb _ _).
Qed.

(** The keys of the [Map] are cell values, each once. *)
Definition keyed (ids : list (jsval * list nat)) : Prop :=
  NoDup (map fst ids) ∧ ∀ k, k ∈ map fst ids → is_prim k.

Lemma keyed_push id idx ids : is_prim id → keyed ids → keyed (ids_push id idx ids).
Proof.
  intros Hid [Hnd Hp]. unfold keyed. rewrite keys_push.
  destruct (existsb _ _) eqn:Hex; [done|]. split.
  - apply NoDup_app. split; [done|]. split; [|apply NoDup_singleton].
    intros x Hx ->%list_elem_of_singleton.
    assert (Ht : existsb (fun k => same_value_zero k id) (map fst ids) = true);
      [|congruence].
    apply existsb_exists. exists id.
    split; [by apply list_elem_of_In | by apply same_value_zero_refl].
  - intros k [Hk| ->%list_elem_of_singleton]%elem_of_app; auto.
Qed.

Lemma keyed_collect idField rows : ∀ i ids,
  keyed ids → keyed (collect_ids idField rows i ids).
Proof.
  induction rows as [|r rows IH]; intros i ids H; simpl; [done|].
  apply IH. destruct (truthy _); [|done].
  apply keyed_push; [apply is_prim_field | done].
Qed.

Lemma keyed_group k l ids : keyed ids → (k, l) ∈ ids → group_of k ids = l.
Proof.
  induction ids as [|[k0 l0] ids IH]; intros [Hnd Hp] Hin.
  - by apply elem_of_nil in Hin.
  - simpl in *. apply NoDup_cons in Hnd as [Hk0 Hnd].
    apply elem_of_cons in Hin as [[= -> ->]|Hin].
    + rewrite same_value_zero_refl; [done|]. apply Hp, list_elem_of_here.
    + assert (Hne : k0 ≠ k).
      { intros ->. apply Hk0. apply list_elem_of_In, in_map_iff.
        exists (k, l). split; [done | by apply list_elem_of_In]. }
      rewrite same_value_zero_ne; [|apply Hp, list_elem_of_here | done].
      apply IH; [|done]. split; [done|].
      intros k' Hk'. by apply Hp, list_elem_of_further.
Qed.

Lemma group_entry k ids :
  group_of k ids ≠ [] → (k, group_of k ids) ∈ ids.
Proof.
  induction ids as [|[k0 l0] ids IH]; simpl; [done|].
  destruct (same_value_zero k0 k) eqn:H0.
  - apply same_value_zero_eq in H0 as ->. intros _. apply list_elem_of_here.
  - intros H. by apply list_elem_of_further, IH.
Qed.

Lemma positions_elem idField k rows : ∀ i x,
  x ∈ positions idField k rows i
  ↔ ∃ r : row, i ≤ x ∧ rows !! (x - i) = Some r
               ∧ truthy (field r idField) = true ∧ field r idField = k.
Proof.
  induction rows as [|r rows IH]; intros i x; simpl.
  - split; [by intros H%elem_of_nil | by intros (r & _ & H & _)].
  - assert (Htail : (∃ r' : row, S i ≤ x ∧ rows !! (x - S i) = Some r'
                       ∧ truthy (field r' idField) = true
                       ∧ field r' idField = k)
                    ↔ (∃ r' : row, i ≤ x ∧ x ≠ i
                         ∧ (r :: rows) !! (x - i) = Some r'
                         ∧ truthy (field r' idField) = true
                         ∧ field r' idField = k)).
    { split.
      - intros (r' & Hle & Hr' & Ht & Hk). exists r'.
        replace (x - i) with (S (x - S i)) by lia.
        repeat split; try done; lia.
      - intros (r' & Hle & Hne & Hr' & Ht & Hk). exists r'.
        replace (x - i) with (S (x - S i)) in Hr' by lia.
        repeat split; try done; lia. }
    destruct (truthy (field r idField)) eqn:Ht; simpl.
    + destruct (same_value_zero (field r idField) k) eqn:Hk.
      * apply same_value_zero_eq in Hk.
        rewrite elem_of_cons, IH, Htail. split.
        -- intros [->|(r' & ? & ? & ?)]; [|by exists r'].
           exists r. rewrite Nat.sub_diag. by repeat split.
        -- intros (r' & Hle & Hr'). destruct (decide (x = i)); [by left|].
           right. by exists r'.
      * rewrite IH, Htail. split.
        -- intros (r' & ? & ? & ?). by exists r'.
        -- intros (r' & Hle & Hr' & Ht' & Hk').
           exists r'. repeat split; try done. intros ->.
           rewrite Nat.sub_diag in Hr'. injection Hr' as <-.
           rewrite <- Hk', same_value_zero_refl in Hk; [done|].
           apply is_prim_field.
    + rewrite IH, Htail. split.
      * intros (r' & ? & ? & ?). by exists r'.
      * intros (r' & Hle & Hr' & Ht' & Hk').
        exists r'. repeat split; try done. intros ->.
        rewrite Nat.sub_diag in Hr'. injection Hr' as <-. congruence.
Qed.

Lemma positions_NoDup idField k rows : ∀ i, NoDup (positions idField k rows i).
Proof.
  induction rows as [|r rows IH]; intros i; simpl; [apply NoDup_nil_2|].
  destruct (_ && _); [|done]. apply NoDup_cons. split; [|done].
  intros (r' & Hle & _)%positions_elem. lia.
Qed.

Lemma errors_kept_refl st : errors_kept st st.
Proof. by intros e k c. Qed.

Lemma errors_kept_trans s1 s2 s3 :
  errors_kept s1 s2 → errors_kept s2 s3 → errors_kept s1 s3.
Proof. intros H1 H2 e k c H. by apply H2, H1. Qed.

Lemma errors_kept_set_error e k c m st : errors_kept st (set_error e k c m st).
Proof.
  intros e' k' c' H. rewrite get_error_set_error_cases. by case_decide.
Qed.

Lemma flag_index_row e rows idField id idx i st (r : row) :
  rows !! idx = Some r →
  flag_index e rows idField id idx i st
  = Ok (set_error e (row_key r idx) idField
          ("Duplicate " +:+ idField +:+ ": " +:+ to_string id) st).
Proof. intros H. unfold flag_index. by rewrite H. Qed.

Lemma flag_indices e rows idField id l : ∀ i st,
  (∀ x, x ∈ l → is_Some (rows !! x)) →
  ∃ st',
    forEach_from (flag_index e rows idField id) l i st = Ok st'
    ∧ errors_kept st st'
    ∧ ∀ x (r : row), x ∈ l → rows !! x = Some r →
        is_Some (get_error e (row_key r x) idField st').
Proof.
  induction l as [|a l IH]; intros i st Hv; cbn [forEach_from].
  - exists st. split; [done|]. split; [apply errors_kept_refl|].
    intros x r H. by apply elem_of_nil in H.
  - destruct (Hv a (list_elem_of_here _ _)) as [r Hr].
    rewrite (flag_index_row _ _ _ _ _ _ _ r Hr). cbn [mbind res_bind].
    edestruct (IH (S i)) as (st' & -> & Hk & Hx);
      [intros x Hin; by apply Hv, list_elem_of_further|].
    exists st'. split; [done|]. split.
    + eapply errors_kept_trans; [apply errors_kept_set_error | exact Hk].
    + intros x r' [->|Hin]%elem_of_cons Hr'; [|by apply Hx].
      rewrite Hr in Hr'. injection Hr' as <-. apply Hk.
      rewrite get_error_set_error. eauto.
Qed.

Lemma flag_groups e rows idField es : ∀ i st,
  (∀ k l x, (k, l) ∈ es → x ∈ l → is_Some (rows !! x)) →
  ∃ st',
    forEach_from (flag_group e rows idField) es i st = Ok st'
    ∧ errors_kept st st'
    ∧ (∀ k l x (r : row), (k, l) ∈ es → 1 < length l → x ∈ l →
         rows !! x = Some r →
         is_Some (get_error e (row_key r x) idField st'))
    ∧ ((∀ k l, (k, l) ∈ es → length l ≤ 1) → st' = st).
Proof.
  induction es as [|[k l] es IH]; intros i st Hv; simpl.
  - exists st. split; [done|]. split; [apply errors_kept_refl|].
    split; [|done]. intros k l x r H. by apply elem_of_nil in H.
  - assert (Hv' : ∀ k' l' x, (k', l') ∈ es → x ∈ l' → is_Some (rows !! x)).
    { intros k' l' x Hin. apply (Hv k' l' x). by apply list_elem_of_further. }
    destruct (1 <? length l) eqn:Hlen.
    + unfold forEach.
      edestruct (flag_indices e rows idField k l 0) as (t & -> & Hk1 & Hx1);
        [intros x; apply (Hv k l x), list_elem_of_here|].
      simpl. destruct (IH (S i) t Hv') as (st' & -> & Hk2 & Hx2 & _).
      exists st'. split; [done|]. split.
      * eapply errors_kept_trans; [|exact Hk2].
        eapply errors_kept_trans; [|exact Hk1]. by intros e' k' c'.
      * split.
        -- intros k' l' x r [[= -> ->]|Hin]%elem_of_cons Hl Hx Hr.
           ++ by apply Hk2, Hx1.
           ++ by apply (Hx2 k' l' x r).
        -- intros Hall. apply Nat.ltb_lt in Hlen.
           specialize (Hall k l (list_elem_of_here _ _)). lia.
    + simpl. destruct (IH (S i) st Hv') as (st' & -> & Hk2 & Hx2 & Hsame).
      exists st'. split; [done|]. split; [done|]. split.
      * intros k' l' x r [[= -> ->]|Hin]%elem_of_cons Hl Hx Hr.
        -- apply Nat.ltb_ge in Hlen. lia.
        -- by apply (Hx2 k' l' x r).
      * intros Hall. apply Hsame. intros k' l' Hin.
        apply (Hall k' l'). by apply list_elem_of_further.
Qed.

Lemma two_elements (l : list nat) x y :
  x ∈ l → y ∈ l → x ≠ y → 1 < length l.
Proof.
  destruct l as [|a [|b l]]; simpl; [by intros H%elem_of_nil | | lia].
  intros ->%list_elem_of_singleton ->%list_elem_of_singleton. done.
Qed.

Lemma collected_group idField rows k l :
  (k, l) ∈ collect_ids idField rows 0 [] → l = positions idField k rows 0.
Proof.
  intros Hin.
  assert (Hk : keyed (collect_ids idField rows 0 [])).
  { apply keyed_collect. split; [apply NoDup_nil_2|].
    intros k' H. by apply elem_of_nil in H. }
  rewrite <- (keyed_group k l _ Hk Hin). by rewrite group_of_collect.
Qed.

Lemma identity_check e rows idField st :
  ∃ st',
    checkDuplicateIds e rows idField st = Ok st'
    ∧ (∀ i j (ri rj : row),
         rows !! i = Some ri → rows !! j = Some rj → i ≠ j →
         truthy (field ri idField) = true →
         field rj idField = field ri idField →
         is_Some (get_error e (row_key ri i) idField st'))
    ∧ ((∀ i j (ri rj : row),
          rows !! i = Some ri → rows !! j = Some rj →
          truthy (field ri idField) = true →
          field rj idField = field ri idField → i = j) →
       st' = st).
Proof.
  rewrite checkDuplicateIds_groups. unfold forEach.
  destruct (flag_groups e rows idField (collect_ids idField rows 0 []) 0 st)
    as (st' & H & _ & Hflag & Hsame).
  { intros k l x Hin Hx. rewrite (collected_group _ _ _ _ Hin) in Hx.
    apply positions_elem in Hx as (r & _ & Hr & _).
    rewrite Nat.sub_0_r in Hr. eauto. }
  exists st'. split; [exact H|]. split.
  - intros i j ri rj Hi Hj Hne Ht Heq.
    set (k := field ri idField).
    assert (Hpi : i ∈ positions idField k rows 0).
    { apply positions_elem. exists ri. rewrite Nat.sub_0_r.
      repeat split; [lia | done | done]. }
    assert (Hpj : j ∈ positions idField k rows 0).
    { apply positions_elem. exists rj. rewrite Nat.sub_0_r.
      repeat split; [lia | done | by rewrite Heq | done]. }
    apply (Hflag k (positions idField k rows 0) i ri); try done.
    + pose proof (group_of_collect idField k rows 0 []) as Hg.
      simpl in Hg. rewrite <- Hg. apply group_entry. rewrite Hg.
      intros Hnil. rewrite Hnil in Hpi. by apply elem_of_nil in Hpi.
    + by apply (two_elements _ i j).
  - intros Hinj. apply Hsame. intros k l Hin.
    rewrite (collected_group _ _ _ _ Hin).
    pose proof (positions_NoDup idField k rows 0) as Hnd.
    destruct (positions idField k rows 0) as [|x [|y l']] eqn:Hp;
      simpl; [lia | lia |]. exfalso.
    assert (Hx : x ∈ positions idField k rows 0)
      by (rewrite Hp; apply list_elem_of_here).
    assert (Hy : y ∈ positions idField k rows 0)
      by (rewrite Hp; apply list_elem_of_further, list_elem_of_here).
    apply positions_elem in Hx as (rx & _ & Hrx & Htx & Hkx).
    apply positions_elem in Hy as (ry & _ & Hry & Hty & Hky).
    rewrite Nat.sub_0_r in Hrx, Hry.
    apply NoDup_cons in Hnd as [Hxy _]. apply Hxy.
    rewrite (Hinj x y rx ry Hrx Hry Htx); [apply list_elem_of_here|].
    congruence.
Qed.



End IdentityFacts.

(** ** What the rules can change *)

Module RulesFacts.
Import JS Validation Spec Invariants Facts Pipeline CycleSpec CycleFacts.

Local Open Scope nat_scope.

Lemma run_passes_ext ps qs st :
  Forall2 (fun p q : pass => ∀ st, p st = q st) ps qs →
  run_passes ps st = run_passes qs st.
Proof.
  intros H. revert st. induction H as [|p q ps qs Hpq _ IH]; intros st;
    simpl; [done|].
  rewrite Hpq. destruct (q st); simpl; auto.
Qed.

Lemma coRunRules_idemp rules : coRunRules (coRunRules rules) = coRunRules rules.
Proof.
  unfold coRunRules. by apply list_filter_filter_l.
Qed.

Lemma checkCircularCoRuns_coRunRules rules st :
  checkCircularCoRuns (coRunRules rules) st = checkCircularCoRuns rules st.
Proof.
  unfold checkCircularCoRuns. fold (coRunRules rules).
  fold (coRunRules (coRunRules rules)). by rewrite coRunRules_idemp.
Qed.

(** X19.  Of the rules a run reads the coRun rules only: the rules of
    every other type can be left out without any change to the outcome, be
    it a result or an exception. *)
Theorem validateAllData_reads_coRun_rules_only cs ws ts rules :
  validateAllData (mkArgs cs ws ts (Some (coRunRules rules)))
  = validateAllData (mkArgs cs ws ts (Some rules)).
Proof.
  rewrite !validateAllData_passes. apply run_passes_ext.
  unfold passes. simpl.
  repeat (constructor;
          [first [ intros st; apply checkCircularCoRuns_coRunRules
                 | by intros st ] |]).
  constructor.
Qed.

Lemma checkCircularCoRuns_errors rules st st' :
  checkCircularCoRuns rules st = Ok st' → errors st' = errors st.
Proof.
  intros H.
  by destruct (cycle_check_cases _ _ _ H) as [[-> _]|(task & n & _ & ->)].
Qed.

Lemma checkPhaseSlotSaturation_errors ws ts st st' :
  checkPhaseSlotSaturation ws ts st = Ok st' → errors st' = errors st.
Proof.
  unfold checkPhaseSlotSaturation. intros H.
  apply bind_Ok in H as (ps & _ & H). revert H.
  apply (forEach_rel (fun s s' => errors s' = errors s)); [done | |].
  - intros s1 s2 s3 H1 H2. congruence.
  - intros en j t t' H. unfold report_phase in H.
    apply bind_Ok in H as (over & _ & H).
    destruct over; by injection H as <-.
Qed.

Lemma passes_split args :
  passes args
  = (take 20 (passes args)
     ++ [checkCircularCoRuns (default [] (rules args));
         checkPhaseSlotSaturation (workers args) (tasks args)])%list.
Proof. reflexivity. Qed.

Lemma run_field_errors args r :
  validateAllData args = Ok r →
  ∃ st, run_passes (take 20 (passes args)) init = Ok st
        ∧ errors r = errors st.
Proof.
  rewrite validateAllData_passes, passes_split, run_passes_app. intros H.
  apply bind_Ok in H as (st & Hst & H). exists st. split; [done|].
  simpl in H. apply bind_Ok in H as (s1 & H1 & H).
  apply bind_Ok in H as (s2 & H2 & H). injection H as <-.
  apply checkCircularCoRuns_errors in H1.
  apply checkPhaseSlotSaturation_errors in H2. congruence.
Qed.

(** X20.  No rule leads to a field error or removes one: two runs on the
    same rows give the same field errors whatever their rules are. *)
Theorem rules_change_no_field_error cs ws ts rules1 rules2 r1 r2 :
  validateAllData (mkArgs cs ws ts rules1) = Ok r1 →
  validateAllData (mkArgs cs ws ts rules2) = Ok r2 →
  errors r1 = errors r2.
Proof.
  intros (s1 & H1 & ->)%run_field_errors (s2 & H2 & ->)%run_field_errors.
  change (take 20 (passes (mkArgs cs ws ts rules2)))
    with (take 20 (passes (mkArgs cs ws ts rules1))) in H2.
  congruence.
Qed.

Lemma rules_change_no_field_error_witness :
  ∃ r1 r2,
    validateAllData (mkArgs [client_priority_zero] [] [] None) = Ok r1
    ∧ validateAllData
        (mkArgs [client_priority_zero] [] []
                (Some [coRun ["T1"; "T2"]])) = Ok r2
    ∧ errors r1 = errors r2.
Proof.
  eexists _, _. split; [vm_compute; reflexivity|].
  split; [vm_compute; reflexivity|].
  apply (rules_change_no_field_error [client_priority_zero] [] []
           None (Some [coRun ["T1"; "T2"]])).
  - vm_compute. reflexivity.
  - vm_compute. reflexivity.
Defined.

End RulesFacts.

(** ** The list columns *)

Module ListSpec.
Import JS Validation.






End ListSpec.

Module ListFacts.
Import JS Validation Spec Invariants Facts Pipeline ListSpec.

Local Open Scope nat_scope.














End ListFacts.

(** ** The runs that throw no exception *)

Module ThrowSpec.
Import JS Validation Spec.

(** A cell that writes its list with commas: any value but a text that
    starts with a bracket. *)
Definition delimited (v : jsval) : Prop :=
  ∀ s, v = JStr s → starts_with_bracket (trim s) = false.

(** A cell [Number] reads within the fragment. *)
Definition numeric (v : jsval) : Prop := ∃ n, to_number v = Ok n.

(** A cell that counts as an integer amount: an integer, or a falsy value,
    for which the default 1 stands. *)
Definition amount_cell (v : jsval) : Prop := is_int (js_or v (of_nat 1)).

(** A list of phases written with commas, whose numbers are exact. *)
Definition phases_cell (v : jsval) : Prop :=
  delimited v
  ∧ ∀ l, list_of_field parsed_int v = Ok l →
         Forall (fun p => numbers_safe p = true) l.

(** A cell [JSON.parse] reads within the fragment. *)
Definition json_cell (v : jsval) : Prop := JSON.parse_val v ≠ Unsupported.

(** Every number of the row is exact, and its [id] names no member of
    [Object.prototype]. *)
Definition cells_safe (r : row) : bool :=
  negb (Dict.inherited (to_string (field r "id")))
  && forallb (fun kc => numbers_safe (cell_val (snd kc))) (map_to_list r).

(** A plain snapshot: the lists are written with commas, the amounts are
    integers or left out, the other numeric cells and the attributes are
    read within the fragment, every number is exact, no row is named like
    a member of [Object.prototype], and the graph takes every coRun
    rule. *)
Definition plain (args : ValidateAllDataArgs) : Prop :=
  (∀ c : row, c ∈ clients args →
      cells_safe c = true
      ∧ numeric (field c "PriorityLevel")
      ∧ delimited (field c "RequestedTaskIDs")
      ∧ json_cell (field c "AttributesJSON"))
  ∧ (∀ w : row, w ∈ workers args →
      cells_safe w = true
      ∧ delimited (field w "Skills")
      ∧ phases_cell (field w "AvailableSlots")
      ∧ amount_cell (field w "MaxLoadPerPhase"))
  ∧ (∀ t : row, t ∈ tasks args →
      cells_safe t = true
      ∧ delimited (field t "RequiredSkills")
      ∧ phases_cell (field t "PreferredPhases")
      ∧ amount_cell (field t "Duration")
      ∧ numeric (field t "MaxConcurrent"))
  ∧ (∀ r, r ∈ default [] (rules args) → rule_type r = "coRun" →
          rule_taken r).

(** A snapshot as a delimited file gives it: every cell is a text. *)
Definition text_snapshot : ValidateAllDataArgs :=
  mkArgs
    [mkrow [("id", CStr "C1"); ("ClientID", CStr "C1");
            ("ClientName", CStr "Acme"); ("PriorityLevel", CStr "3");
            ("RequestedTaskIDs", CStr "T1, T9"); ("GroupTag", CStr "G");
            ("AttributesJSON", CStr "{}")]]
    [mkrow [("id", CStr "W1"); ("WorkerID", CStr "W1");
            ("WorkerName", CStr "Ann"); ("Skills", CStr "a,b");
            ("AvailableSlots", CStr "1,2"); ("MaxLoadPerPhase", CStr "");
            ("WorkerGroup", CStr "G"); ("QualificationLevel", CStr "1")]]
    [mkrow [("id", CStr "T1"); ("TaskID", CStr "T1");
            ("TaskName", CStr "Build"); ("Category", CStr "Dev");
            ("Duration", CStr ""); ("RequiredSkills", CStr "a,c");
            ("PreferredPhases", CStr "2"); ("MaxConcurrent", CStr "2")]]
    (Some [coRun ["T1"; "T2"]]).

End ThrowSpec.

Module ThrowFacts.
Import JS Validation Spec Invariants Facts Pipeline ThrowSpec.

Local Open Scope nat_scope.

Lemma forEach_returns {A St : Type} (f : A → nat → St → res St) l s :
  (∀ a j t, a ∈ l → ∃ t', f a j t = Ok t') → ∃ s', forEach f l s = Ok s'.
Proof.
  unfold forEach. generalize 0. revert s.
  induction l as [|a l IH]; intros s i Hf; simpl; [eauto|].
  destruct (Hf a i s) as [t' ->]; [apply list_elem_of_here|]. simpl.
  apply IH. intros a' j t Hin. by apply Hf, list_elem_of_further.
Qed.

(** A list written with commas is the list of its items, and any other
    value but a text makes the reading throw. *)
Lemma list_of_field_delimited (post : string → jsval) v :
  delimited v →
  (∃ s, v = JStr s ∧ list_of_field post v = Ok (map post (split_on "," s)))
  ∨ list_of_field post v = Throw TypeError.
Proof.
  intros Hv. destruct v as [| | | |s| |]; try by right.
  left. exists s. split; [done|]. unfold list_of_field.
  by rewrite (Hv s eq_refl).
Qed.

Lemma to_number_to_primitive v : to_number (to_primitive v) = to_number v.
Proof. by destruct v. Qed.

Lemma js_lt_number_returns n v :
  numeric v → ∃ b, js_lt (JNum n) v = Ok b.
Proof.
  intros [m Hm]. unfold js_lt.
  assert (H : ∃ b, (na ← to_number (JNum n);
                    nb ← to_number (to_primitive v); Ok (num_ltb na nb))
                   = Ok b).
  { rewrite to_number_to_primitive, Hm. simpl. eauto. }
  simpl. by destruct (to_primitive v).
Qed.

Lemma amount_cell_numeric v : amount_cell v → numeric v.
Proof.
  intros [z Hz]. unfold js_or in Hz.
  destruct v as [| |[]|[|x]|s| |]; simpl in Hz; try discriminate;
    unfold numeric; simpl; eauto.
  destruct (String.eqb_spec s EmptyString) as [->|Hne]; [by exists (Int 0)|].
  simpl in Hz. discriminate.
Qed.

Lemma js_or_numeric v : numeric v → numeric (js_or v (of_nat 1)).
Proof.
  intros Hv. unfold js_or. destruct (truthy v); [done|].
  by exists (Int 1).
Qed.

Lemma checkMissingColumns_returns en rows st :
  ∃ st', checkMissingColumns en rows st = Ok st'.
Proof.
  unfold checkMissingColumns. destruct rows as [|row0 rows]; [eauto|].
  destruct (filter _ _); [eauto|]. apply forEach_returns. eauto.
Qed.

Lemma checkDuplicateIds_returns en rows idField st :
  ∃ st', checkDuplicateIds en rows idField st = Ok st'.
Proof.
  destruct (IdentityFacts.identity_check en rows idField st) as (st' & H & _).
  eauto.
Qed.

Lemma checkOutOfRange_returns en rows f lo hi st :
  (∀ r : row, r ∈ rows → numeric (field r f)) →
  ∃ st', checkOutOfRange en rows f lo hi st = Ok st'.
Proof.
  intros Hrows. apply forEach_returns. intros r j t Hr.
  unfold checkOutOfRange_row. destruct (is_blank _); [eauto|].
  destruct (Hrows r Hr) as [n ->]. simpl.
  destruct (out_of_range _ _ _); eauto.
Qed.

Lemma printable_map_post (post : string → jsval) l :
  (∀ s, printable (post s) = true) → forallb printable (map post l) = true.
Proof.
  intros Hp. apply forallb_forall. intros x Hx.
  apply in_map_iff in Hx as (s & <- & _). apply Hp.
Qed.

Lemma checkMalformedLists_returns en rows f numeric st :
  (∀ r : row, r ∈ rows → delimited (field r f)) →
  ∃ st', checkMalformedLists en rows f numeric st = Ok st'.
Proof.
  intros Hrows. apply forEach_returns. intros r j t Hr.
  unfold checkMalformedLists_row. destruct (negb _); [eauto|].
  destruct (list_of_field_delimited trimmed _ (Hrows r Hr))
    as [(s & _ & ->) | ->]; [|eauto].
  destruct numeric; [|eauto].
  rewrite printable_map_post by done. simpl.
  destruct (filter _ _); eauto.
Qed.

Lemma checkJSONFormat_returns en rows f st :
  (∀ r : row, r ∈ rows → json_cell (field r f)) →
  ∃ st', checkJSONFormat en rows f st = Ok st'.
Proof.
  intros Hrows. apply forEach_returns. intros r j t Hr.
  unfold checkJSONFormat_row. destruct (negb _); [eauto|].
  specialize (Hrows r Hr). unfold json_cell in Hrows.
  destruct (JSON.parse_val _); [eauto | eauto | done].
Qed.

Lemma checkOverloadedWorkers_returns ws st :
  (∀ w : row, w ∈ ws → delimited (field w "AvailableSlots")
                        ∧ amount_cell (field w "MaxLoadPerPhase")) →
  ∃ st', checkOverloadedWorkers ws st = Ok st'.
Proof.
  intros Hws. apply forEach_returns. intros w j t Hw.
  destruct (Hws w Hw) as [Hd Ha].
  unfold checkOverloadedWorkers_row.
  destruct (list_of_field_delimited parsed_int _ Hd)
    as [(s & _ & ->) | ->]; [|eauto].
  destruct (js_lt_number_returns
              (Int (Z.of_nat (length (map parsed_int (split_on "," s)))))
              (js_or (field w "MaxLoadPerPhase") (of_nat 1)))
    as [b Hb]; [by apply js_or_numeric, amount_cell_numeric|].
  unfold of_nat at 1. rewrite Hb. simpl. destruct b; eauto.
Qed.

Lemma filter_res_returns {A : Type} (f : A → res bool) l :
  (∀ a, a ∈ l → ∃ b, f a = Ok b) → ∃ l', filter_res f l = Ok l'.
Proof.
  induction l as [|a l IH]; intros Hf; simpl; [eauto|].
  destruct (Hf a) as [b ->]; [apply list_elem_of_here|]. simpl.
  destruct IH as [l' ->];
    [intros a' Ha'; by apply Hf, list_elem_of_further|].
  simpl. eauto.
Qed.

Lemma checkMaxConcurrencyFeasibility_returns ws ts st :
  (∀ w : row, w ∈ ws → delimited (field w "Skills")) →
  (∀ t : row, t ∈ ts → delimited (field t "RequiredSkills")
                        ∧ numeric (field t "MaxConcurrent")) →
  ∃ st', checkMaxConcurrencyFeasibility ws ts st = Ok st'.
Proof.
  intros Hws Hts. apply forEach_returns. intros t j u Ht.
  destruct (Hts t Ht) as [Hd Hn].
  unfold checkMaxConcurrencyFeasibility_row.
  destruct (negb _); [eauto|].
  destruct (list_of_field_delimited trimmed _ Hd)
    as [(s & _ & ->) | ->]; [|eauto].
  destruct (filter_res_returns
              (is_qualified (map trimmed (split_on "," s))) ws)
    as [q ->].
  { intros w Hw. unfold is_qualified.
    destruct (list_of_field_delimited trimmed _ (Hws w Hw))
      as [(s' & _ & ->) | ->]; eauto. }
  simpl.
  destruct (js_lt_number_returns (Int (Z.of_nat (length q)))
              (js_or (field t "MaxConcurrent") (of_nat 1)))
    as [b Hb]; [by apply js_or_numeric|].
  unfold of_nat at 1. rewrite Hb. simpl. destruct b; eauto.
Qed.

Lemma text_items_return (f : jsval → nat → ValidationResult
                               → res ValidationResult) l st :
  (∀ s j t, ∃ t', f (JStr s) j t = Ok t') →
  ∃ st', forEach f (map JStr l) st = Ok st'.
Proof.
  intros Hf. apply forEach_returns. intros x j t Hx.
  apply list_elem_of_fmap in Hx as (s & -> & _). apply Hf.
Qed.

Lemma check_task_references_returns cs ts st :
  (∀ c : row, c ∈ cs → delimited (field c "RequestedTaskIDs")) →
  ∃ st', check_task_references cs ts st = Ok st'.
Proof.
  intros Hcs. apply forEach_returns. intros c j t Hc.
  unfold check_task_references_row. destruct (truthy _); [|eauto].
  destruct (list_of_field_delimited JStr _ (Hcs c Hc))
    as [(s & _ & ->) | ->]; simpl.
  - apply text_items_return. intros x k u. unfold check_requested_task.
    destruct (truthy _); [|eauto]. simpl. destruct (negb _); eauto.
  - by exists t.
Qed.

Lemma map_res_returns {A B : Type} (f : A → res B) l :
  (∀ a, a ∈ l → ∃ b, f a = Ok b) → ∃ l', map_res f l = Ok l'.
Proof.
  induction l as [|a l IH]; intros Hf; simpl; [eauto|].
  destruct (Hf a) as [b ->]; [apply list_elem_of_here|]. simpl.
  destruct IH as [l' ->];
    [intros a' Ha'; by apply Hf, list_elem_of_further|].
  simpl. eauto.
Qed.

Lemma map_res_Forall2 {A B : Type} (f : A → res B) l l' :
  map_res f l = Ok l' → Forall2 (fun a b => f a = Ok b) l l'.
Proof.
  revert l'. induction l as [|a l IH]; intros l' H; simpl in H.
  - injection H as <-. constructor.
  - apply bind_Ok in H as (b & Hb & H).
    apply bind_Ok in H as (rest & Hrest & H). injection H as <-.
    constructor; auto.
Qed.

Lemma worker_skill_list_texts w l :
  delimited (field w "Skills") → worker_skill_list w = Ok l →
  Forall (fun x => is_string x = true) l.
Proof.
  intros Hd. unfold worker_skill_list. destruct (negb _).
  - intros [= <-]. constructor.
  - destruct (list_of_field_delimited JStr _ Hd)
      as [(s & _ & ->) | ->]; simpl; intros [= <-]; [|constructor].
    apply Forall_forall. by intros x (t & -> & _)%list_elem_of_fmap.
Qed.

Lemma all_worker_skills_returns ws :
  (∀ w : row, w ∈ ws → delimited (field w "Skills")) →
  ∃ l, all_worker_skills ws = Ok l.
Proof.
  intros Hws. unfold all_worker_skills.
  destruct (map_res_returns worker_skill_list ws) as [lists Hl].
  { intros w Hw. unfold worker_skill_list. destruct (negb _); [eauto|].
    destruct (list_of_field_delimited JStr _ (Hws w Hw))
      as [(s & _ & ->) | ->]; simpl; eauto. }
  rewrite Hl. simpl. apply map_res_Forall2 in Hl.
  destruct (map_res_returns js_trim (concat lists)) as [tr ->]; [|simpl; eauto].
  intros x Hx.
  apply list_elem_of_In, in_concat in Hx as (l & Hin & Hx).
  apply list_elem_of_In in Hin. apply list_elem_of_In in Hx.
  destruct (proj1 (list_elem_of_lookup _ _) Hin) as [i Hi].
  destruct (Forall2_lookup_r _ _ _ _ _ Hl Hi) as (w & Hw & Hwl).
  apply list_elem_of_lookup_2 in Hw.
  pose proof (worker_skill_list_texts w l (Hws w Hw) Hwl) as Hall.
  pose proof (proj1 (Forall_forall _ _) Hall x Hx) as Hs.
  destruct x; try discriminate. simpl. eauto.
Qed.

Lemma check_skill_coverage_returns ws ts st :
  (∀ w : row, w ∈ ws → delimited (field w "Skills")) →
  (∀ t : row, t ∈ ts → delimited (field t "RequiredSkills")) →
  ∃ st', check_skill_coverage ws ts st = Ok st'.
Proof.
  intros Hws Hts. unfold check_skill_coverage.
  destruct (all_worker_skills_returns ws Hws) as [skills ->]. simpl.
  apply forEach_returns. intros t j u Ht.
  unfold check_skill_coverage_row. destruct (truthy _); [|eauto].
  destruct (list_of_field_delimited JStr _ (Hts t Ht))
    as [(s & _ & ->) | ->]; simpl.
  - apply text_items_return. intros x k v. unfold check_required_skill.
    destruct (truthy _); [|eauto]. simpl. destruct (negb _); eauto.
  - by exists u.
Qed.

(** The text of a number names no member of [Object.prototype]. *)
Lemma inherited_number n : Dict.inherited (to_string (JNum n)) = false.
Proof.
  destruct n as [|z]; [reflexivity|]. simpl. unfold string_of_Z.
  destruct (Z.to_int z) as [d|d]; [destruct d|]; reflexivity.
Qed.

Lemma phase_key_number (post : string → jsval) s :
  (∀ s, ∃ n, post s = JNum n) →
  numbers_safe (post s) = true → ∃ k, phase_key (post s) = Ok k.
Proof.
  intros Hpost Hs. destruct (Hpost s) as [n Hn]. rewrite Hn in *.
  exists (to_string (JNum n)). unfold phase_key, to_string_res.
  change (printable (JNum n)) with true. rewrite Hs.
  cbn [negb mbind res_bind]. by rewrite inherited_number.
Qed.

(** The amounts a row with a list of phases written with commas records
    are its amount, once for each phase. *)
Lemma phase_amounts_return v (amount : jsval) :
  phases_cell v →
  ∃ l : list (string * jsval),
    match list_of_field parsed_int v with
    | Throw _ => Ok []
    | Unsupported => Unsupported
    | Ok l => map_res (fun p => k ← phase_key p; Ok (k, amount)) l
    end = Ok l
    ∧ Forall (fun e => snd e = amount) l.
Proof.
  intros [Hd Hsafe].
  destruct (list_of_field_delimited parsed_int _ Hd)
    as [(s & _ & Hl) | ->]; [|by exists []].
  rewrite Hl. specialize (Hsafe _ Hl). clear Hl.
  induction (split_on "," s) as [|x xs IH]; [by exists []|].
  apply Forall_cons in Hsafe as [Hx Hxs].
  destruct (IH Hxs) as (l & Hl' & Hall).
  destruct (phase_key_number parsed_int x) as [k Hk]; [by eexists | done |].
  exists ((k, amount) :: l). cbn [map map_res]. rewrite Hk.
  cbn [mbind res_bind]. rewrite Hl'. split; [done|].
  by constructor.
Qed.

Lemma gather_returns (f : row → res (list (string * jsval))) rows
    (amount : row → jsval) :
  (∀ r, r ∈ rows → ∃ l, f r = Ok l ∧ Forall (fun e => snd e = amount r) l) →
  (∀ r, r ∈ rows → is_int (amount r)) →
  ∃ l, gather f rows = Ok l ∧ Forall (fun e => is_int (snd e)) l.
Proof.
  induction rows as [|r rows IH]; intros Hf Ha; [by exists []|].
  destruct (Hf r) as (l & Hl & Hall); [apply list_elem_of_here|].
  destruct IH as (ls & Hls & Halls);
    [intros r' Hr'; by apply Hf, list_elem_of_further
    |intros r' Hr'; by apply Ha, list_elem_of_further|].
  exists (l ++ ls)%list. cbn [gather]. rewrite Hl, Hls. split; [done|].
  apply Forall_app. split; [|done].
  eapply Forall_impl; [exact Hall|]. intros e ->.
  apply Ha, list_elem_of_here.
Qed.

Lemma checkPhaseSlotSaturation_returns ws ts st :
  (∀ w : row, w ∈ ws → phases_cell (field w "AvailableSlots")
                        ∧ amount_cell (field w "MaxLoadPerPhase")) →
  (∀ t : row, t ∈ ts → phases_cell (field t "PreferredPhases")
                        ∧ amount_cell (field t "Duration")) →
  ∃ st', checkPhaseSlotSaturation ws ts st = Ok st'.
Proof.
  intros Hws Hts.
  destruct (gather_returns worker_loads ws
              (fun w => js_or (field w "MaxLoadPerPhase") (of_nat 1)))
    as (loads & Hl & Il).
  { intros w Hw. apply phase_amounts_return. by apply Hws. }
  { intros w Hw. by apply Hws. }
  destruct (gather_returns task_demands ts
              (fun t => js_or (field t "Duration") (of_nat 1)))
    as (demands & Hd & Id).
  { intros t Ht. apply phase_amounts_return. by apply Hts. }
  { intros t Ht. by apply Hts. }
  by apply (PhaseFacts.saturation_check_returns ws ts st loads demands).
Qed.

Lemma run_passes_returns ps : ∀ st,
  (∀ p : pass, p ∈ ps → ∀ st, ∃ st', p st = Ok st') →
  ∃ r, run_passes ps st = Ok r.
Proof.
  induction ps as [|p ps IH]; intros st Hps; simpl; [eauto|].
  destruct (Hps p (list_elem_of_here _ _) st) as [st' ->]. simpl.
  apply IH. intros q Hq. by apply Hps, list_elem_of_further.
Qed.

Lemma plain_returns args :
  plain args → ∃ r, validateAllData args = Ok r.
Proof.
  intros (Hc & Hw & Ht & Hr). rewrite validateAllData_passes.
  apply run_passes_returns. unfold passes. intros p Hp.
  repeat (apply elem_of_cons in Hp as [->|Hp];
          [intros st;
           first [ apply checkMissingColumns_returns
                 | apply checkDuplicateIds_returns
                 | apply checkOutOfRange_returns; intros x Hx;
                   first [ by apply Hc
                         | by apply amount_cell_numeric, Hw
                         | by apply amount_cell_numeric, Ht
                         | by apply Ht ]
                 | apply checkMalformedLists_returns; intros x Hx;
                   first [ by apply Hc | by apply Hw | by apply Ht ]
                 | apply checkJSONFormat_returns; intros x Hx; by apply Hc
                 | apply checkOverloadedWorkers_returns; intros x Hx;
                   split; by apply Hw
                 | apply checkMaxConcurrencyFeasibility_returns;
                   intros x Hx; first [ by apply Hw | split; by apply Ht ]
                 | apply check_task_references_returns; intros x Hx;
                   by apply Hc
                 | apply check_skill_coverage_returns; intros x Hx;
                   first [ by apply Hw | by apply Ht ]
                 | by apply GraphFacts.checkCircularCoRuns_returns
                 | apply checkPhaseSlotSaturation_returns; intros x Hx;
                   split; first [ by apply Hw | by apply Ht ] ]|]).
  by apply elem_of_nil in Hp.
Qed.

(** X23.  A run on a plain snapshot returns a result: it neither throws
    nor leaves the modelled fragment.  A snapshot is plain when its lists
    are written with commas (no cell of a list column is a text starting
    with a bracket), MaxLoadPerPhase and Duration are integers or falsy,
    PriorityLevel, MaxConcurrent and AttributesJSON are read within the
    fragment, the numbers of the cells and of the phases are exact, no
    row has the name of a member of [Object.prototype] for its id, and a
    task of a coRun rule with such a name stands alone in its rule. *)
Theorem validateAllData_returns_on_plain_snapshot args :
  plain args → ∃ r, validateAllData args = Ok r.
Proof. apply plain_returns. Qed.

Lemma validateAllData_returns_on_plain_snapshot_witness :
  ∃ r, validateAllData text_snapshot = Ok r.
Proof.
  apply (validateAllData_returns_on_plain_snapshot text_snapshot).
  assert (Hdel : ∀ s, starts_with_bracket (trim s) = false →
                      delimited (JStr s)).
  { intros s Hs s' [= <-]. exact Hs. }
  assert (Hph : ∀ s l, starts_with_bracket (trim s) = false →
                  list_of_field parsed_int (JStr s) = Ok l →
                  forallb numbers_safe l = true →
                  phases_cell (JStr s)).
  { intros s l Hs Hl Hsafe. split; [by apply Hdel|].
    intros l' Hl'. rewrite Hl in Hl'. injection Hl' as <-.
    apply Forall_forall. intros p Hp.
    by apply (proj1 (forallb_forall _ _) Hsafe), list_elem_of_In. }
  split; [|split; [|split]].
  - intros c ->%list_elem_of_singleton. repeat split.
    + by exists (Int 3).
    + by apply Hdel.
    + by vm_compute.
  - intros w ->%list_elem_of_singleton. repeat split.
    + by apply Hdel.
    + by apply Hdel.
    + intros l Hl. vm_compute in Hl. injection Hl as <-.
      by repeat constructor.
    + by exists 1%Z.
  - intros t ->%list_elem_of_singleton. repeat split.
    + by apply Hdel.
    + by apply Hdel.
    + intros l Hl. vm_compute in Hl. injection Hl as <-.
      by repeat constructor.
    + by exists 1%Z.
    + by exists (Int 2).
  - intros r ->%list_elem_of_singleton _. exists ["T1"; "T2"].
    split; [done|]. intros t o Ht Ho Hin. exfalso.
    apply elem_of_cons in Ht as [->|Ht]; [by vm_compute in Hin|].
    apply list_elem_of_singleton in Ht as ->. by vm_compute in Hin.
Defined.

(** The run of the witness. *)
Example text_snapshot_run :
  ∃ r, validateAllData text_snapshot = Ok r
       ∧ summary r
         = ["tasks: Row 1 max concurrency not feasible";
            "clients: Row 1 requests unknown task ' T9'";
            "tasks: Row 1 requires skill 'c' not found in any worker";
            "Circular co-run dependency detected involving task T1"].
Proof. eexists. split; vm_compute; reflexivity. Qed.

End ThrowFacts.

(** ** The columns a run reads *)

Module FrameSpec.
Import JS Validation.

(** The columns of a row of an entity that a run looks at. *)
Definition read_columns (e : Entity) : list string :=
  "id" :: requiredColumns e.

(** Two rows with the same cells in those columns. *)
Definition agree (e : Entity) (r r' : row) : Prop :=
  ∀ c, c ∈ read_columns e → r !! c = r' !! c.

End FrameSpec.

Module FrameFacts.
Import JS Validation Spec Invariants Facts Pipeline IdentitySpec FrameSpec.

Local Open Scope nat_scope.

Ltac in_read :=
  unfold read_columns; simpl;
  repeat (first [apply list_elem_of_here | apply list_elem_of_further]).

Lemma field_agree e (r r' : row) c :
  agree e r r' → c ∈ read_columns e → field r c = field r' c.
Proof. intros H Hc. unfold field. by rewrite (H c Hc). Qed.

Lemma row_key_agree e (r r' : row) i : agree e r r' → row_key r i = row_key r' i.
Proof.
  intros H. unfold row_key. rewrite (field_agree e r r' "id" H); [done|].
  apply list_elem_of_here.
Qed.

Lemma forEach_agree {St : Type} e (f f' : row → nat → St → res St) l l' st :
  Forall2 (agree e) l l' →
  (∀ r r' i st, agree e r r' → f r i st = f' r' i st) →
  forEach f l st = forEach f' l' st.
Proof.
  intros Hl Hf. unfold forEach. generalize 0. revert st.
  induction Hl as [|r r' l l' Hr _ IH]; intros st i; simpl; [done|].
  rewrite (Hf r r' i st Hr). destruct (f' r' i st); simpl; auto.
Qed.

Lemma forEach_ext {A St : Type} (f g : A → nat → St → res St) l st :
  (∀ a i st, f a i st = g a i st) → forEach f l st = forEach g l st.
Proof.
  intros Hf. unfold forEach. generalize 0. revert st.
  induction l as [|a l IH]; intros st i; simpl; [done|].
  rewrite Hf. destruct (g a i st); simpl; auto.
Qed.

Lemma map_agree {B : Type} e (f : row → B) l l' :
  Forall2 (agree e) l l' → (∀ r r', agree e r r' → f r = f r') →
  map f l = map f l'.
Proof.
  intros Hl Hf. induction Hl as [|r r' l l' Hr _ IH]; simpl; [done|].
  by rewrite (Hf r r' Hr), IH.
Qed.

Lemma filter_same {A : Type} (p q : A → bool) (l : list A) :
  (∀ a, a ∈ l → p a = q a) → filter p l = filter q l.
Proof.
  induction l as [|a l IH]; intros H; [done|].
  rewrite !filter_cons, (H a (list_elem_of_here _ _)).
  rewrite IH; [done|]. intros a' Ha'. by apply H, list_elem_of_further.
Qed.

Lemma checkMissingColumns_agree e rows rows' st :
  Forall2 (agree e) rows rows' →
  checkMissingColumns e rows st = checkMissingColumns e rows' st.
Proof.
  intros Hl. unfold checkMissingColumns.
  destruct Hl as [|r0 r0' l l' H0 Hl]; [done|].
  assert (Hm : filter (fun col => bool_decide (r0 !! col = None))
                 (requiredColumns e)
               = filter (fun col => bool_decide (r0' !! col = None))
                   (requiredColumns e)).
  { apply filter_same. intros c Hc.
    by rewrite (H0 c (list_elem_of_further _ _ _ Hc)). }
  cbv zeta. rewrite Hm.
  set (m := filter (fun col => bool_decide (r0' !! col = None))
              (requiredColumns e)).
  destruct m as [|c cols]; [reflexivity|].
  apply (forEach_agree e); [by constructor|].
  intros r r' i t Hr. by rewrite (row_key_agree e r r' i Hr).
Qed.

Lemma collect_ids_agree e idField rows rows' :
  idField ∈ read_columns e → Forall2 (agree e) rows rows' →
  ∀ i ids, collect_ids idField rows i ids = collect_ids idField rows' i ids.
Proof.
  intros Hf Hl. induction Hl as [|r r' l l' Hr _ IH]; intros i ids; simpl;
    [done|].
  by rewrite (field_agree e r r' idField Hr Hf), IH.
Qed.

Lemma checkDuplicateIds_agree e idField rows rows' st :
  idField ∈ read_columns e → Forall2 (agree e) rows rows' →
  checkDuplicateIds e rows idField st = checkDuplicateIds e rows' idField st.
Proof.
  intros Hf Hl. rewrite !IdentityFacts.checkDuplicateIds_groups.
  rewrite (collect_ids_agree e idField rows rows' Hf Hl).
  apply forEach_ext. intros [id indices] i t. unfold flag_group.
  destruct (1 <? length indices); [|done].
  apply forEach_ext. intros idx j u. unfold flag_index.
  destruct (rows !! idx) as [r|] eqn:Hr.
  - destruct (Forall2_lookup_l _ _ _ _ _ Hl Hr) as (r' & -> & Hrr).
    by rewrite (row_key_agree e r r' idx Hrr).
  - assert (Hn : rows' !! idx = None); [|by rewrite Hn].
    apply lookup_ge_None. apply lookup_ge_None in Hr.
    by rewrite <- (Forall2_length _ _ _ Hl).
Qed.

Lemma checkOutOfRange_agree e f lo hi rows rows' st :
  f ∈ read_columns e → Forall2 (agree e) rows rows' →
  checkOutOfRange e rows f lo hi st = checkOutOfRange e rows' f lo hi st.
Proof.
  intros Hf Hl. apply (forEach_agree e); [done|].
  intros r r' i t Hr. unfold checkOutOfRange_row.
  by rewrite (field_agree e r r' f Hr Hf), (row_key_agree e r r' i Hr).
Qed.

Lemma checkMalformedLists_agree e f numeric rows rows' st :
  f ∈ read_columns e → Forall2 (agree e) rows rows' →
  checkMalformedLists e rows f numeric st
  = checkMalformedLists e rows' f numeric st.
Proof.
  intros Hf Hl. apply (forEach_agree e); [done|].
  intros r r' i t Hr. unfold checkMalformedLists_row.
  by rewrite (field_agree e r r' f Hr Hf), (row_key_agree e r r' i Hr).
Qed.

Lemma checkJSONFormat_agree e f rows rows' st :
  f ∈ read_columns e → Forall2 (agree e) rows rows' →
  checkJSONFormat e rows f st = checkJSONFormat e rows' f st.
Proof.
  intros Hf Hl. apply (forEach_agree e); [done|].
  intros r r' i t Hr. unfold checkJSONFormat_row.
  by rewrite (field_agree e r r' f Hr Hf), (row_key_agree e r r' i Hr).
Qed.

Lemma checkOverloadedWorkers_agree ws ws' st :
  Forall2 (agree EWorkers) ws ws' →
  checkOverloadedWorkers ws st = checkOverloadedWorkers ws' st.
Proof.
  intros Hl. apply (forEach_agree EWorkers); [done|].
  intros r r' i t Hr. unfold checkOverloadedWorkers_row.
  rewrite (field_agree _ r r' "AvailableSlots" Hr) by in_read.
  rewrite (field_agree _ r r' "MaxLoadPerPhase" Hr) by in_read.
  by rewrite (row_key_agree _ r r' i Hr).
Qed.

Lemma filter_res_agree e (f : row → res bool) ws ws' :
  Forall2 (agree e) ws ws' → (∀ w w', agree e w w' → f w = f w') →
  filter_res f ws ≫= (fun q => Ok (length q))
  = filter_res f ws' ≫= (fun q => Ok (length q)).
Proof.
  intros Hl Hf. induction Hl as [|w w' l l' Hw _ IH]; simpl; [done|].
  rewrite (Hf w w' Hw). destruct (f w') as [keep| |]; simpl; [|done|done].
  destruct (filter_res f l) as [q| |], (filter_res f l') as [q'| |];
    simpl in *; try done.
  injection IH as IH. destruct keep; simpl; by rewrite IH.
Qed.

Lemma checkMaxConcurrencyFeasibility_agree ws ws' ts ts' st :
  Forall2 (agree EWorkers) ws ws' → Forall2 (agree ETasks) ts ts' →
  checkMaxConcurrencyFeasibility ws ts st
  = checkMaxConcurrencyFeasibility ws' ts' st.
Proof.
  intros Hw Ht. apply (forEach_agree ETasks); [done|].
  intros r r' i t Hr. unfold checkMaxConcurrencyFeasibility_row.
  rewrite (field_agree _ r r' "RequiredSkills" Hr) by in_read.
  rewrite (field_agree _ r r' "MaxConcurrent" Hr) by in_read.
  rewrite (row_key_agree _ r r' i Hr).
  destruct (negb _); [done|].
  destruct (list_of_field _ _) as [skills| |]; [|done|done].
  pose proof (filter_res_agree EWorkers (is_qualified skills) ws ws' Hw)
    as Hq.
  destruct (filter_res _ ws) as [q| |], (filter_res _ ws') as [q'| |];
    simpl in Hq |- *;
    try (discriminate Hq; [intros w w' Hww; unfold is_qualified;
           by rewrite (field_agree _ w w' "Skills" Hww) by in_read]);
    try done.
  - assert (Hlen : length q = length q'); [|by rewrite Hlen].
    assert (Ok (length q) = Ok (length q')) as [= ->]; [|done].
    apply Hq. intros w w' Hww. unfold is_qualified.
    by rewrite (field_agree _ w w' "Skills" Hww) by in_read.
  - f_equal. assert (H : Throw e = Throw e0 :> res nat); [|by injection H].
    apply Hq. intros w w' Hww. unfold is_qualified.
    by rewrite (field_agree _ w w' "Skills" Hww) by in_read.
Qed.

Lemma check_task_references_agree cs cs' ts ts' st :
  Forall2 (agree EClients) cs cs' → Forall2 (agree ETasks) ts ts' →
  check_task_references cs ts st = check_task_references cs' ts' st.
Proof.
  intros Hc Ht. unfold check_task_references.
  rewrite (map_agree ETasks (fun t => field t "TaskID") ts ts' Ht)
    by (intros t t' Htt; apply (field_agree ETasks); [done | in_read]).
  apply (forEach_agree EClients); [done|].
  intros r r' i t Hr. unfold check_task_references_row.
  rewrite (field_agree _ r r' "RequestedTaskIDs" Hr) by in_read.
  destruct (truthy _); [|done].
  destruct (try_catch _ _); simpl; [|done|done].
  apply forEach_ext. intros x j u. unfold check_requested_task.
  by rewrite (row_key_agree _ r r' i Hr).
Qed.

Lemma map_res_agree {B : Type} e (f : row → res B) l l' :
  Forall2 (agree e) l l' → (∀ r r', agree e r r' → f r = f r') →
  map_res f l = map_res f l'.
Proof.
  intros Hl Hf. induction Hl as [|r r' l l' Hr _ IH]; simpl; [done|].
  by rewrite (Hf r r' Hr), IH.
Qed.

Lemma check_skill_coverage_agree ws ws' ts ts' st :
  Forall2 (agree EWorkers) ws ws' → Forall2 (agree ETasks) ts ts' →
  check_skill_coverage ws ts st = check_skill_coverage ws' ts' st.
Proof.
  intros Hw Ht. unfold check_skill_coverage, all_worker_skills.
  rewrite (map_res_agree EWorkers worker_skill_list ws ws' Hw).
  2:{ intros w w' Hww. unfold worker_skill_list.
      by rewrite (field_agree _ w w' "Skills" Hww) by in_read. }
  destruct (map_res worker_skill_list ws' ≫= _) as [skills| |]; simpl;
    [|done|done].
  apply (forEach_agree ETasks); [done|].
  intros r r' i t Hr. unfold check_skill_coverage_row.
  rewrite (field_agree _ r r' "RequiredSkills" Hr) by in_read.
  destruct (truthy _); [|done].
  destruct (try_catch _ _); simpl; [|done|done].
  apply forEach_ext. intros x j u. unfold check_required_skill.
  by rewrite (row_key_agree _ r r' i Hr).
Qed.

Lemma checkPhaseSlotSaturation_agree ws ws' ts ts' st :
  Forall2 (agree EWorkers) ws ws' → Forall2 (agree ETasks) ts ts' →
  checkPhaseSlotSaturation ws ts st = checkPhaseSlotSaturation ws' ts' st.
Proof.
  intros Hw Ht. unfold checkPhaseSlotSaturation, phase_table.
  rewrite (forEach_agree EWorkers
             (fun w (_ : nat) ps => add_worker w ps)
             (fun w (_ : nat) ps => add_worker w ps) ws ws' [] Hw).
  2:{ intros w w' i ps Hww. unfold add_worker.
      rewrite (field_agree _ w w' "AvailableSlots" Hww) by in_read.
      by rewrite (field_agree _ w w' "MaxLoadPerPhase" Hww) by in_read. }
  destruct (forEach _ ws' []) as [ps| |]; simpl; [|done|done].
  rewrite (forEach_agree ETasks
             (fun t (_ : nat) ps => add_task_demand t ps)
             (fun t (_ : nat) ps => add_task_demand t ps) ts ts' ps Ht).
  2:{ intros t t' i ps' Htt. unfold add_task_demand.
      rewrite (field_agree _ t t' "PreferredPhases" Htt) by in_read.
      by rewrite (field_agree _ t t' "Duration" Htt) by in_read. }
  done.
Qed.

Lemma agree_insert e (r : row) c v :
  c ∉ read_columns e → agree e r (<[c := v]> r).
Proof.
  intros Hc c' Hc'. rewrite lookup_insert_ne; [done|]. by intros ->.
Qed.

(** X24.  A run reads no column of a row but [id] and the required
    columns of its entity: two snapshots whose rows have the same cells in
    these columns, row by row, give the same outcome.  Columns added to the
    rows under other names, or changed there, change nothing. *)
Theorem validateAllData_reads_listed_columns cs cs' ws ws' ts ts' rs :
  Forall2 (agree EClients) cs cs' →
  Forall2 (agree EWorkers) ws ws' →
  Forall2 (agree ETasks) ts ts' →
  validateAllData (mkArgs cs ws ts rs) = validateAllData (mkArgs cs' ws' ts' rs).
Proof.
  intros Hc Hw Ht. rewrite !validateAllData_passes.
  apply RulesFacts.run_passes_ext. unfold passes. simpl.
  repeat (constructor;
          [intros st;
           first [ by apply checkMissingColumns_agree
                 | apply checkDuplicateIds_agree; [in_read | done]
                 | apply checkOutOfRange_agree; [in_read | done]
                 | apply checkMalformedLists_agree; [in_read | done]
                 | apply checkJSONFormat_agree; [in_read | done]
                 | by apply checkOverloadedWorkers_agree
                 | by apply checkMaxConcurrencyFeasibility_agree
                 | by apply check_task_references_agree
                 | by apply check_skill_coverage_agree
                 | by apply checkPhaseSlotSaturation_agree
                 | reflexivity ] |]).
  constructor.
Qed.

Lemma validateAllData_reads_listed_columns_witness :
  validateAllData
    (mkArgs [client_priority_zero] [] [] None)
  = validateAllData
      (mkArgs [<["PriorityLevel_fixed" := CStr "3"]> client_priority_zero]
              [] [] None).
Proof.
  apply (validateAllData_reads_listed_columns
           [client_priority_zero]
           [<["PriorityLevel_fixed" := CStr "3"]> client_priority_zero]
           [] [] [] [] None).
  - constructor; [|constructor]. apply agree_insert.
    vm_compute. intros H. repeat (apply elem_of_cons in H as [[=]|H]).
    by apply elem_of_nil in H.
  - constructor.
  - constructor.
Defined.

End FrameFacts.
